(** * Directed connectivity (dDTF) and surrogate significance testing

    A shallow embedding of [mGrangerdDTF.py] and [mGrangerStats2.py].

    Numbers.  The Python code computes with IEEE doubles; here a float is a
    real number ([R]) and a complex float is a pair of reals, so rounding is
    not modelled.  Where the code can divide by zero, the [nan] or [inf]
    that numpy reports is modelled explicitly: no result below rests on
    what the total division of [R] returns for a zero divisor.

    Arrays.  A numpy array is a nested list, outermost axis first.  An array
    with an empty leading axis is the empty list, so the lengths of its
    trailing axes are read as [0]; [compute_E_f], which is handed the
    residuals of a series, reads residuals without rows as an array that
    still has columns.

    Control.  A Python call either returns, raises, or returns an array that
    holds non-finite entries: see [py]. *)

From Stdlib Require Import Reals Lra Lia.
From stdpp Require Import base list.

(** ** Outcomes of a Python call *)

Module Py.

(** The exceptions numpy raises in the modelled code. *)
Inductive exn := IndexError | ValueError | LinAlgError.

(** [Ok a]: the call returns [a].  [Raise e]: it raises [e].  [NonFinite]:
    it goes on with [inf]/[nan] entries (numpy only warns); where those
    entries end up follows IEEE-754 and is not tracked. *)
Inductive py (A : Type) := Ok (a : A) | Raise (e : exn) | NonFinite.
Arguments Ok {A} a.
Arguments Raise {A} e.
Arguments NonFinite {A}.

#[export] Instance py_ret : MRet py := @Ok.
#[export] Instance py_bind : MBind py := λ A B f m,
  match m with Ok a => f a | Raise e => Raise e | NonFinite => NonFinite end.
#[export] Instance py_fmap : FMap py := λ A B f m,
  match m with Ok a => Ok (f a) | Raise e => Raise e | NonFinite => NonFinite end.

(** [l[i]] for [0 <= i]: IndexError out of range. *)
Definition getitem {A} (l : list A) (i : nat) : py A :=
  match l !! i with Some x => Ok x | None => Raise IndexError end.

(** [m[i, j]]. *)
Definition getitem2 {X} (m : list (list X)) (i j : nat) : py X :=
  row ← getitem m i; getitem row j.

(** A [for] loop that threads the mutated state [s] through its body. *)
Fixpoint foldM {S X} (body : S → X → py S) (s : S) (xs : list X) : py S :=
  match xs with
  | [] => Ok s
  | x :: xs' => s' ← body s x; foldM body s' xs'
  end.

(** A loop (or comprehension) that produces one value per element. *)
Fixpoint forM {X Y} (f : X → py Y) (xs : list X) : py (list Y) :=
  match xs with
  | [] => Ok []
  | x :: xs' => y ← f x; ys ← forM f xs'; Ok (y :: ys)
  end.

End Py.
Import Py.

(** ** numpy on real arrays *)

Module NumPy.

Local Open Scope R_scope.

Abbreviation vector := (list R).
Abbreviation matrix := (list (list R)).
Abbreviation tensor := (list (list (list R))).

(** [np.zeros_like] on a 2-D array. *)
Definition zeros_like (m : matrix) : matrix := map (map (λ _, 0)) m.

(** The sum of the products of two equally long 1-D arrays. *)
Definition dot (u v : vector) : R := foldr (λ ab acc, ab.1 * ab.2 + acc) 0 (zip u v).

Definition mat_vec (m : matrix) (v : vector) : vector := map (λ row, dot row v) m.

Definition vsub (u v : vector) : vector := zip_with Rminus u v.

(** What [A[i]] is for the array [A] handed to [compute_E]: a row of a 2-D
    array or a matrix of a 3-D one. *)
Inductive ndarray := Arr2 (m : matrix) | Arr3 (t : tensor).
Inductive item := Row (v : vector) | Mat (m : matrix).
(** What [np.dot] returns on those. *)
Inductive dotval := Scalar (r : R) | Vector (v : vector).

(** [A.shape]. *)
Definition shape (A : ndarray) : list nat :=
  match A with
  | Arr2 m => [length m; length (default [] (head m))]
  | Arr3 t => [length t; length (default [] (head t));
               length (default [] (head (default [] (head t))))]
  end.

(** [A.shape[0]]. *)
Definition shape0 (A : ndarray) : nat :=
  match A with Arr2 m => length m | Arr3 t => length t end.

(** [A[i]]. *)
Definition index0 (A : ndarray) (i : nat) : py item :=
  match A with
  | Arr2 m => Row <$> getitem m i
  | Arr3 t => Mat <$> getitem t i
  end.

(** [np.dot(a, v)] for a 1-D [v]: the inner product for a 1-D [a], the
    matrix-vector product for a 2-D [a]; ValueError when the last axis of
    [a] and [v] differ in length. *)
Definition np_dot (a : item) (v : vector) : py dotval :=
  match a with
  | Row u =>
      if decide (length u = length v) then Ok (Scalar (dot u v)) else Raise ValueError
  | Mat m =>
      Vector <$> forM (λ row, if decide (length row = length v)
                               then Ok (dot row v) else Raise ValueError) m
  end.

(** [row -= d] on a 1-D [row]: a scalar and a one-element array broadcast. *)
Definition isub (row : vector) (d : dotval) : py vector :=
  match d with
  | Scalar s => Ok (map (λ x, x - s) row)
  | Vector v =>
      if decide (length v = length row) then Ok (vsub row v)
      else match v with
           | [s] => Ok (map (λ x, x - s) row)
           | _ => Raise ValueError
           end
  end.

End NumPy.
Import NumPy.

(** ** Complex numbers and numpy on complex arrays *)

Module Cx.

Local Open Scope R_scope.

Record C := mkC { re : R; im : R }.

#[export] Instance R_eq_dec : EqDecision R := Req_dec_T.
#[export] Instance C_eq_dec : EqDecision C.
Proof. solve_decision. Defined.
#[export] Instance C_inhabited : Inhabited C := populate (mkC 0 0).
#[export] Instance R_inhabited : Inhabited R := populate 0.
#[export] Instance Rlt_decision : RelDecision Rlt := Rlt_dec.

Definition C0 : C := mkC 0 0.
Definition C1 : C := mkC 1 0.
Definition Ci : C := mkC 0 1.
Definition RtoC (x : R) : C := mkC x 0.

Definition Cadd (z w : C) : C := mkC (re z + re w) (im z + im w).
Definition Csub (z w : C) : C := mkC (re z - re w) (im z - im w).
Definition Cmul (z w : C) : C :=
  mkC (re z * re w - im z * im w) (re z * im w + im z * re w).
Definition Cconj (z : C) : C := mkC (re z) (- im z).
Definition Cscale (r : R) (z : C) : C := mkC (r * re z) (r * im z).
(** [np.abs] of a complex number. *)
Definition Cabs (z : C) : R := sqrt (re z * re z + im z * im z).
(** [1 / w] for [w <> 0]. *)
Definition Cinv (w : C) : C :=
  mkC (re w / (re w * re w + im w * im w)) (- im w / (re w * re w + im w * im w)).

(** [z / w] on complex floats: a zero divisor gives [inf]/[nan], with a
    RuntimeWarning and no exception. *)
Definition Cdiv (z w : C) : py C :=
  if decide (w = C0) then NonFinite else Ok (Cmul z (Cinv w)).

(** [z / m] for a real [m], one array entry: [None] is the non-finite
    result of a zero divisor ([nan + nanj] for [0 / 0]). *)
Definition Cdiv_real (z : C) (m : R) : option C :=
  if decide (m = 0) then None else Some (mkC (re z / m) (im z / m)).

(** [np.exp(1j * theta)]. *)
Definition cis (theta : R) : C := mkC (cos theta) (sin theta).

(** [exp(1j * q * pi / 2)] for a whole number [q] of quarter turns. *)
Definition unit_quarter (q : nat) : C :=
  match (q mod 4)%nat with
  | 0%nat => C1
  | 1%nat => Ci
  | 2%nat => mkC (-1) 0
  | _ => mkC 0 (-1)
  end.

Definition csum (zs : list C) : C := foldr Cadd C0 zs.

Abbreviation cvector := (list C).
Abbreviation cmatrix := (list (list C)).
Abbreviation ctensor := (list (list (list C))).

(** [m.shape[1]] of a 2-D array, [t.shape[1]] and [t.shape[2]] of a 3-D one. *)
Definition ncols {X} (m : list (list X)) : nat := length (default [] (head m)).
Definition axis1 {X} (t : list (list (list X))) : nat := length (default [] (head t)).
Definition axis2 {X} (t : list (list (list X))) : nat := ncols (default [] (head t)).

(** The cell [(i, j)] of a 2-D array, when there is one. *)
Definition cell {X} (d : list (list X)) (i j : nat) : option X := d !! i ≫= (.!! j).

(** [m[i, j]] where the indices are known to be in range. *)
Definition item2 {X} `{Inhabited X} (m : list (list X)) (i j : nat) : X :=
  (m !!! i) !!! j.

(** [m[f, i, j]] where the indices are known to be in range. *)
Definition item3 {X} `{Inhabited X} (t : list (list (list X))) (f i j : nat) : X :=
  item2 (t !!! f) i j.

(** A 2-D array of shape [(rows, cols)], a 3-D array whose slices have it. *)
Definition rect {X} (rows cols : nat) (m : list (list X)) : Prop :=
  length m = rows ∧ Forall (λ row, length row = cols) m.
Definition rect3 {X} (rows cols : nat) (t : list (list (list X))) : Prop :=
  Forall (rect rows cols) t.

(** [m.T] of a 2-D array. *)
Definition transpose {X} `{Inhabited X} (m : list (list X)) : list (list X) :=
  map (λ c, map (λ row, row !!! c) m) (seq 0 (ncols m)).

(** [np.fft.fft]: [A_k = sum_m a_m exp(-2 pi i m k / n)]. *)
Definition fft (a : cvector) : cvector :=
  let n := length a in
  map (λ k, csum (imap (λ m a_m, Cmul a_m (cis (- (2 * PI * INR m * INR k / INR n)))) a))
      (seq 0 n).

(** [np.fft.ifft]: [a_m = (1/n) sum_k A_k exp(2 pi i m k / n)]. *)
Definition ifft (A : cvector) : cvector :=
  let n := length A in
  map (λ m, Cscale (/ INR n)
              (csum (imap (λ k A_k, Cmul A_k (cis (2 * PI * INR m * INR k / INR n))) A)))
      (seq 0 n).

(** [np.fft.fft2] of a real 2-D array:
    [A_kl = sum_m sum_n a_mn exp(-2 pi i (m k / M + n l / N))];
    ValueError on an axis of length zero. *)
Definition fft2 (a : matrix) : py cmatrix :=
  let M := length a in
  let N := ncols a in
  if decide (M = 0 ∨ N = 0)%nat then Raise ValueError
  else Ok (map (λ k, map (λ l,
         csum (imap (λ m row,
           csum (imap (λ n a_mn,
             Cmul (RtoC a_mn)
                  (cis (- (2 * PI * (INR m * INR k / INR M + INR n * INR l / INR N)))))
             row)) a))
         (seq 0 N)) (seq 0 M)).

(** [np.linspace(lo, hi, num)]: [num] points from [lo] in steps of
    [(hi - lo) / (num - 1)]; the single point [lo] for [num = 1]. *)
Definition linspace (lo hi : R) (num : nat) : list R :=
  if decide (num = 1)%nat then [lo]
  else map (λ k, lo + INR k * ((hi - lo) / INR (num - 1))) (seq 0 num).

(** [np.fft.fftfreq(n)[k]]: [0, 1, ..., (n-1)//2, -(n//2), ..., -1], over [n]. *)
Definition fftfreq (n k : nat) : R :=
  if decide (k ≤ (n - 1) / 2)%nat then INR k / INR n else (INR k - INR n) / INR n.

(** [np.eye(n)[i, j]]. *)
Definition eye (i j : nat) : C := if decide (i = j) then C1 else C0.

(** Determinant by expansion along the first row.  [np.linalg.det] and
    [np.linalg.inv] go through an LU factorisation; over the reals they
    return these values. *)
Definition sign (k : nat) : C := if Nat.even k then C1 else mkC (-1) 0.

Fixpoint det_n (n : nat) (m : cmatrix) : C :=
  match n, m with
  | S n', row0 :: rest =>
      csum (imap (λ j z, Cmul (Cmul (sign j) z) (det_n n' (map (delete j) rest))) row0)
  | _, _ => C1
  end.

Definition det (m : cmatrix) : C := det_n (length m) m.

Definition cofactor (m : cmatrix) (i j : nat) : C :=
  Cmul (sign (i + j)) (det (map (delete j) (delete i m))).

Definition square {X} (m : list (list X)) : Prop :=
  Forall (λ row, length row = length m) m.

#[export] Instance square_dec {X} (m : list (list X)) : Decision (square m).
Proof. unfold square. apply _. Defined.

(** [np.linalg.det]: LinAlgError unless the array is square. *)
Definition linalg_det (m : cmatrix) : py C :=
  if decide (square m) then Ok (det m) else Raise LinAlgError.

(** [np.linalg.inv]: LinAlgError unless the array is square and not
    singular; otherwise the adjugate over the determinant. *)
Definition linalg_inv (m : cmatrix) : py cmatrix :=
  if decide (square m) then
    if decide (det m = C0) then Raise LinAlgError
    else Ok (map (λ i, map (λ j, Cmul (cofactor m j i) (Cinv (det m)))
                           (seq 0 (length m))) (seq 0 (length m)))
  else Raise LinAlgError.

(** The matrix product of two 2-D arrays and the unit matrix [np.eye(n)],
    to state what an inverse is. *)
Definition Copp (z : C) : C := mkC (- re z) (- im z).

Definition matmul (a b : cmatrix) : cmatrix :=
  map (λ row, map (λ j, csum (imap (λ k x, Cmul x (item2 b k j)) row)) (seq 0 (ncols b))) a.

Definition identity (n : nat) : cmatrix :=
  map (λ i, map (λ j, eye i j) (seq 0 n)) (seq 0 n).

(** [x * y] on arrays, one axis: equal lengths pair up, a length-one axis
    is stretched, anything else is a ValueError. *)
Definition broadcast {X Y Z} (f : X → Y → py Z) (a : list X) (b : list Y) : py (list Z) :=
  if decide (length a = length b) then forM (λ ab, f ab.1 ab.2) (zip a b)
  else match a, b with
       | [x], _ => forM (f x) b
       | _, [y] => forM (λ x, f x y) a
       | _, _ => Raise ValueError
       end.

(** [target[...] = value] on a 2-D target of the given shape: the value is
    stretched along length-one axes, anything else is a ValueError. *)
Definition stretch {X} (n : nat) (l : list X) : py (list X) :=
  if decide (length l = n) then Ok l
  else match l with
       | [x] => Ok (replicate n x)
       | _ => Raise ValueError
       end.

Definition assign2 {X} (rows cols : nat) (value : list (list X)) : py (list (list X)) :=
  value' ← stretch rows value; forM (stretch cols) value'.

(** [np.var] of a complex array, flattened: the mean of [|x - mean|^2];
    [nan] on an empty array. *)
Definition np_var (zs : list C) : py R :=
  match zs with
  | [] => NonFinite
  | _ => let n := INR (length zs) in
         let mean := Cscale (/ n) (csum zs) in
         Ok (foldr (λ z acc, (let d := Csub z mean in re d * re d + im d * im d) + acc) 0 zs / n)
  end.

(** [a.min()] and [a.max()] of a flattened real array: ValueError when it
    is empty. *)
Definition np_min (xs : list R) : py R :=
  match xs with [] => Raise ValueError | x :: xs' => Ok (foldr Rmin x xs') end.
Definition np_max (xs : list R) : py R :=
  match xs with [] => Raise ValueError | x :: xs' => Ok (foldr Rmax x xs') end.

(** [np.sum] of a 1-D real array. *)
Definition np_sum (xs : list R) : R := foldr Rplus 0 xs.

(** The entries of a 3-D array, flattened. *)
Definition flat {X} (t : list (list (list X))) : list X := concat (concat t).

Definition map3 {X Y} (f : X → Y) (t : list (list (list X))) : list (list (list Y)) :=
  map (map (map f)) t.

End Cx.
Import Cx.

(** ** The class [mGrangerdDTF] *)

Module mGrangerdDTF.

Local Open Scope R_scope.

(** *** compute_A_n *)

Section VARFitter.

(** [VAR(data).fit(order).coefs] of statsmodels: the fitted coefficient
    array, of shape [(order, C, C)]. *)
Variable VAR_fit : matrix → nat → py tensor.

(** [np.stack] raises ValueError on an empty sequence; the result is
    [matrix_coefficients[0, :, :]], a 2-D array. *)
Definition compute_A_n (data : matrix) (order : nat) : py matrix :=
  coefs ← VAR_fit data order;
  match coefs with
  | [] => Raise ValueError
  | first :: _ => Ok first
  end.

End VARFitter.

(** *** compute_E *)

(** The body of the inner loop, [errors[i - lag_order] -= np.dot(...)]. *)
Definition lag_step (coefficients : list item) (observed_variables : matrix)
    (lag_order i : nat) (errors : matrix) (lag : nat) : py matrix :=
  e ← getitem errors (i - lag_order);
  c ← getitem coefficients (lag - 1);
  o ← getitem observed_variables (i - lag);
  d ← np_dot c o;
  e' ← isub e d;
  Ok (<[(i - lag_order)%nat := e']> errors).

(** The body of the outer loop. *)
Definition row_step (coefficients : list item) (observed_variables : matrix)
    (lag_order : nat) (errors : matrix) (i : nat) : py matrix :=
  o ← getitem observed_variables i;
  _ ← getitem errors (i - lag_order);
  foldM (lag_step coefficients observed_variables lag_order i)
        (<[(i - lag_order)%nat := o]> errors) (seq 1 lag_order).

Definition compute_E (data : matrix) (A : ndarray) : py matrix :=
  let lag_order := shape0 A in
  coefficients ← forM (index0 A) (seq 0 lag_order);
  let observed_variables := drop lag_order data in
  let errors := zeros_like observed_variables in
  foldM (row_step coefficients observed_variables lag_order) errors
        (seq lag_order (length observed_variables - lag_order)).

(** The residual of the model at row [i] of the lagged data, as in the
    docstring: [X(i) - sum_lag A(lag) X(i - lag)], the lags subtracted in
    ascending order. *)
Definition residual (t : tensor) (observed : matrix) (i : nat) : vector :=
  foldl (λ e lag, vsub e (mat_vec (t !!! (lag - 1)%nat) (observed !!! (i - lag)%nat)))
        (observed !!! i) (seq 1 (length t)).

(** What the inner loop does to the one row it works on. *)
Definition row_fold (coefficients : list item) (observed : matrix) (i : nat)
    (e : vector) (lags : list nat) : py vector :=
  foldM (λ e lag,
           c ← getitem coefficients (lag - 1);
           o ← getitem observed (i - lag);
           d ← np_dot c o;
           isub e d) e lags.

(** The residual that [compute_E] forms at row [i] of the lagged data when
    it is handed a 2-D array [A]: [np.dot] of a row of [A] and a row of the
    data is a scalar, which is subtracted from every entry of the row. *)
Definition scalar_residual (A : matrix) (observed : matrix) (i : nat) : vector :=
  foldl (λ e lag, map (λ x, x - dot (A !!! (lag - 1)%nat) (observed !!! (i - lag)%nat)) e)
        (observed !!! i) (seq 1 (length A)).

(** *** compute_A_f *)

(** [np.exp(-2j * np.pi * f * np.fft.fftfreq(n)[:, np.newaxis] * np.arange(n))]. *)
Definition exp_term (n : nat) (f : R) : cmatrix :=
  map (λ r, map (λ c, cis (- (2 * PI * f * fftfreq n r * INR c))) (seq 0 n)) (seq 0 n).

Definition mul2 (x y : cmatrix) : py cmatrix :=
  broadcast (broadcast (λ z w, Ok (Cmul z w))) x y.

(** [np.eye(n)[i, j]] for [i, j = np.indices((n, m))]: IndexError when a
    column index reaches [n]. *)
Definition eye_indexed (n m : nat) : py cmatrix :=
  if decide (m ≤ n)%nat then Ok (map (λ i, map (λ j, eye i j) (seq 0 m)) (seq 0 n))
  else Raise IndexError.

(** [a -= e] on 2-D arrays. *)
Definition isub2 (a e : cmatrix) : py cmatrix :=
  e' ← assign2 (length a) (ncols a) e;
  Ok (zip_with (zip_with Csub) a e').

(** One turn of the loop over the frequencies. *)
Definition A_f_slice (n m : nat) (A_fft : cmatrix) (f : R) : py cmatrix :=
  a_ij_f ← mul2 A_fft (exp_term n f);
  delta ← eye_indexed n m;
  a_ij_f ← isub2 a_ij_f delta;
  assign2 n m a_ij_f.

Definition compute_A_f (A_n : matrix) (num_frequencies : nat)
    (lower_frequency_limit upper_frequency_limit : R) : py ctensor :=
  A_fft ← fft2 A_n;
  forM (A_f_slice (length A_n) (ncols A_n) A_fft)
       (linspace lower_frequency_limit upper_frequency_limit num_frequencies).

(** The AR-coefficient-to-frequency transform of [compute_A_f]: the 2-D
    FFT of the coefficients times [exp_term], entry by entry. *)
Definition transform (A_n : matrix) (f : R) : py cmatrix :=
  A_fft ← fft2 A_n; mul2 A_fft (exp_term (length A_n) f).

(** *** compute_H_f and compute_H_h *)

Definition compute_H_f (a_ij_f_slices : ctensor) : py ctensor :=
  forM linalg_inv a_ij_f_slices.

Definition compute_H_h (matrix : ctensor) : py ctensor :=
  forM (λ m, assign2 (length m) (ncols m) (map (map Cconj) (transpose m))) matrix.

(** *** compute_E_f, compute_V, compute_S_f *)

(** Every frequency slice holds the same array, the FFT of each column of
    [errors].  Residuals without rows still have the columns of the series,
    which the empty list does not show: [np.fft.fft] raises ValueError on
    the first of these empty columns, in the first turn of the loops, so
    when there is a frequency to loop over. *)
Definition compute_E_f (errors : matrix) (lower_frequency_limit upper_frequency_limit : R)
    (num_frequencies : nat) : py ctensor :=
  match num_frequencies, errors with
  | S _, [] => Raise ValueError
  | _, _ =>
      Ok (replicate num_frequencies
            (transpose (map (λ column, fft (map RtoC column)) (transpose errors))))
  end.

Definition compute_V (errors : ctensor) : py (list R) :=
  forM (λ slice, np_var (concat slice)) errors.

Definition compute_S_f (H H_h : ctensor) (V : list R) : py ctensor :=
  forM (λ i,
          h ← getitem H i;
          v ← getitem V i;
          hh ← getitem H_h i;
          s ← mul2 (map (map (Cscale v)) h) hh;
          assign2 (length h) (ncols h) s)
       (seq 0 (length H)).

(** *** normalize_complex_arr and compute_partial_coherence *)

Definition normalize_complex_arr (a : ctensor) : py (list (list (list (option C)))) :=
  real_min ← np_min (map re (flat a));
  imag_min ← np_min (map im (flat a));
  let a_oo := map3 (λ z, Csub (Csub z (RtoC real_min)) (mkC 0 imag_min)) a in
  abs_max ← np_max (map Cabs (flat a_oo));
  Ok (map3 (λ z, Cdiv_real z abs_max) a_oo).

(** One entry of [a_oo], the array minus its offsets. *)
Definition offset_by (real_min imag_min : R) (z : C) : C :=
  Csub (Csub z (RtoC real_min)) (mkC 0 imag_min).

Definition compute_partial_coherence (matrix : ctensor)
    : py (list (list (list (option R)))) :=
  cof ← forM (λ m, inv ← linalg_inv m;
                   d ← linalg_det m;
                   Ok (map (map (λ z, Cmul z d)) (transpose inv) : cmatrix)) matrix;
  let rows := axis1 matrix in
  let cols := axis2 matrix in
  theta ← forM (λ cof_s : cmatrix,
             forM (λ i,
               forM (λ j,
                 c_ij ← getitem2 cof_s i j;
                 c_ii ← getitem2 cof_s i i;
                 c_jj ← getitem2 cof_s j j;
                 Cdiv (Cmul c_ij c_ij) (Cmul c_ii c_jj))
               (seq 0 cols)) (seq 0 rows)) cof;
  theta_normalized ← normalize_complex_arr theta;
  Ok (map3 (option_map Cabs) theta_normalized).

(** *** compute_dDTF and compute_abs_dDTF *)

Section dDTF.

(** The sum is taken in whatever arithmetic the entries live in: no law
    of [add] or [mul] is assumed, so the order of the additions is part of
    the result, as it is for floats. *)
Context {X Y Z : Type} (zero : Z) (add : Z → Z → Z) (mul : X → Y → Z).

Definition getitem3 {W} (t : list (list (list W))) (f i j : nat) : py W :=
  m ← getitem t f; getitem2 m i j.

(** [dDTF_ij[i, j] += h_ij[f, i, j] * theta_ij[f, i, j]]. *)
Definition accumulate (h_ij : list (list (list X))) (theta_ij : list (list (list Y)))
    (i j : nat) (dDTF_ij : list (list Z)) (f : nat) : py (list (list Z)) :=
  acc ← getitem2 dDTF_ij i j;
  h ← getitem3 h_ij f i j;
  th ← getitem3 theta_ij f i j;
  Ok (alter (<[j := add acc (mul h th)]>) i dDTF_ij).

Definition compute_dDTF (h_ij : list (list (list X))) (theta_ij : list (list (list Y)))
    : py (list (list Z)) :=
  let slices := length theta_ij in
  let rows := axis1 theta_ij in
  let cols := axis2 theta_ij in
  let dDTF_ij := replicate rows (replicate cols zero) in
  foldM (λ dDTF_ij i,
    foldM (λ dDTF_ij j,
      foldM (accumulate h_ij theta_ij i j) dDTF_ij (seq 0 slices))
      dDTF_ij (seq 0 cols))
    dDTF_ij (seq 0 rows).

(** The sum that the docstring of the class describes for the cell
    [(i, j)]: the terms [h * theta] added one by one to [zero], in ascending
    order of the slice index. *)
Definition plus_term `{Inhabited X, Inhabited Y} (h_ij : list (list (list X)))
    (theta_ij : list (list (list Y))) (i j : nat) (acc : Z) (f : nat) : Z :=
  add acc (mul (item3 h_ij f i j) (item3 theta_ij f i j)).

Definition frequency_sum `{Inhabited X, Inhabited Y} (h_ij : list (list (list X)))
    (theta_ij : list (list (list Y))) (i j : nat) : Z :=
  foldl (plus_term h_ij theta_ij i j) zero (seq 0 (length theta_ij)).

End dDTF.

Definition compute_abs_dDTF (matrix : cmatrix) : list (list R) := map (map Cabs) matrix.

(** *** in_out_degree *)

(** [np.sum(m, axis=1)] and [np.sum(m, axis=0)] of a 2-D array. *)
Definition sum_axis1 (m : matrix) : vector := map np_sum m.
Definition sum_axis0 (m : matrix) : vector :=
  map (λ j, np_sum (map (λ row, row !!! j) m)) (seq 0 (ncols m)).

Definition in_out_degree (ddtf_matrix : cmatrix) : py (vector * vector * vector) :=
  let in_degree := sum_axis1 (map (map Cabs) ddtf_matrix) in
  let out_degree := sum_axis0 (map (map Cabs) ddtf_matrix) in
  in_and_out ← broadcast (λ x y, Ok (x + y)) in_degree out_degree;
  Ok (in_degree, out_degree, in_and_out).

(** *** The constructor and execute_sequence *)

Record object := {
  data : matrix;
  order : nat;
  num_frequencies : nat;
  lower_frequency_limit : R;
  upper_frequency_limit : R;
  A_n : matrix;
  errors : matrix;
  A_f : ctensor;
  H : ctensor;
  H_h : ctensor;
  errors_f : ctensor;
  V : list R;
  S_f : ctensor;
  theta_ij : tensor;
  dDTF_ij : cmatrix;
  abs_dDTF : matrix
}.

(** [theta_ij] as the later stages read it: a [nan] in it makes every sum
    it enters [nan], and the run is [NonFinite]. *)
Definition finite3 (t : list (list (list (option R)))) : py tensor :=
  forM (forM (forM (λ x, match x with Some r => Ok r | None => NonFinite end))) t.

Section Constructor.

Variable VAR_fit : matrix → nat → py tensor.

Definition execute_sequence (data : matrix) (order num_frequencies : nat)
    (lower_frequency_limit upper_frequency_limit : R) : py object :=
  A_n ← compute_A_n VAR_fit data order;
  errors ← compute_E data (Arr2 A_n);
  A_f ← compute_A_f A_n num_frequencies lower_frequency_limit upper_frequency_limit;
  H ← compute_H_f A_f;
  H_h ← compute_H_h H;
  errors_f ←
    compute_E_f errors lower_frequency_limit upper_frequency_limit num_frequencies;
  V ← compute_V errors_f;
  S_f ← compute_S_f H H_h V;
  theta ← compute_partial_coherence S_f;
  theta_ij ← finite3 theta;
  dDTF_ij ← compute_dDTF C0 Cadd (λ h th, Cscale th h) H theta_ij;
  Ok {| data := data; order := order; num_frequencies := num_frequencies;
        lower_frequency_limit := lower_frequency_limit;
        upper_frequency_limit := upper_frequency_limit;
        A_n := A_n; errors := errors; A_f := A_f; H := H; H_h := H_h;
        errors_f := errors_f; V := V; S_f := S_f; theta_ij := theta_ij;
        dDTF_ij := dDTF_ij; abs_dDTF := compute_abs_dDTF dDTF_ij |}.

(** [mGrangerdDTF(data, order, num_frequencies, lower_frequency_limit,
    upper_frequency_limit)]: the constructor stores its arguments and runs
    the whole sequence. *)
Definition __init__ := execute_sequence.

End Constructor.

(** The defaults of the keyword arguments of the constructor. *)
Definition default_order : nat := 1.
Definition default_num_frequencies : nat := 10.
Definition default_lower_frequency_limit : R := 0.01.
Definition default_upper_frequency_limit : R := 0.1.

End mGrangerdDTF.

(** ** The class [mGrangerStats2] *)

Module mGrangerStats2.

Local Open Scope R_scope.

(** *** generate_surrogate *)

(** The global generator of [np.random]: [u] is the stream of uniform
    variates in [[0, 1)] it hands out, the state is the number of variates
    drawn so far.  [rand u k pos] is [np.random.rand(k)]. *)
Definition rand (u : nat → R) (k : nat) (pos : nat) : list R * nat :=
  (map u (seq pos k), (pos + k)%nat).

(** [np.exp(2.0 * np.pi * 1j * r)] on an array [r]. *)
Definition phases (r : list R) : cvector := map (λ x, cis (2 * PI * x)) r.

(** [target[idx] = values] for an array of indices. *)
Definition assign_at {X} (target : list X) (idx : list nat) (values : list X) : list X :=
  foldl (λ l iv, <[iv.1 := iv.2]> l) target (zip idx values).

(** [a[idx]] for an array of indices. *)
Definition take_at {X} `{Inhabited X} (a : list X) (idx : list nat) : list X :=
  map (λ i, a !!! i) idx.

(** The body of the two loops: the surrogate of one channel. *)
Definition surrogate_channel (u : nat → R) (channel : vector) (pos : nat) : vector * nat :=
  let original_fft := fft (map RtoC channel) in
  let n := length original_fft in
  let half_len := ((n - 1) / 2)%nat in
  let idx1 := seq 1 half_len in
  let idx2 := seq (half_len + 1) (n - (half_len + 1)) in
  let '(r1, pos) := rand u half_len pos in
  let phases1 := phases r1 in
  let '(r2, pos) := rand u half_len pos in
  let phases2 := phases r2 in
  let surrogate_fft := replicate n C0 in
  let surrogate_fft := <[0%nat := original_fft !!! 0%nat]> surrogate_fft in
  let surrogate_fft :=
    assign_at surrogate_fft idx1 (zip_with Cmul (take_at original_fft idx1) phases1) in
  let '(r3, pos) := rand u (length idx2) pos in
  let phases2 := phases r3 in
  let surrogate_fft :=
    assign_at surrogate_fft idx2 (zip_with Cmul (take_at original_fft idx2) phases2) in
  (map re (ifft surrogate_fft), pos).

(** The array [surrogate_fft] that the body builds from the variates at
    the positions [pos] onwards, and the number of variates that the body
    draws for a channel of [n] samples. *)
Definition surrogate_spectrum (u : nat → R) (channel : vector) (pos : nat) : cvector :=
  let original_fft := fft (map RtoC channel) in
  let n := length original_fft in
  let half_len := ((n - 1) / 2)%nat in
  let idx1 := seq 1 half_len in
  let idx2 := seq (half_len + 1) (n - (half_len + 1)) in
  let surrogate_fft := <[0%nat := original_fft !!! 0%nat]> (replicate n C0) in
  let surrogate_fft :=
    assign_at surrogate_fft idx1
      (zip_with Cmul (take_at original_fft idx1) (phases (map u (seq pos half_len)))) in
  assign_at surrogate_fft idx2
    (zip_with Cmul (take_at original_fft idx2)
       (phases (map u (seq (pos + half_len + half_len) (n - (half_len + 1)))))).

Definition draws_per_channel (n : nat) : nat :=
  ((n - 1) / 2 + (n - 1) / 2 + (n - ((n - 1) / 2 + 1)))%nat.

(** [m[:, ic] = column]. *)
Definition set_column (m : matrix) (ic : nat) (column : vector) : matrix :=
  imap (λ t row, <[ic := column !!! t]> row) m.

(** [original_data[:, ic]]. *)
Definition column (m : matrix) (ic : nat) : vector := map (λ row, row !!! ic) m.

Definition generate_surrogate (u : nat → R) (original_data : matrix) (num_sets : nat)
    (pos : nat) : tensor * nat :=
  let num_time_points := length original_data in
  let num_ICs := ncols original_data in
  let surrogate_data := replicate num_sets (replicate num_time_points (replicate num_ICs 0)) in
  foldl (λ st s,
    foldl (λ st ic,
      let '(surrogate, pos) := surrogate_channel u (column original_data ic) st.2 in
      (alter (λ m, set_column m ic surrogate) s st.1, pos))
      st (seq 0 num_ICs))
    (surrogate_data, pos) (seq 0 num_sets).

(** *** significance_testing *)

Section SignificanceTesting.

(** The constructor of the class [mGrangerdDTF]. *)
Variable new_mGrangerdDTF : matrix → nat → nat → R → R → py mGrangerdDTF.object.

(** [scipy.stats.ttest_1samp(a, popmean)]: the t statistic and the
    two-tailed p-value; [None] is [nan]. *)
Variable ttest_1samp : list R → R → option R * option R.

(** [mGrangerdDTF(data=data)]: every keyword argument at its default. *)
Definition mGrangerdDTF_of_data (data : matrix) : py mGrangerdDTF.object :=
  new_mGrangerdDTF data mGrangerdDTF.default_order mGrangerdDTF.default_num_frequencies
    mGrangerdDTF.default_lower_frequency_limit mGrangerdDTF.default_upper_frequency_limit.

(** [p < my_pvalue] on a float: false on [nan]. *)
Definition float_lt (p : option R) (x : R) : bool :=
  match p with Some r => bool_decide (r < x) | None => false end.

(** [x * b] for a boolean [b]. *)
Definition times_bool (x : R) (b : bool) : R := x * (if b then 1 else 0).

Definition p_value_of (dDTF_og : matrix) (su : tensor) (i j : nat) : py (option R) :=
  original_value ← getitem2 dDTF_og i j;
  surrogate_values ← forM (λ m, getitem2 m i j) su;
  let '(t_statistic, p_value) := ttest_1samp surrogate_values original_value in
  Ok (option_map (λ p, p / 2) p_value).

Definition significance_testing (original_data : matrix) (surrogate_series : tensor)
    (my_pvalue : R) : py matrix :=
  let num_sets := length surrogate_series in
  let num_ICs := axis2 surrogate_series in
  og ← mGrangerdDTF_of_data original_data;
  let dDTF_og := map (map Cabs) (mGrangerdDTF.dDTF_ij og) in
  su ← forM (λ temporal_surrogate,
               temporal_su ← mGrangerdDTF_of_data temporal_surrogate;
               assign2 num_ICs num_ICs (map (map Cabs) (mGrangerdDTF.dDTF_ij temporal_su)))
            surrogate_series;
  p_values ← forM (λ i, forM (λ j, p_value_of dDTF_og su i j) (seq 0 num_ICs))
                  (seq 0 num_ICs);
  let significance_levels := map (map (λ p, float_lt p my_pvalue)) p_values in
  let significant_connections :=
    map (λ i, map (λ j, if item2 significance_levels i j then true else false)
                  (seq 0 num_ICs)) (seq 0 num_ICs) in
  broadcast (broadcast (λ x b, Ok (times_bool x b))) dDTF_og significant_connections.

(** The null distribution of the pair [(i, j)]: its [|dDTF|] in each
    surrogate run; and the one-tailed p-value of the observed value against
    it, the two-tailed p-value of the t-test halved. *)
Definition null_distribution (runs : list mGrangerdDTF.object) (i j : nat) : list R :=
  map (λ run, Cabs (item2 (mGrangerdDTF.dDTF_ij run) i j)) runs.

Definition one_tailed_p (null : list R) (observed : R) : option R :=
  option_map (λ p, p / 2) (ttest_1samp null observed).2.

End SignificanceTesting.

End mGrangerStats2.

(** *** Sample inputs *)

Module Samples.

Local Open Scope R_scope.

(** Five samples of one channel, and a one-lag coefficient tensor. *)
Definition ramp : matrix := [[1]; [2]; [3]; [4]; [5]].
Definition one_lag : tensor := [[[2]]].

(** The coefficient matrix of one channel that depends on its own past
    with weight one half. *)
Definition half_coefficient : matrix := [[1 / 2]].

(** A fit of order 2 on two channels.  The ten samples follow
    [X(t) = A(1) X(t-1) + A(2) X(t-2)] without any residual, so these two
    matrices are the least-squares coefficients of the series; the
    coefficient array has shape [(2, 2, 2)]. *)
Definition two_lag_series : matrix :=
  [[1; 0]; [0; 1]; [0; 1]; [1; 0]; [0; -1]; [0; -1]; [-1; 0]; [0; 1]; [0; 1]; [1; 0]].
Definition first_lag : matrix := [[-1; 0]; [0; 1]].
Definition second_lag : matrix := [[0; 1]; [0; -1]].
Definition two_lags : tensor := [first_lag; second_lag].
Definition two_lag_fit (data : matrix) (order : nat) : py tensor := Ok two_lags.

(** Two frequency slices of a one-channel transfer function and of its
    partial coherence. *)
Definition two_slices_h : ctensor := [[[C1]]; [[Ci]]].
Definition two_slices_theta : tensor := [[[1 / 2]]; [[1]]].

(** One channel over four samples, an impulse; and the variates that the
    generator hands out: the fourth draw is 0.5, all others are 0. *)
Definition impulse : matrix := [[1]; [0]; [0]; [0]].
Definition draws (k : nat) : R := if decide (k = 3%nat) then 1 / 2 else 0.

(** The spectral density of one channel at one frequency. *)
Definition one_channel_spectrum : ctensor := [[[mkC 2 0]]].

(** One frequency slice of the transformed residuals of two channels over
    two samples, all zero; and a transfer function of two channels. *)
Definition zero_residuals_f : ctensor := [[[C0; C0]; [C0; C0]]].
Definition unit_transfer : ctensor := [[[C1; C0]; [C0; C1]]].

(** A run of the pipeline whose dDTF matrix is [d]; a constructor that
    returns it whatever the series; a t-test that reports [nan], as scipy
    does on a constant sample whose value is the tested mean. *)
Definition run_with (d : cmatrix) : mGrangerdDTF.object :=
  {| mGrangerdDTF.data := []; mGrangerdDTF.order := 1; mGrangerdDTF.num_frequencies := 10;
     mGrangerdDTF.lower_frequency_limit := 0.01; mGrangerdDTF.upper_frequency_limit := 0.1;
     mGrangerdDTF.A_n := []; mGrangerdDTF.errors := []; mGrangerdDTF.A_f := [];
     mGrangerdDTF.H := []; mGrangerdDTF.H_h := []; mGrangerdDTF.errors_f := [];
     mGrangerdDTF.V := []; mGrangerdDTF.S_f := []; mGrangerdDTF.theta_ij := [];
     mGrangerdDTF.dDTF_ij := d; mGrangerdDTF.abs_dDTF := mGrangerdDTF.compute_abs_dDTF d |}.

Definition constant_pipeline (d : cmatrix) (data : matrix) (order num_frequencies : nat)
    (lower_frequency_limit upper_frequency_limit : R) : py mGrangerdDTF.object :=
  Ok (run_with d).


Definition ttest_nan (a : list R) (popmean : R) : option R * option R := (None, None).

(** A t-test that reports the statistic 3 and the two-tailed p-value 0.02. *)
Definition ttest_fixed (a : list R) (popmean : R) : option R * option R :=
  (Some 3, Some 0.02).

(** Five samples of two channels; the 2-D coefficient array of two
    channels that each depend on their own past only; a one-lag coefficient
    tensor for two channels. *)
Definition two_channel_series : matrix := [[1; 0]; [0; 1]; [1; 1]; [2; 3]; [5; 8]].
Definition identity_coefficients : matrix := [[1; 0]; [0; 1]].
Definition two_channel_lag : tensor := [identity_coefficients].

(** A coefficient array that is not square, and a transfer function whose
    one slice is not square. *)
Definition one_by_two : matrix := [[1; 2]].
Definition wide_transfer : ctensor := [[[C1; C0]]].

(** The variates [draws] with another second draw. *)
Definition other_draws (k : nat) : R := if decide (k = 1%nat) then 1 / 4 else draws k.

(** A t-test that reports the same p-value as [ttest_fixed] with a
    statistic of the opposite sign. *)
Definition ttest_negative (a : list R) (popmean : R) : option R * option R :=
  (Some (-3), Some 0.02).

(** A run of the whole sequence that returns: two channels over six
    samples, a fitter that returns the identity as coefficient matrix, and
    one frequency, 0.  The residuals, their transform and the object that
    the constructor returns. *)
Definition identity_fit (data : matrix) (order : nat) : py tensor :=
  Ok [identity_coefficients].
Definition step_series : matrix := [[0; 0]; [0; 0]; [0; 0]; [0; 0]; [2; 0]; [2; 2]].
Definition step_residuals : matrix := [[2; 0]; [0; 0]; [0; 0]; [0; 0]].
Definition step_residuals_f : ctensor :=
  [[[mkC 2 0; C0]; [mkC 2 0; C0]; [mkC 2 0; C0]; [mkC 2 0; C0]]].
Definition identity_run : mGrangerdDTF.object :=
  {| mGrangerdDTF.data := step_series; mGrangerdDTF.order := 1;
     mGrangerdDTF.num_frequencies := 1;
     mGrangerdDTF.lower_frequency_limit := 0; mGrangerdDTF.upper_frequency_limit := 0;
     mGrangerdDTF.A_n := identity_coefficients; mGrangerdDTF.errors := step_residuals;
     mGrangerdDTF.A_f := unit_transfer; mGrangerdDTF.H := unit_transfer;
     mGrangerdDTF.H_h := unit_transfer; mGrangerdDTF.errors_f := step_residuals_f;
     mGrangerdDTF.V := [1]; mGrangerdDTF.S_f := unit_transfer;
     mGrangerdDTF.theta_ij := [[[1; 0]; [0; 1]]];
     mGrangerdDTF.dDTF_ij := [[C1; C0]; [C0; C1]];
     mGrangerdDTF.abs_dDTF := mGrangerdDTF.compute_abs_dDTF [[C1; C0]; [C0; C1]] |}.

(** Two surrogate sets of that series, and the dDTF matrix of two channels
    that each drive themselves only. *)
Definition two_channel_sets : tensor := [step_series; step_series].
Definition self_driven : cmatrix := [[C1; C0]; [C0; C1]].

(** An array [A(f)] of two channels with one slice, a shear, and its
    inverse. *)
Definition shear_A_f : ctensor := [[[C1; C1]; [C0; C1]]].
Definition shear_inverse : ctensor := [[[C1; mkC (-1) 0]; [C0; C1]]].

End Samples.

(** * Facts *)

(** ** Loops in the [py] monad *)

Module PyFacts.

(** Runs a bind whose first action is known. *)
Ltac py_step := cbn [mbind py_bind fmap py_fmap mret py_ret].

Lemma getitem_Some {A} (l : list A) i x : l !! i = Some x → getitem l i = Ok x.
Proof. unfold getitem. by intros ->. Qed.

Lemma getitem_total {A} `{Inhabited A} (l : list A) i :
  i < length l → getitem l i = Ok (l !!! i).
Proof.
  intros Hi. apply getitem_Some. by apply list_lookup_lookup_total_lt.
Qed.

Lemma getitem_Ok_inv {A} (l : list A) i x : getitem l i = Ok x → l !! i = Some x.
Proof. unfold getitem. destruct (l !! i); by intros [= <-]. Qed.

Lemma foldM_cons {S X} (body : S → X → py S) s x xs :
  foldM body s (x :: xs) = s' ← body s x; foldM body s' xs.
Proof. done. Qed.

Lemma foldM_app {S X} (body : S → X → py S) s xs ys :
  foldM body s (xs ++ ys) = s' ← foldM body s xs; foldM body s' ys.
Proof.
  revert s. induction xs as [|x xs IH]; intros s; simpl; [done|].
  destruct (body s x) as [s1| |]; simpl; auto.
Qed.

Lemma forM_length {X Y} (f : X → py Y) xs ys :
  forM f xs = Ok ys → length ys = length xs.
Proof.
  revert ys. induction xs as [|x xs IH]; intros ys; simpl.
  - by intros [= <-].
  - destruct (f x) as [y| |]; simpl; try discriminate.
    destruct (forM f xs) as [ys'| |]; simpl; try discriminate.
    intros [= <-]. simpl. f_equal. by apply IH.
Qed.

Lemma forM_lookup {X Y} (f : X → py Y) xs ys i x :
  forM f xs = Ok ys → xs !! i = Some x → ∃ y, ys !! i = Some y ∧ f x = Ok y.
Proof.
  revert ys i. induction xs as [|x0 xs IH]; intros ys i; simpl; [done|].
  destruct (f x0) as [y0| |] eqn:E0; simpl; try discriminate.
  destruct (forM f xs) as [ys'| |] eqn:E1; simpl; try discriminate.
  intros [= <-]. destruct i as [|i]; simpl.
  - intros [= <-]. eauto.
  - intros Hi. eapply IH; eauto.
Qed.

Lemma forM_Ok {X Y} (f : X → py Y) (g : X → Y) xs :
  (∀ x, x ∈ xs → f x = Ok (g x)) → forM f xs = Ok (g <$> xs).
Proof.
  induction xs as [|x xs IH]; intros Hf; simpl; [done|].
  rewrite Hf by left. simpl. rewrite IH; [done|].
  intros y Hy. apply Hf. by right.
Qed.

Lemma forM_ext {X Y} (f g : X → py Y) xs :
  (∀ x, f x = g x) → forM f xs = forM g xs.
Proof.
  intros Hfg. induction xs as [|x xs IH]; simpl; [done|]. by rewrite Hfg, IH.
Qed.

End PyFacts.
Import PyFacts.

(** ** Complex numbers *)

Module CxFacts.

Local Open Scope R_scope.

(** Equality of two complex numbers given by their parts. *)
Ltac cx_eq :=
  unfold Csub, Cmul, Cadd, Cscale, Cconj, Cinv, RtoC, eye, C0, C1, Ci; simpl;
  f_equal; lra.

Lemma cis_0 : cis 0 = C1.
Proof. unfold cis, C1. by rewrite cos_0, sin_0. Qed.

(** Replaces the phases whose angle is zero by one. *)
Ltac cis_zero :=
  repeat match goal with
  | |- context [cis ?x] =>
      replace x with 0 by (unfold Rdiv, fftfreq; simpl; ring); rewrite cis_0
  end.

Lemma cis_add_quarter x : cis (x + PI / 2) = Cmul Ci (cis x).
Proof.
  unfold cis, Cmul, Ci. simpl. rewrite cos_plus, sin_plus, cos_PI2, sin_PI2.
  f_equal; lra.
Qed.

Lemma unit_quarter_S q : unit_quarter (S q) = Cmul Ci (unit_quarter q).
Proof.
  unfold unit_quarter.
  replace (S q) with (q + 1)%nat by lia.
  rewrite Nat.Div0.add_mod by lia.
  assert (Hq : (q mod 4 < 4)%nat) by (apply Nat.mod_upper_bound; lia).
  destruct (q mod 4)%nat as [|[|[|[|r]]]]; try lia; simpl; cx_eq.
Qed.

Lemma cis_quarter_turns q : cis (INR q * (PI / 2)) = unit_quarter q.
Proof.
  induction q as [|q IH].
  - simpl. replace (0 * (PI / 2)) with 0 by lra. apply cis_0.
  - rewrite S_INR.
    replace ((INR q + 1) * (PI / 2)) with (INR q * (PI / 2) + PI / 2) by lra.
    rewrite cis_add_quarter, IH. by rewrite unit_quarter_S.
Qed.

Lemma cis_neg x : cis (- x) = Cconj (cis x).
Proof. unfold cis, Cconj. simpl. by rewrite cos_neg, sin_neg. Qed.

(** Writes an angle as a whole number of quarter turns. *)
Ltac quarter x :=
  first
    [ replace x with (INR 0 * (PI / 2)) by (simpl; lra)
    | replace x with (INR 1 * (PI / 2)) by (simpl; lra)
    | replace x with (INR 2 * (PI / 2)) by (simpl; lra)
    | replace x with (INR 3 * (PI / 2)) by (simpl; lra)
    | replace x with (INR 4 * (PI / 2)) by (simpl; lra)
    | replace x with (INR 6 * (PI / 2)) by (simpl; lra)
    | replace x with (INR 9 * (PI / 2)) by (simpl; lra) ].

Ltac cis_quarters :=
  repeat match goal with
  | |- context [cis (- ?x)] => rewrite (cis_neg x)
  | |- context [cis ?x] => quarter x; rewrite cis_quarter_turns
  end.

Lemma Cabs_C1 : Cabs C1 = 1.
Proof.
  unfold Cabs, C1. simpl. replace (1 * 1 + 0 * 0) with 1 by lra. apply sqrt_1.
Qed.

Lemma Cabs_C0 : Cabs C0 = 0.
Proof.
  unfold Cabs, C0. simpl. replace (0 * 0 + 0 * 0) with 0 by lra. apply sqrt_0.
Qed.

Lemma C_nonzero_norm (z : C) : z ≠ C0 → re z * re z + im z * im z ≠ 0.
Proof.
  destruct z as [a b]. simpl. intros Hz Hn. apply Hz. unfold C0.
  assert (a = 0) by nra. assert (b = 0) by nra. by subst.
Qed.

Lemma Cmul_Cinv (z : C) : z ≠ C0 → Cmul (Cinv z) z = C1.
Proof.
  intros Hz. pose proof (C_nonzero_norm z Hz) as Hn.
  destruct z as [a b]. unfold Cmul, Cinv, C1. simpl in *. f_equal; by field.
Qed.

Lemma Cabs_nonneg (z : C) : 0 <= Cabs z.
Proof. apply sqrt_pos. Qed.

Lemma Cabs_div_real (z : C) (m : R) :
  0 < m → Cabs (mkC (re z / m) (im z / m)) = Cabs z / m.
Proof.
  intros Hm. unfold Cabs. simpl.
  replace (re z / m * (re z / m) + im z / m * (im z / m))
    with ((re z * re z + im z * im z) / (m * m)) by (field; lra).
  rewrite sqrt_div_alt by nra. rewrite sqrt_square by lra. done.
Qed.

End CxFacts.
Import CxFacts.

(** ** Arrays of a known shape *)

Module ShapeFacts.

Lemma rect_row {X} `{Inhabited X} rows cols (m : list (list X)) i :
  rect rows cols m → i < rows → m !! i = Some (m !!! i) ∧ length (m !!! i) = cols.
Proof.
  intros [Hlen Hrows] Hi.
  assert (Hrow : m !! i = Some (m !!! i)) by (apply list_lookup_lookup_total_lt; lia).
  split; [done|]. rewrite Forall_lookup in Hrows. by eapply Hrows.
Qed.

Lemma getitem2_rect {X} `{Inhabited X} rows cols (m : list (list X)) i j :
  rect rows cols m → i < rows → j < cols → getitem2 m i j = Ok (item2 m i j).
Proof.
  intros Hm Hi Hj. destruct (rect_row rows cols m i Hm Hi) as [Hrow Hlen].
  unfold getitem2, item2. rewrite (getitem_Some _ _ _ Hrow). py_step.
  apply getitem_total. lia.
Qed.

Lemma getitem3_rect {X} `{Inhabited X} rows cols (t : list (list (list X))) f i j :
  rect3 rows cols t → f < length t → i < rows → j < cols →
  mGrangerdDTF.getitem3 t f i j = Ok (item3 t f i j).
Proof.
  intros Ht Hf Hi Hj. unfold mGrangerdDTF.getitem3, item3.
  rewrite getitem_total by done. py_step.
  apply (getitem2_rect rows cols); [|done|done].
  unfold rect3 in Ht. rewrite Forall_lookup in Ht. apply (Ht f).
  by apply list_lookup_lookup_total_lt.
Qed.

Lemma broadcast_same_length {X Y Z} (f : X → Y → py Z) (g : X → Y → Z) a b :
  length a = length b →
  (∀ i x y, a !! i = Some x → b !! i = Some y → f x y = Ok (g x y)) →
  broadcast f a b = Ok (zip_with g a b).
Proof.
  intros Hlen Hf. unfold broadcast. rewrite decide_True by done.
  clear Hlen. revert b Hf. induction a as [|x a IH]; intros [|y b] Hf; simpl; try done.
  rewrite (Hf 0%nat x y) by done. py_step.
  rewrite IH; [done|]. intros i x' y' Hx Hy. by apply (Hf (S i)).
Qed.

Lemma stretch_same {X} n (l : list X) : length l = n → stretch n l = Ok l.
Proof. intros Hl. unfold stretch. by rewrite decide_True. Qed.

Lemma assign2_rect {X} rows cols (m : list (list X)) :
  rect rows cols m → assign2 rows cols m = Ok m.
Proof.
  intros [Hlen Hrows]. unfold assign2. rewrite stretch_same by done. py_step.
  rewrite (forM_Ok (stretch cols) (λ row, row)).
  - by rewrite list_fmap_id.
  - intros row Hrow. rewrite Forall_forall in Hrows. apply stretch_same. by apply Hrows.
Qed.

Lemma rect_map {A B} (g : A → B) rows cols (m : list (list A)) :
  rect rows cols m → rect rows cols (map (map g) m).
Proof.
  intros [Hlen Hrows]. split; [by rewrite length_map|].
  apply Forall_fmap. eapply Forall_impl; [done|]. intros row Hrow. simpl.
  by rewrite length_map.
Qed.

Lemma item2_map {A B} `{Inhabited A, Inhabited B} (g : A → B) rows cols
    (m : list (list A)) i j :
  rect rows cols m → (i < rows)%nat → (j < cols)%nat →
  item2 (map (map g) m) i j = g (item2 m i j).
Proof.
  intros Hm Hi Hj. destruct (rect_row rows cols m i Hm Hi) as [Hrow Hlen].
  unfold item2. rewrite (list_lookup_total_correct (map (map g) m) i (map g (m !!! i))).
  - apply list_lookup_total_correct. rewrite list_lookup_fmap.
    rewrite list_lookup_lookup_total_lt by lia. done.
  - by rewrite list_lookup_fmap, Hrow.
Qed.

Lemma cell_item2 {A} `{Inhabited A} rows cols (m : list (list A)) i j :
  rect rows cols m → (i < rows)%nat → (j < cols)%nat → cell m i j = Some (item2 m i j).
Proof.
  intros Hm Hi Hj. destruct (rect_row rows cols m i Hm Hi) as [Hrow Hlen].
  unfold cell, item2. rewrite Hrow. simpl. apply list_lookup_lookup_total_lt. lia.
Qed.

(** A table filled by two nested loops over [range(n)]. *)
Lemma rect_table {A} (g : nat → nat → A) n :
  rect n n (map (λ i, map (λ j, g i j) (seq 0 n)) (seq 0 n)).
Proof.
  split; [by rewrite length_map, length_seq|].
  apply Forall_fmap, Forall_forall. intros i _. simpl.
  by rewrite length_map, length_seq.
Qed.

Lemma item2_table {A} `{Inhabited A} (g : nat → nat → A) n i j :
  (i < n)%nat → (j < n)%nat →
  item2 (map (λ i, map (λ j, g i j) (seq 0 n)) (seq 0 n)) i j = g i j.
Proof.
  intros Hi Hj. unfold item2.
  rewrite (list_lookup_total_correct _ i (map (λ j, g i j) (seq 0 n))).
  - apply list_lookup_total_correct. rewrite list_lookup_fmap, lookup_seq_lt by done.
    done.
  - rewrite list_lookup_fmap, lookup_seq_lt by done. done.
Qed.

Lemma ncols_rect {X} rows cols (m : list (list X)) :
  rect rows cols m → (0 < rows)%nat → ncols m = cols.
Proof.
  intros [Hlen Hrows] Hpos. unfold ncols. destruct m as [|row m]; simpl in *; [lia|].
  by apply Forall_cons in Hrows as [? _].
Qed.

Lemma rect_self {X} rows cols (m : list (list X)) :
  rect rows cols m → rect (length m) (ncols m) m.
Proof.
  intros Hm. destruct (decide (rows = 0)%nat) as [->|Hpos].
  - destruct Hm as [Hlen _]. apply nil_length_inv in Hlen as ->. by split.
  - rewrite (ncols_rect rows cols) by (done || lia). destruct Hm as [_ Hrows]. by split.
Qed.

Lemma rect_zip_with {X Y Z} (g : X → Y → Z) rows cols
    (a : list (list X)) (b : list (list Y)) :
  rect rows cols a → rect rows cols b → rect rows cols (zip_with (zip_with g) a b).
Proof.
  intros [Hla Hra] [Hlb Hrb]. split; [rewrite length_zip_with; lia|].
  apply Forall_lookup. intros i row Hrow.
  apply lookup_zip_with_Some in Hrow as (x & y & -> & Hx & Hy).
  rewrite Forall_lookup in Hra. rewrite Forall_lookup in Hrb.
  rewrite length_zip_with, (Hra _ _ Hx), (Hrb _ _ Hy). lia.
Qed.

Lemma mul2_rect rows cols (x y : cmatrix) :
  rect rows cols x → rect rows cols y →
  mGrangerdDTF.mul2 x y = Ok (zip_with (zip_with Cmul) x y).
Proof.
  intros [Hlx Hrx] [Hly Hry]. unfold mGrangerdDTF.mul2.
  apply broadcast_same_length; [lia|].
  intros i row row' Hrow Hrow'. apply broadcast_same_length; [|done].
  rewrite Forall_lookup in Hrx. rewrite Forall_lookup in Hry.
  rewrite (Hrx _ _ Hrow), (Hry _ _ Hrow'). done.
Qed.

Lemma cell_zip_with {X Y Z} `{Inhabited X, Inhabited Y} (g : X → Y → Z) rows cols
    (a : list (list X)) (b : list (list Y)) i j :
  rect rows cols a → rect rows cols b → (i < rows)%nat → (j < cols)%nat →
  cell (zip_with (zip_with g) a b) i j = Some (g (item2 a i j) (item2 b i j)).
Proof.
  intros Ha Hb Hi Hj.
  destruct (rect_row rows cols a i Ha Hi) as [Harow Halen].
  destruct (rect_row rows cols b i Hb Hi) as [Hbrow Hblen].
  unfold cell, item2. rewrite lookup_zip_with, Harow, Hbrow. simpl.
  rewrite lookup_zip_with, !list_lookup_lookup_total_lt by lia. done.
Qed.

Lemma rect3_lookup {X} `{Inhabited X} rows cols (t : list (list (list X))) f :
  rect3 rows cols t → (f < length t)%nat → rect rows cols (t !!! f).
Proof.
  intros Ht Hf. unfold rect3 in Ht. rewrite Forall_lookup in Ht. apply (Ht f).
  by apply list_lookup_lookup_total_lt.
Qed.

Lemma rect_cells_eq {X} rows cols (A B : list (list X)) :
  rect rows cols A → rect rows cols B →
  (∀ i j, (i < rows)%nat → (j < cols)%nat → cell A i j = cell B i j) → A = B.
Proof.
  intros [HlA HrA] [HlB HrB] Hcells. apply list_eq. intros i.
  destruct (decide (i < rows)%nat) as [Hi|Hi].
  - destruct (lookup_lt_is_Some_2 A i) as [ra Hra]; [lia|].
    destruct (lookup_lt_is_Some_2 B i) as [rb Hrb]; [lia|].
    rewrite Hra, Hrb. f_equal. apply list_eq. intros j.
    rewrite Forall_lookup in HrA. rewrite Forall_lookup in HrB.
    destruct (decide (j < cols)%nat) as [Hj|Hj].
    + specialize (Hcells i j Hi Hj). unfold cell in Hcells.
      by rewrite Hra, Hrb in Hcells.
    + rewrite !lookup_ge_None_2; [done| |].
      * rewrite (HrB _ _ Hrb). lia.
      * rewrite (HrA _ _ Hra). lia.
  - rewrite !lookup_ge_None_2; [done|lia|lia].
Qed.

Lemma flat_map3 {X Y} (g : X → Y) (t : list (list (list X))) :
  flat (map3 g t) = g <$> flat t.
Proof.
  unfold flat, map3. induction t as [|m t IH]; simpl; [done|].
  rewrite !concat_app, fmap_app, IH. f_equal.
  clear. induction m as [|row m IH]; simpl; [done|]. by rewrite fmap_app, IH.
Qed.

Lemma cell_map {A B} (g : A → B) (m : list (list A)) i j :
  cell (map (map g) m) i j = g <$> cell m i j.
Proof.
  unfold cell. rewrite list_lookup_fmap. destruct (m !! i) as [row|]; simpl; [|done].
  by rewrite list_lookup_fmap.
Qed.

Lemma cell_replicate {X} rows cols (z : X) i j :
  (i < rows)%nat → (j < cols)%nat → cell (replicate rows (replicate cols z)) i j = Some z.
Proof.
  intros Hi Hj. unfold cell. rewrite lookup_replicate_2 by done. simpl.
  by apply lookup_replicate_2.
Qed.

End ShapeFacts.
Import ShapeFacts.

(** ** compute_A_n *)

Module VARFacts.
Import mGrangerdDTF.

Local Open Scope R_scope.

(** C2, as the code has it: of the fitted coefficient array of shape
    [(p, C, C)] the fitter returns the first matrix only, a [C x C] array;
    the matrices of the lags [2..p] are dropped and reach no later stage:
    the whole sequence runs as it does on a fit that has the first lag
    only. *)
Theorem compute_A_n_first_lag_only (VAR_fit : matrix → nat → py tensor)
    (data : matrix) (order C : nat) (coefs : tensor) :
  VAR_fit data order = Ok coefs →
  length coefs = order → (1 ≤ order)%nat → rect3 C C coefs →
  ∃ first, coefs !! 0%nat = Some first
    ∧ compute_A_n VAR_fit data order = Ok first
    ∧ shape (Arr2 first) = [C; C]
    ∧ ∀ num_frequencies lower_frequency_limit upper_frequency_limit,
        execute_sequence VAR_fit data order num_frequencies
          lower_frequency_limit upper_frequency_limit
        = execute_sequence (λ _ _, Ok [first]) data order num_frequencies
            lower_frequency_limit upper_frequency_limit.
Proof.
  intros Hfit Hlen Hp Hshape.
  destruct coefs as [|first rest]; simpl in Hlen; [lia|].
  exists first. split; [done|].
  assert (Hrun : compute_A_n VAR_fit data order = Ok first).
  { unfold compute_A_n. by rewrite Hfit. }
  split; [done|]. split.
  - apply Forall_cons in Hshape as [Hfirst _]. simpl.
    pose proof (rect_self _ _ _ Hfirst) as [_ Hcols].
    destruct Hfirst as [Hrows Hall]. rewrite Hrows. f_equal.
    destruct first as [|row first]; simpl in *; [by subst C|].
    f_equal. by apply Forall_cons in Hall as [? _].
  - intros nf lo hi. unfold execute_sequence. rewrite Hrun. done.
Qed.

(** The sample series follows the two-lag model without residual, so the
    least-squares fit of order 2 on it is [Samples.two_lags]. *)
Example two_lag_series_follows_the_model (t : nat) :
  (2 ≤ t < 10)%nat →
  Samples.two_lag_series !!! t
  = zip_with Rplus
      (mat_vec Samples.first_lag (Samples.two_lag_series !!! (t - 1)%nat))
      (mat_vec Samples.second_lag (Samples.two_lag_series !!! (t - 2)%nat)).
Proof.
  intros Ht.
  assert (Hcases : (t = 2 ∨ t = 3 ∨ t = 4 ∨ t = 5 ∨ t = 6 ∨ t = 7 ∨ t = 8 ∨ t = 9)%nat)
    by lia.
  repeat (destruct Hcases as [->|Hcases]); [..|subst t].
  all: unfold mat_vec, dot; simpl; repeat (apply (f_equal2 cons); [lra|]); reflexivity.
Qed.

Lemma compute_A_n_first_lag_only_witness :
  ∃ first, Samples.two_lags !! 0%nat = Some first
    ∧ compute_A_n Samples.two_lag_fit Samples.two_lag_series 2 = Ok first
    ∧ shape (Arr2 first) = [2; 2]%nat
    ∧ ∀ num_frequencies lower_frequency_limit upper_frequency_limit,
        execute_sequence Samples.two_lag_fit Samples.two_lag_series 2 num_frequencies
          lower_frequency_limit upper_frequency_limit
        = execute_sequence (λ _ _, Ok [first]) Samples.two_lag_series 2 num_frequencies
            lower_frequency_limit upper_frequency_limit.
Proof.
  apply (compute_A_n_first_lag_only Samples.two_lag_fit Samples.two_lag_series 2 2
           Samples.two_lags); first [reflexivity | lia | repeat constructor].
Defined.

(** C2 as stated fails: on a fit of order 2 of a two-channel series the
    fitter returns a 2-D array of shape [(2, 2)], the matrix of the first
    lag, not the fitted array of shape [(2, 2, 2)]; the matrix of the second
    lag is another one and is not part of what it returns. *)
Lemma compute_A_n_drops_later_lags :
  compute_A_n Samples.two_lag_fit Samples.two_lag_series 2 = Ok Samples.first_lag
  ∧ shape (Arr2 Samples.first_lag) = [2; 2]%nat
  ∧ shape (Arr3 Samples.two_lags) = [2; 2; 2]%nat
  ∧ Arr2 Samples.first_lag ≠ Arr3 Samples.two_lags
  ∧ Samples.two_lags !! 1%nat = Some Samples.second_lag
  ∧ Samples.second_lag ≠ Samples.first_lag.
Proof.
  split_and!; [reflexivity..|discriminate|reflexivity|].
  unfold Samples.second_lag, Samples.first_lag. intros [= H0 H1]. lra.
Qed.

End VARFacts.

(** ** compute_E *)

Module ComputeEFacts.
Import mGrangerdDTF.

Local Open Scope R_scope.

Lemma lag_step_eq coefficients observed p i errors e lag :
  errors !! (i - p)%nat = Some e →
  lag_step coefficients observed p i errors lag
  = e' ← row_fold coefficients observed i e [lag]; Ok (<[(i - p)%nat := e']> errors).
Proof.
  intros He. unfold lag_step, row_fold. rewrite (getitem_Some _ _ _ He). simpl.
  destruct (getitem coefficients (lag - 1)) as [c| |]; simpl; try done.
  destruct (getitem observed (i - lag)) as [o| |]; simpl; try done.
  destruct (np_dot c o) as [d| |]; simpl; try done.
  by destruct (isub e d).
Qed.

Lemma row_fold_cons coefficients observed i e lag lags :
  row_fold coefficients observed i e (lag :: lags)
  = e' ← row_fold coefficients observed i e [lag];
    row_fold coefficients observed i e' lags.
Proof.
  unfold row_fold. rewrite (foldM_app _ _ [lag] lags). done.
Qed.

Lemma row_fold_single coefficients observed i e lag :
  row_fold coefficients observed i e [lag]
  = c ← getitem coefficients (lag - 1);
    o ← getitem observed (i - lag);
    d ← np_dot c o;
    isub e d.
Proof.
  unfold row_fold. simpl.
  destruct (getitem coefficients (lag - 1)) as [c| |]; simpl; try done.
  destruct (getitem observed (i - lag)) as [o| |]; simpl; try done.
  destruct (np_dot c o) as [d| |]; simpl; try done.
  by destruct (isub e d).
Qed.

Lemma lag_loop coefficients observed p i errors e lags :
  errors !! (i - p)%nat = Some e →
  foldM (lag_step coefficients observed p i) errors lags
  = e' ← row_fold coefficients observed i e lags; Ok (<[(i - p)%nat := e']> errors).
Proof.
  revert errors e. induction lags as [|lag lags IH]; intros errors e He.
  - unfold row_fold. simpl. by rewrite list_insert_id.
  - rewrite foldM_cons, row_fold_cons, (lag_step_eq _ _ _ _ _ _ _ He).
    destruct (row_fold coefficients observed i e [lag]) as [e'| |]; simpl; try done.
    rewrite (IH _ e').
    + destruct (row_fold coefficients observed i e' lags); simpl; try done.
      by rewrite list_insert_insert_eq.
    + apply list_lookup_insert_eq. by eapply lookup_lt_Some.
Qed.

Lemma length_mat_vec m v : length (mat_vec m v) = length m.
Proof. unfold mat_vec. by rewrite length_map. Qed.

Lemma length_vsub u v : length v = length u → length (vsub u v) = length u.
Proof. intros Hl. unfold vsub. rewrite length_zip_with. lia. Qed.

Lemma np_dot_Mat (m : matrix) (v : vector) :
  Forall (λ row, length row = length v) m →
  np_dot (Mat m) v = Ok (Vector (mat_vec m v)).
Proof.
  intros Hm. unfold np_dot, mat_vec.
  rewrite (forM_Ok _ (λ row, dot row v)); [done|].
  intros row Hrow. rewrite Forall_forall in Hm.
  rewrite decide_True; [done|]. by apply Hm.
Qed.

Lemma index0_Arr3 (t : tensor) :
  forM (index0 (Arr3 t)) (seq 0 (length t)) = Ok (Mat <$> t).
Proof.
  assert (Hgen : ∀ (pre : tensor),
    forM (index0 (Arr3 (pre ++ t))) (seq (length pre) (length t)) = Ok (Mat <$> t)).
  { induction t as [|m t IH]; intros pre; simpl; [done|].
    unfold getitem. rewrite lookup_app_r by lia. rewrite Nat.sub_diag. simpl.
    specialize (IH (pre ++ [m])). rewrite <- app_assoc in IH. simpl in IH.
    rewrite length_app in IH. simpl in IH. rewrite Nat.add_1_r in IH.
    by rewrite IH. }
  apply (Hgen []).
Qed.

Section WellShaped.

Variables (C : nat) (t : tensor) (observed : matrix).
Hypothesis Hobs : Forall (λ row, length row = C) observed.
Hypothesis Ht : Forall (λ M, length M = C ∧ Forall (λ row, length row = C) M) t.

Lemma observed_row_length i : (i < length observed)%nat → length (observed !!! i) = C.
Proof.
  intros Hi. rewrite Forall_lookup in Hobs. apply (Hobs i).
  by apply list_lookup_lookup_total_lt.
Qed.

Lemma coefficient_shape k :
  (k < length t)%nat →
  length (t !!! k) = C ∧ Forall (λ row, length row = C) (t !!! k).
Proof.
  intros Hk. rewrite Forall_lookup in Ht. apply (Ht k).
  by apply list_lookup_lookup_total_lt.
Qed.

Lemma row_fold_residual i e lags :
  length e = C →
  Forall (λ lag, 1 ≤ lag ≤ length t ∧ lag ≤ i)%nat lags →
  (i < length observed)%nat →
  row_fold (Mat <$> t) observed i e lags
  = Ok (foldl (λ e lag, vsub e (mat_vec (t !!! (lag - 1)%nat) (observed !!! (i - lag)%nat)))
              e lags).
Proof.
  intros He Hlags Hi. revert e He.
  induction Hlags as [|lag lags [Hlag Hle] _ IH]; intros e He; simpl; [done|].
  rewrite row_fold_cons, row_fold_single.
  destruct (coefficient_shape (lag - 1)) as [HM Hrows]; [lia|].
  assert (Ho : length (observed !!! (i - lag)%nat) = C)
    by (apply observed_row_length; lia).
  rewrite (getitem_Some _ _ (Mat (t !!! (lag - 1)%nat))); py_step.
  2:{ rewrite list_lookup_fmap, list_lookup_lookup_total_lt by lia. done. }
  rewrite getitem_total by lia. py_step.
  rewrite np_dot_Mat by (by rewrite Ho). py_step.
  unfold isub. rewrite decide_True by (rewrite length_mat_vec; lia).
  py_step. apply IH. rewrite length_vsub; [done|]. rewrite length_mat_vec. lia.
Qed.

Lemma row_loop (errors : matrix) a :
  (length t + a < length observed)%nat →
  (a < length errors)%nat →
  row_step (Mat <$> t) observed (length t) errors (length t + a)
  = Ok (<[a := residual t observed (length t + a)]> errors).
Proof.
  intros Hobs_i Herr. unfold row_step.
  rewrite getitem_total by lia. py_step.
  replace (length t + a - length t)%nat with a by lia.
  rewrite getitem_total by lia. py_step.
  pose proof (lag_loop (Mat <$> t) observed (length t) (length t + a)
                (<[a := observed !!! (length t + a)%nat]> errors)
                (observed !!! (length t + a)%nat) (seq 1 (length t))) as Hloop.
  replace (length t + a - length t)%nat with a in Hloop by lia.
  rewrite Hloop by (by apply list_lookup_insert_eq).
  rewrite row_fold_residual.
  - py_step. by rewrite list_insert_insert_eq.
  - apply observed_row_length. lia.
  - apply Forall_forall. intros lag Hlag. apply elem_of_seq in Hlag. lia.
  - lia.
Qed.

Lemma rows_loop n : ∀ a (errors : matrix),
  (0 < n → length t + a + n ≤ length observed)%nat →
  (a + n ≤ length errors)%nat →
  ∃ errors', foldM (row_step (Mat <$> t) observed (length t)) errors
                   (seq (length t + a) n) = Ok errors'
    ∧ length errors' = length errors
    ∧ (∀ k, a ≤ k < a + n → errors' !! k = Some (residual t observed (length t + k)))%nat
    ∧ (∀ k, ¬ (a ≤ k < a + n)%nat → errors' !! k = errors !! k).
Proof.
  induction n as [|n IH]; intros a errors Hobs_n Herr; cbn [seq].
  - exists errors. split_and!; [done | done | intros k; lia | done].
  - rewrite foldM_cons, row_loop by lia. py_step.
    destruct (IH (S a) (<[a := residual t observed (length t + a)]> errors))
      as (errors' & Hrun & Hlen & Hnew & Hold).
    { intros _. lia. }
    { rewrite length_insert. lia. }
    replace (length t + S a)%nat with (S (length t + a)) in Hrun by lia.
    exists errors'. split; [done|]. rewrite length_insert in Hlen.
    repeat split; [done| |].
    + intros k Hk. destruct (decide (k = a)) as [->|Hne].
      * rewrite Hold by lia. apply list_lookup_insert_eq. lia.
      * apply Hnew. lia.
    + intros k Hk. rewrite Hold by lia. apply list_lookup_insert_ne. lia.
Qed.

End WellShaped.

Lemma zeros_like_lookup (m : matrix) k row :
  m !! k = Some row → zeros_like m !! k = Some (replicate (length row) 0).
Proof.
  intros Hk. unfold zeros_like. rewrite list_lookup_fmap, Hk. simpl. f_equal.
  clear. induction row as [|x row IH]; simpl; [done|]. by rewrite IH.
Qed.

Lemma length_zeros_like (m : matrix) : length (zeros_like m) = length m.
Proof. unfold zeros_like. by rewrite length_map. Qed.

Lemma foldl_ext_in {A B} (f g : A → B → A) (l : list B) (a : A) :
  (∀ a x, x ∈ l → f a x = g a x) → foldl f a l = foldl g a l.
Proof.
  revert a. induction l as [|x l IH]; intros a Hfg; simpl; [done|].
  rewrite Hfg by left. apply IH. intros a' y Hy. apply Hfg. by right.
Qed.

(** A row of the lagged data is a later sample of the series: the residual
    at row [i] of the data without its first [p] rows is the residual at
    the sample [p + i]. *)
Lemma residual_of_sample (t : tensor) (data : matrix) (p i : nat) :
  (length t ≤ i)%nat →
  residual t (drop p data) i = residual t data (p + i).
Proof.
  intros Hi. unfold residual. rewrite lookup_total_drop.
  apply foldl_ext_in. intros e lag Hlag. apply elem_of_seq in Hlag.
  rewrite lookup_total_drop. do 3 f_equal. lia.
Qed.

(** C9, as the code has it: on a series of [T] rows and a coefficient
    tensor of [p] lags, [compute_E] returns [T - p] rows; the last [p] of
    them are still the zeros they were initialised to, and only the rows up
    to index [T - 2p - 1] hold residuals of the model.  Row [k] holds the
    residual of row [p + k] of the lagged data, which is the sample
    [2p + k] of the series: the last row that is written, [T - 2p - 1], holds
    the residual of the final sample, and the residuals that are never
    computed are those of the first [p] rows of the lagged data. *)
Theorem compute_E_last_rows_zero (C : nat) (data : matrix) (t : tensor) :
  Forall (λ row, length row = C) data →
  Forall (λ M, length M = C ∧ Forall (λ row, length row = C) M) t →
  ∃ errors, compute_E data (Arr3 t) = Ok errors
    ∧ length errors = (length data - length t)%nat
    ∧ (∀ k, (length data - 2 * length t ≤ k < length data - length t)%nat →
            errors !! k = Some (replicate C 0))
    ∧ (∀ k, (k < length data - 2 * length t)%nat →
            errors !! k = Some (residual t (drop (length t) data) (length t + k)))
    ∧ (∀ k, (k < length data - 2 * length t)%nat →
            errors !! k = Some (residual t data (2 * length t + k))).
Proof.
  intros Hdata Ht. unfold compute_E. simpl shape0.
  rewrite index0_Arr3. simpl.
  set (observed := drop (length t) data).
  assert (Hobs : Forall (λ row, length row = C) observed) by by apply Forall_drop.
  assert (Hlen : length observed = (length data - length t)%nat)
    by apply length_drop.
  destruct (rows_loop C t observed Hobs Ht (length observed - length t) 0
              (zeros_like observed)) as (errors & Hrun & Hl & Hnew & Hold).
  { lia. }
  { rewrite length_zeros_like. lia. }
  rewrite Nat.add_0_r in Hrun. exists errors. split; [done|].
  rewrite length_zeros_like in Hl. split; [lia|]. split_and!.
  - intros k Hk. rewrite Hold by lia.
    destruct (lookup_lt_is_Some_2 observed k) as [row Hrow]; [lia|].
    rewrite (zeros_like_lookup _ _ _ Hrow). do 2 f_equal.
    rewrite Forall_lookup in Hobs. by eapply Hobs.
  - intros k Hk. apply Hnew. lia.
  - intros k Hk. rewrite Hnew by lia. f_equal. unfold observed.
    rewrite residual_of_sample by lia. f_equal. lia.
Qed.

(** Equality of two arrays of reals, entry by entry. *)
Ltac vector_eq := repeat (apply (f_equal2 cons); [lra|]); reflexivity.
Ltac matrix_eq := repeat (apply (f_equal2 cons); [vector_eq|]); reflexivity.

(** On the ramp and the coefficient 2: of the four rows the first three
    hold [x(t) - 2 x(t-1)] for the samples 3, 4, 5, the last one is zero. *)
Example compute_E_ramp :
  compute_E Samples.ramp (Arr3 Samples.one_lag) = Ok [[-1]; [-2]; [-3]; [0]].
Proof.
  unfold compute_E, Samples.ramp, Samples.one_lag. simpl.
  unfold row_step, lag_step. simpl. unfold dot. simpl.
  f_equal. matrix_eq.
Qed.

(** The pipeline hands [compute_E] the 2-D array that [compute_A_n]
    returns: the lag order is then read off its number of rows, and each of
    its rows is used as the coefficient of a lag. *)
Example compute_E_two_channels :
  compute_E [[1; 0]; [0; 1]; [1; 1]; [2; 3]; [5; 8]] (Arr2 [[1; 0]; [0; 1]])
  = Ok [[2; 5]; [0; 0]; [0; 0]].
Proof.
  unfold compute_E. simpl. unfold row_step, lag_step. simpl. unfold dot. simpl.
  f_equal. matrix_eq.
Qed.

Lemma compute_E_last_rows_zero_witness :
  ∃ errors,
    compute_E Samples.two_channel_series (Arr3 Samples.two_channel_lag) = Ok errors
    ∧ length errors
      = (length Samples.two_channel_series - length Samples.two_channel_lag)%nat
    ∧ (∀ k, (length Samples.two_channel_series - 2 * length Samples.two_channel_lag ≤ k
             < length Samples.two_channel_series - length Samples.two_channel_lag)%nat →
            errors !! k = Some (replicate 2 0))
    ∧ (∀ k, (k < length Samples.two_channel_series
                 - 2 * length Samples.two_channel_lag)%nat →
            errors !! k
            = Some (residual Samples.two_channel_lag
                      (drop (length Samples.two_channel_lag) Samples.two_channel_series)
                      (length Samples.two_channel_lag + k)))
    ∧ (∀ k, (k < length Samples.two_channel_series
                 - 2 * length Samples.two_channel_lag)%nat →
            errors !! k
            = Some (residual Samples.two_channel_lag Samples.two_channel_series
                      (2 * length Samples.two_channel_lag + k))).
Proof.
  apply (compute_E_last_rows_zero 2 Samples.two_channel_series Samples.two_channel_lag);
    repeat constructor.
Defined.

(** C9 as stated fails: the residual of the final time point is computed.
    On five samples of two channels and one lag, [T = 5] and [p = 1], the
    row [T - 2p - 1 = 2] of the result holds [X(4) - A(1) X(3)], the residual
    of the final sample; the residual that is never computed is that of
    the sample 1, the first row of the lagged data; the last row is zero. *)
Lemma compute_E_final_residual_is_computed :
  compute_E Samples.two_channel_series (Arr3 Samples.two_channel_lag)
  = Ok [[1; 0]; [1; 2]; [3; 5]; [0; 0]]
  ∧ residual Samples.two_channel_lag Samples.two_channel_series 4 = [3; 5]
  ∧ residual Samples.two_channel_lag Samples.two_channel_series 1 = [-1; 1]
  ∧ [-1; 1] ∉ [[1; 0]; [1; 2]; [3; 5]; [0; 0]].
Proof.
  split_and!.
  - unfold compute_E. simpl. unfold row_step, lag_step. simpl. unfold dot. simpl.
    f_equal. matrix_eq.
  - unfold residual, mat_vec, dot. simpl. vector_eq.
  - unfold residual, mat_vec, dot. simpl. vector_eq.
  - intros Hin. repeat (apply elem_of_cons in Hin as [Hin|Hin]);
      try (injection Hin; intros; lra). by apply elem_of_nil in Hin.
Qed.

End ComputeEFacts.

(** ** compute_A_f and compute_H_f *)

Module FrequencyFacts.
Import mGrangerdDTF.

Local Open Scope R_scope.

Lemma rect_exp_term n f : rect n n (exp_term n f).
Proof. apply rect_table. Qed.

Lemma fft2_square n (A_n : matrix) :
  rect n n A_n → (0 < n)%nat → ∃ A_fft, fft2 A_n = Ok A_fft ∧ rect n n A_fft.
Proof.
  intros HA Hn. unfold fft2.
  rewrite (ncols_rect n n) by done. destruct HA as [Hlen _]. rewrite Hlen.
  rewrite decide_False by lia. eexists. split; [done|].
  apply (rect_table (λ k l, csum (imap (λ m row, csum (imap (λ n0 a_mn,
           Cmul (RtoC a_mn)
             (cis (- (2 * PI * (INR m * INR k / INR n + INR n0 * INR l / INR n)))))
           row)) A_n))).
Qed.

Lemma eye_indexed_square n :
  eye_indexed n n = Ok (map (λ i, map (λ j, eye i j) (seq 0 n)) (seq 0 n)).
Proof. unfold eye_indexed. by rewrite decide_True. Qed.

(** One turn of the loop over the frequencies, on a square array. *)
Lemma A_f_slice_square n (A_fft : cmatrix) f :
  rect n n A_fft →
  A_f_slice n n A_fft f
  = Ok (zip_with (zip_with Csub)
          (zip_with (zip_with Cmul) A_fft (exp_term n f))
          (map (λ i, map (λ j, eye i j) (seq 0 n)) (seq 0 n))).
Proof.
  intros HF. unfold A_f_slice.
  rewrite (mul2_rect n n) by (done || apply rect_exp_term). py_step.
  rewrite eye_indexed_square. py_step.
  assert (Hprod : rect n n (zip_with (zip_with Cmul) A_fft (exp_term n f))).
  { apply rect_zip_with; [done|apply rect_exp_term]. }
  assert (Heye : rect n n (map (λ i, map (λ j, eye i j) (seq 0 n)) (seq 0 n)))
    by apply rect_table.
  unfold isub2. rewrite assign2_rect.
  2:{ destruct (decide (n = 0)%nat) as [->|Hn].
      - destruct Hprod as [Hl _]. apply nil_length_inv in Hl. rewrite Hl. by split.
      - rewrite (ncols_rect n n) by (done || lia). destruct Hprod as [-> _]. done. }
  py_step. apply assign2_rect. by apply rect_zip_with.
Qed.

Lemma linalg_inv_nonsingular n (m : cmatrix) :
  rect n n m → det m ≠ C0 → ∃ inv, linalg_inv m = Ok inv.
Proof.
  intros [Hlen Hrows] Hdet. unfold linalg_inv.
  rewrite decide_True by (unfold square; by rewrite Hlen).
  rewrite decide_False by done. eauto.
Qed.

(** C3, as the code has it: at every frequency [f] of the grid the slice
    [A(f)] is the transform of the coefficients at [f] minus the identity
    (not the identity minus the transform), and [H(f)] is the inverse that
    [np.linalg.inv] returns for that [A(f)], which it does whenever [A(f)]
    is not singular. *)
Theorem compute_A_f_is_transform_minus_identity (n : nat) (A_n : matrix)
    (num_frequencies : nat) (lower_frequency_limit upper_frequency_limit : R) :
  rect n n A_n → (0 < n)%nat →
  ∃ slices,
    compute_A_f A_n num_frequencies lower_frequency_limit upper_frequency_limit = Ok slices
    ∧ length slices = num_frequencies
    ∧ ∀ idx f,
        linspace lower_frequency_limit upper_frequency_limit num_frequencies !! idx = Some f →
        ∃ T A, transform A_n f = Ok T
          ∧ slices !! idx = Some A
          ∧ (∀ r c, (r < n)%nat → (c < n)%nat →
                    cell A r c = Some (Csub (item2 T r c) (eye r c)))
          ∧ (det A ≠ C0 → ∃ H_f, linalg_inv A = Ok H_f)
          ∧ ∀ H, compute_H_f slices = Ok H →
                 ∃ H_f, H !! idx = Some H_f ∧ linalg_inv A = Ok H_f.
Proof.
  intros HA Hn. destruct (fft2_square n A_n HA Hn) as (A_fft & Hfft & HF).
  pose proof HA as [Hlen _].
  unfold compute_A_f. rewrite Hfft. py_step.
  rewrite (ncols_rect n n), Hlen by done.
  rewrite (forM_Ok _ (λ f, zip_with (zip_with Csub)
             (zip_with (zip_with Cmul) A_fft (exp_term n f))
             (map (λ i, map (λ j, eye i j) (seq 0 n)) (seq 0 n)))).
  2:{ intros f _. by apply A_f_slice_square. }
  eexists. split; [done|]. split.
  { unfold linspace. destruct (decide (num_frequencies = 1)%nat) as [->|_]; [done|].
    by rewrite !length_fmap, length_seq. }
  intros idx f Hf.
  exists (zip_with (zip_with Cmul) A_fft (exp_term n f)). eexists.
  split.
  { unfold transform. rewrite Hfft. py_step. rewrite Hlen.
    apply (mul2_rect n n); [done|apply rect_exp_term]. }
  split.
  { rewrite list_lookup_fmap, Hf. done. }
  split.
  { intros r c Hr Hc.
    rewrite (cell_zip_with _ n n);
      [|apply rect_zip_with; [done|apply rect_exp_term]|apply rect_table|done|done].
    f_equal. f_equal. by apply item2_table. }
  split.
  - intros Hdet. apply (linalg_inv_nonsingular n); [|done].
    apply rect_zip_with; [|apply rect_table].
    apply rect_zip_with; [done|apply rect_exp_term].
  - intros H HH. unfold compute_H_f in HH.
    eapply forM_lookup in HH as (H_f & HHf & Hinv).
    2:{ rewrite list_lookup_fmap, Hf. done. }
    eauto.
Qed.

Lemma compute_A_f_is_transform_minus_identity_witness :
  ∃ slices,
    compute_A_f Samples.half_coefficient 10 0.01 0.1 = Ok slices
    ∧ length slices = 10%nat
    ∧ ∀ idx f,
        linspace 0.01 0.1 10 !! idx = Some f →
        ∃ T A, transform Samples.half_coefficient f = Ok T
          ∧ slices !! idx = Some A
          ∧ (∀ r c, (r < 1)%nat → (c < 1)%nat →
                    cell A r c = Some (Csub (item2 T r c) (eye r c)))
          ∧ (det A ≠ C0 → ∃ H_f, linalg_inv A = Ok H_f)
          ∧ ∀ H, compute_H_f slices = Ok H →
                 ∃ H_f, H !! idx = Some H_f ∧ linalg_inv A = Ok H_f.
Proof.
  apply (compute_A_f_is_transform_minus_identity 1 Samples.half_coefficient 10 0.01 0.1);
    first [lia | repeat constructor].
Defined.

(** C3 as stated fails: for one channel with coefficient [1/2] the
    transform at the first grid frequency is [1/2]; the code stores
    [1/2 - 1 = -1/2], the identity minus the transform would be [1/2]. *)
Lemma A_f_is_not_identity_minus_transform :
  ∃ f, linspace 0.01 0.1 1 = [f]
    ∧ compute_A_f Samples.half_coefficient 1 0.01 0.1 = Ok [[[mkC (-1 / 2) 0]]]
    ∧ transform Samples.half_coefficient f = Ok [[mkC (1 / 2) 0]]
    ∧ Csub (eye 0 0) (mkC (1 / 2) 0) = mkC (1 / 2) 0
    ∧ mkC (-1 / 2) 0 ≠ Csub (eye 0 0) (mkC (1 / 2) 0).
Proof.
  eexists. split; [reflexivity|]. split_and!.
  - unfold Samples.half_coefficient, compute_A_f, fft2. simpl.
    unfold A_f_slice, mul2, exp_term. simpl.
    do 4 f_equal. cis_zero. cx_eq.
  - unfold Samples.half_coefficient, transform, fft2. simpl.
    unfold mul2, exp_term, broadcast. simpl.
    do 3 f_equal. cis_zero. cx_eq.
  - cx_eq.
  - intros Heq. apply (f_equal re) in Heq. simpl in Heq. lra.
Qed.

End FrequencyFacts.

(** ** compute_V and compute_S_f *)

Module SpectralFacts.
Import mGrangerdDTF.

Local Open Scope R_scope.

(** One turn of the loop of [compute_S_f]. *)
Lemma S_f_slice rows cols (H H_h : ctensor) (V : list R) f :
  rect3 rows cols H → rect3 rows cols H_h →
  length H_h = length H → length V = length H → (f < length H)%nat →
  (h ← getitem H f;
   v ← getitem V f;
   hh ← getitem H_h f;
   s ← mul2 (map (map (Cscale v)) h) hh;
   assign2 (length h) (ncols h) s)
  = Ok (zip_with (zip_with Cmul) (map (map (Cscale (V !!! f))) (H !!! f)) (H_h !!! f)).
Proof.
  intros HH HHh Hlh Hlv Hf.
  assert (Hh : rect rows cols (H !!! f)).
  { unfold rect3 in HH. rewrite Forall_lookup in HH. apply (HH f).
    by apply list_lookup_lookup_total_lt. }
  assert (Hhh : rect rows cols (H_h !!! f)).
  { unfold rect3 in HHh. rewrite Forall_lookup in HHh. apply (HHh f).
    apply list_lookup_lookup_total_lt. lia. }
  rewrite !getitem_total by lia. py_step.
  rewrite (mul2_rect rows cols) by (done || by apply rect_map). py_step.
  apply assign2_rect.
  assert (Hs : rect rows cols (zip_with (zip_with Cmul)
                 (map (map (Cscale (V !!! f))) (H !!! f)) (H_h !!! f))).
  { apply rect_zip_with; [by apply rect_map|done]. }
  destruct (decide (rows = 0)%nat) as [Hz|Hpos].
  - destruct Hh as [Hlen _]. rewrite Hz in Hlen.
    apply nil_length_inv in Hlen. rewrite Hlen. by split.
  - rewrite (ncols_rect rows cols) by (done || lia).
    destruct Hh as [Hlen _]. by rewrite Hlen.
Qed.

(** What [compute_S_f] returns on arrays of matching shapes. *)
Lemma compute_S_f_slices rows cols (H H_h : ctensor) (V : list R) :
  rect3 rows cols H → rect3 rows cols H_h →
  length H_h = length H → length V = length H →
  compute_S_f H H_h V
  = Ok ((λ f, zip_with (zip_with Cmul) (map (map (Cscale (V !!! f))) (H !!! f))
                       (H_h !!! f)) <$> seq 0 (length H)).
Proof.
  intros HH HHh Hlh Hlv. unfold compute_S_f. apply forM_Ok.
  intros k Hk. apply elem_of_seq in Hk. apply (S_f_slice rows cols); (done || lia).
Qed.

(** A slice scaled by a zero variance is zero in every cell. *)
Lemma zero_slice rows cols (h hh : cmatrix) :
  rect rows cols h → rect rows cols hh →
  rect rows cols (zip_with (zip_with Cmul) (map (map (Cscale 0)) h) hh)
  ∧ ∀ i j, (i < rows)%nat → (j < cols)%nat →
      cell (zip_with (zip_with Cmul) (map (map (Cscale 0)) h) hh) i j = Some C0.
Proof.
  intros Hh Hhh. split.
  - apply rect_zip_with; [by apply rect_map|done].
  - intros i j Hi Hj.
    rewrite (cell_zip_with _ rows cols) by (done || by apply rect_map).
    rewrite (item2_map _ rows cols) by done.
    f_equal. unfold Cmul, Cscale, C0. simpl. f_equal; ring.
Qed.

(** C7, as the code has it: where the pooled residual variance [V(f)] is
    zero, [compute_S_f] raises nothing and returns the all-zero matrix, of
    the shape of [H(f)], as the cross-spectral density [S(f)]. *)
Theorem zero_variance_gives_zero_spectrum (rows cols : nat)
    (errors_f H H_h : ctensor) (V : list R) (f : nat) :
  compute_V errors_f = Ok V →
  rect3 rows cols H → rect3 rows cols H_h →
  length H_h = length H → length errors_f = length H →
  (f < length H)%nat → V !! f = Some 0 →
  ∃ S_f S, compute_S_f H H_h V = Ok S_f
    ∧ S_f !! f = Some S
    ∧ rect rows cols S
    ∧ ∀ i j, (i < rows)%nat → (j < cols)%nat → cell S i j = Some C0.
Proof.
  intros HV HH HHh Hlh Hle Hf Hzero.
  assert (Hlv : length V = length H).
  { unfold compute_V in HV. apply forM_length in HV. lia. }
  rewrite (compute_S_f_slices rows cols) by done.
  eexists _, _. split; [done|]. split.
  { rewrite list_lookup_fmap, lookup_seq_lt by done. done. }
  rewrite (list_lookup_total_correct V f 0) by done.
  apply zero_slice; apply rect3_lookup; (done || lia).
Qed.

Lemma compute_V_zero_residuals : compute_V Samples.zero_residuals_f = Ok [0].
Proof.
  unfold compute_V, Samples.zero_residuals_f, np_var. simpl.
  do 2 f_equal. unfold Rdiv. lra.
Qed.

Lemma zero_variance_gives_zero_spectrum_witness :
  ∃ S_f S, compute_S_f Samples.unit_transfer Samples.unit_transfer [0] = Ok S_f
    ∧ S_f !! 0%nat = Some S
    ∧ rect 2 2 S
    ∧ ∀ i j, (i < 2)%nat → (j < 2)%nat → cell S i j = Some C0.
Proof.
  apply (zero_variance_gives_zero_spectrum 2 2 Samples.zero_residuals_f
           Samples.unit_transfer Samples.unit_transfer [0] 0);
    first [exact compute_V_zero_residuals | repeat constructor].
Defined.

(** C7 as stated fails: on all-zero residuals the variance of the slice is
    0, and [compute_S_f] returns the zero matrix instead of raising. *)
Lemma zero_variance_raises_nothing :
  compute_V Samples.zero_residuals_f = Ok [0]
  ∧ compute_S_f Samples.unit_transfer Samples.unit_transfer [0]
    = Ok [[[C0; C0]; [C0; C0]]]
  ∧ ¬ ∃ e, compute_S_f Samples.unit_transfer Samples.unit_transfer [0] = Raise e.
Proof.
  assert (Hrun : compute_S_f Samples.unit_transfer Samples.unit_transfer [0]
                 = Ok [[[C0; C0]; [C0; C0]]]).
  { unfold compute_S_f, Samples.unit_transfer. simpl.
    unfold Cmul, Cscale, C0, C1. simpl.
    repeat (f_equal; try ring). }
  split; [exact compute_V_zero_residuals|]. split; [exact Hrun|].
  intros [e He]. rewrite Hrun in He. discriminate He.
Qed.

End SpectralFacts.

(** ** normalize_complex_arr and compute_partial_coherence *)

Module CoherenceFacts.
Import mGrangerdDTF.

Local Open Scope R_scope.

Lemma det_1x1 (z : C) : det [[z]] = z.
Proof. destruct z as [a b]. unfold det. simpl. unfold sign. simpl. cx_eq. Qed.

Lemma linalg_det_1x1 (z : C) : linalg_det [[z]] = Ok z.
Proof.
  unfold linalg_det. rewrite decide_True by (by repeat constructor).
  by rewrite det_1x1.
Qed.

Lemma linalg_inv_1x1 (z : C) : z ≠ C0 → linalg_inv [[z]] = Ok [[Cinv z]].
Proof.
  intros Hz. unfold linalg_inv. rewrite decide_True by (by repeat constructor).
  rewrite det_1x1, decide_False by done. simpl. do 3 f_equal.
  unfold cofactor, det, sign. simpl. destruct z as [a b].
  unfold Cmul, Cinv, C1. simpl. f_equal; unfold Rdiv; ring.
Qed.

(** The inverse of a 2 x 2 matrix, as a check of the adjugate. *)
Example linalg_inv_2x2 :
  linalg_inv [[RtoC 1; RtoC 2]; [RtoC 3; RtoC 4]]
  = Ok [[RtoC (-2); RtoC 1]; [RtoC (3 / 2); RtoC (-1 / 2)]].
Proof.
  assert (Hdet : det [[RtoC 1; RtoC 2]; [RtoC 3; RtoC 4]] = RtoC (-2)).
  { unfold det. simpl. unfold sign. simpl. cx_eq. }
  unfold linalg_inv. rewrite decide_True by (by repeat constructor).
  rewrite Hdet, decide_False.
  2:{ intros Heq. apply (f_equal re) in Heq. simpl in Heq. lra. }
  simpl. unfold cofactor, det, sign. simpl.
  unfold Cmul, Cadd, Cinv, RtoC, C0, C1. simpl.
  f_equal.
  repeat (apply (f_equal2 cons);
          [repeat (apply (f_equal2 cons); [f_equal; field|]); reflexivity|]).
  reflexivity.
Qed.

(** An array with a single entry is normalised to [nan]: its offset is
    zero, the maximum magnitude is zero, and the division is [0 / 0]. *)
Lemma normalize_single (t : C) : normalize_complex_arr [[[t]]] = Ok [[[None]]].
Proof.
  unfold normalize_complex_arr, flat, map3. simpl.
  assert (Hzero : Cabs (Csub (Csub t (RtoC (re t))) (mkC 0 (im t))) = 0).
  { unfold Cabs, Csub, RtoC. simpl.
    replace ((re t - re t - 0) * (re t - re t - 0)
             + (im t - 0 - im t) * (im t - 0 - im t)) with 0 by ring.
    apply sqrt_0. }
  unfold Cdiv_real. rewrite Hzero, decide_True by done. done.
Qed.

(** The partial coherence of a single channel at a single frequency: the
    raw [theta] is [1], whatever the spectral density [z <> 0], and its
    normalisation is [nan]. *)
Lemma partial_coherence_single (z : C) :
  z ≠ C0 → compute_partial_coherence [[[z]]] = Ok [[[None]]].
Proof.
  intros Hz. unfold compute_partial_coherence. cbn [forM].
  rewrite linalg_inv_1x1 by done. py_step.
  rewrite linalg_det_1x1. py_step.
  replace (transpose [[Cinv z]]) with [[Cinv z]] by reflexivity.
  cbn [map]. rewrite Cmul_Cinv by done.
  replace (axis1 [[[z]]]) with 1%nat by reflexivity.
  replace (axis2 [[[z]]]) with 1%nat by reflexivity.
  cbn [seq forM]. 
  replace (getitem2 [[C1]] 0 0) with (Ok C1) by reflexivity. py_step.
  unfold Cdiv. rewrite decide_False.
  2:{ intros Heq. apply (f_equal re) in Heq. unfold Cmul, C1, C0 in Heq.
      simpl in Heq. lra. }
  py_step. rewrite normalize_single. done.
Qed.

(** A cross-spectral density that is zero at a frequency, as
    [compute_S_f] returns it for a zero variance, is singular there: the
    inversion in [compute_partial_coherence] raises LinAlgError. *)

Lemma csum_zeros (zs : list C) : Forall (λ z, z = C0) zs → csum zs = C0.
Proof.
  induction 1 as [|z zs -> _ IH]; simpl; [done|]. rewrite IH. cx_eq.
Qed.

Lemma det_zero_first_row (row0 : list C) (rest : cmatrix) :
  Forall (λ z, z = C0) row0 → row0 ≠ [] → det (row0 :: rest) = C0.
Proof.
  intros Hzero _. unfold det. simpl. apply csum_zeros.
  apply Forall_lookup. intros j term Hterm.
  apply list_lookup_imap_Some in Hterm as (z & Hz & ->).
  rewrite Forall_lookup in Hzero. rewrite (Hzero _ _ Hz).
  destruct (det_n _ _) as [a b]. unfold sign. destruct (Nat.even j); cx_eq.
Qed.

Lemma linalg_inv_zero (rows : nat) :
  (0 < rows)%nat → linalg_inv (replicate rows (replicate rows C0)) = Raise LinAlgError.
Proof.
  intros Hrows. unfold linalg_inv.
  rewrite decide_True.
  2:{ unfold square. rewrite length_replicate. apply Forall_replicate.
      by rewrite length_replicate. }
  destruct rows as [|rows]; [lia|]. cbn [replicate].
  rewrite decide_True; [done|].
  apply det_zero_first_row; [|done]. apply Forall_cons. split; [done|].
  by apply Forall_replicate.
Qed.

Lemma forM_raises {X Y} (f : X → py Y) (xs : list X) (e : exn) (i : nat) (x : X) :
  (∀ x, x ∈ xs → (∃ y, f x = Ok y) ∨ f x = Raise e) →
  xs !! i = Some x → f x = Raise e → forM f xs = Raise e.
Proof.
  revert i. induction xs as [|x0 xs IH]; intros i Hall Hi Hx; [done|]. simpl.
  destruct i as [|i]; simpl in Hi.
  - injection Hi as ->. by rewrite Hx.
  - destruct (Hall x0) as [[y Hy]|Hy]; [by left| |by rewrite Hy].
    rewrite Hy. py_step. rewrite (IH i); [done| |done|done].
    intros x' Hx'. apply Hall. by right.
Qed.

Lemma zero_spectrum_is_singular (S_f : ctensor) (f rows : nat) :
  (0 < rows)%nat → S_f !! f = Some (replicate rows (replicate rows C0)) →
  compute_partial_coherence S_f = Raise LinAlgError.
Proof.
  intros Hrows Hf. unfold compute_partial_coherence.
  erewrite (forM_raises _ S_f LinAlgError f); [done| |exact Hf|].
  - intros m _. unfold linalg_inv, linalg_det.
    destruct (decide (square m)); [|by right].
    destruct (decide (det m = C0)); [by right|]. left. eauto.
  - by rewrite linalg_inv_zero.
Qed.

(** X10: a zero variance does stop the pipeline, one stage later and with
    numpy's own exception: where [V(f)] is zero at some frequency,
    [compute_S_f] returns, and [compute_partial_coherence] of what it
    returns raises LinAlgError. *)
Lemma zero_variance_surfaces_as_LinAlgError (rows : nat)
    (errors_f H H_h : ctensor) (V : list R) (f : nat) :
  (0 < rows)%nat →
  compute_V errors_f = Ok V →
  rect3 rows rows H → rect3 rows rows H_h →
  length H_h = length H → length errors_f = length H →
  (f < length H)%nat → V !! f = Some 0 →
  ∃ S_f, compute_S_f H H_h V = Ok S_f
    ∧ compute_partial_coherence S_f = Raise LinAlgError.
Proof.
  intros Hrows HV HH HHh Hlh Hle Hf Hzero.
  assert (Hlv : length V = length H).
  { unfold compute_V in HV. apply forM_length in HV. lia. }
  rewrite (SpectralFacts.compute_S_f_slices rows rows) by done.
  eexists. split; [done|].
  apply (zero_spectrum_is_singular _ f rows Hrows).
  rewrite list_lookup_fmap, lookup_seq_lt by done. simpl. f_equal.
  rewrite (list_lookup_total_correct V f 0) by done.
  destruct (SpectralFacts.zero_slice rows rows (H !!! f) (H_h !!! f))
    as [Hrect Hcells]; [apply rect3_lookup; (done || lia)..|].
  apply (rect_cells_eq rows rows); [done| |].
  - split; [by rewrite length_replicate|].
    apply Forall_replicate. by rewrite length_replicate.
  - intros i j Hi Hj. rewrite (Hcells i j Hi Hj).
    symmetry. by apply cell_replicate.
Qed.

(** Where the division is not by zero the claim of C6 holds: every entry
    that is not [nan] lies in [[0, 1]]. *)

Lemma np_max_upper (xs : list R) (m x : R) : np_max xs = Ok m → x ∈ xs → x <= m.
Proof.
  destruct xs as [|x0 xs]; simpl; [done|]. intros [= <-]. revert x.
  induction xs as [|x1 xs IH]; intros x Hx; simpl.
  - apply list_elem_of_singleton in Hx as ->. lra.
  - apply elem_of_cons in Hx as [->|Hx].
    + etrans; [apply (IH x0); by left|]. apply Rmax_r.
    + apply elem_of_cons in Hx as [->|Hx]; [apply Rmax_l|].
      etrans; [apply (IH x); by right|]. apply Rmax_r.
Qed.

Lemma normalize_complex_arr_bounded (a : ctensor) b (w : C) :
  normalize_complex_arr a = Ok b → Some w ∈ flat b → 0 <= Cabs w <= 1.
Proof.
  unfold normalize_complex_arr.
  destruct (np_min (map re (flat a))) as [real_min| |]; [|done|done]. py_step.
  destruct (np_min (map im (flat a))) as [imag_min| |]; [|done|done]. py_step.
  set (a_oo := map3 _ a).
  destruct (np_max (map Cabs (flat a_oo))) as [abs_max| |] eqn:Hmax; [|done|done].
  py_step. intros [= <-]. rewrite flat_map3. intros Hw.
  apply list_elem_of_fmap in Hw as (z & Hdiv & Hz).
  unfold Cdiv_real in Hdiv. destruct (decide (abs_max = 0)) as [|Hne]; [done|].
  injection Hdiv as ->.
  assert (Hle : Cabs z <= abs_max).
  { apply (np_max_upper _ _ _ Hmax). by apply list_elem_of_fmap_2. }
  pose proof (Cabs_nonneg z) as Hz0.
  assert (Hpos : 0 < abs_max) by lra.
  rewrite Cabs_div_real by done. split.
  - apply Rmult_le_pos; [done|]. left. by apply Rinv_0_lt_compat.
  - apply (Rmult_le_reg_r abs_max); [done|]. unfold Rdiv.
    rewrite Rmult_assoc, Rinv_l by lra. lra.
Qed.

(** X11: every entry of the partial coherence that is not [nan] lies in
    [[0, 1]]. *)
Lemma partial_coherence_bounded_when_finite (matrix : ctensor) theta_ij (r : R) :
  compute_partial_coherence matrix = Ok theta_ij → Some r ∈ flat theta_ij → 0 <= r <= 1.
Proof.
  unfold compute_partial_coherence.
  destruct (forM _ matrix) as [cof| |]; [|done|done]. py_step.
  destruct (forM _ cof) as [theta| |]; [|done|done]. py_step.
  destruct (normalize_complex_arr theta) as [b| |] eqn:Hnorm; [|done|done]. py_step.
  intros [= <-]. rewrite flat_map3. intros Hr.
  apply list_elem_of_fmap in Hr as ([w|] & Hw & Hin); [|done].
  injection Hw as ->. by eapply normalize_complex_arr_bounded.
Qed.

(** C6 fails on the code: for the spectral density [2] of one channel at
    one frequency the offset array is zero, the maximum magnitude is zero,
    and the only entry of the output is [0 / 0 = nan], which is not in
    [[0, 1]]. *)
Theorem partial_coherence_single_channel_is_nan :
  compute_partial_coherence Samples.one_channel_spectrum = Ok [[[None]]].
Proof.
  apply partial_coherence_single. intros Heq. apply (f_equal re) in Heq.
  simpl in Heq. lra.
Qed.

End CoherenceFacts.

(** ** compute_dDTF *)

Module dDTFFacts.
Import mGrangerdDTF.

Section Accumulation.

Context {X Y Z : Type} `{Inhabited X, Inhabited Y}.
Context (zero : Z) (add : Z → Z → Z) (mul : X → Y → Z).
Variables (rows cols : nat) (h_ij : list (list (list X))) (theta_ij : list (list (list Y))).
Hypothesis Hh : rect3 rows cols h_ij.
Hypothesis Htheta : rect3 rows cols theta_ij.
Hypothesis Hslices : length h_ij = length theta_ij.

Lemma cell_getitem2 (d : list (list Z)) i j z : cell d i j = Some z → getitem2 d i j = Ok z.
Proof.
  unfold cell, getitem2, getitem. destruct (d !! i) as [row|]; simpl; [|done].
  by intros ->.
Qed.

Lemma cell_alter_same (d : list (list Z)) i j z v :
  cell d i j = Some z → cell (alter (<[j := v]>) i d) i j = Some v.
Proof.
  unfold cell. rewrite list_lookup_alter_eq.
  destruct (d !! i) as [row|]; simpl; [|done].
  intros Hj. apply list_lookup_insert_eq. by eapply lookup_lt_Some.
Qed.

Lemma cell_alter_other (d : list (list Z)) i j i' j' v :
  i' ≠ i ∨ j' ≠ j → cell (alter (<[j := v]>) i d) i' j' = cell d i' j'.
Proof.
  unfold cell. intros Hne. destruct (decide (i' = i)) as [Heq|Hi]; [subst i'|].
  - rewrite list_lookup_alter_eq. destruct (d !! i) as [row|]; simpl; [|done].
    apply list_lookup_insert_ne. destruct Hne; congruence.
  - by rewrite list_lookup_alter_ne.
Qed.

Lemma accumulate_cell i j d acc f :
  i < rows → j < cols → f < length theta_ij → cell d i j = Some acc →
  ∃ d', accumulate add mul h_ij theta_ij i j d f = Ok d'
    ∧ cell d' i j = Some (plus_term add mul h_ij theta_ij i j acc f)
    ∧ ∀ i' j', i' ≠ i ∨ j' ≠ j → cell d' i' j' = cell d i' j'.
Proof.
  intros Hi Hj Hf Hacc. unfold accumulate.
  rewrite (cell_getitem2 _ _ _ _ Hacc). py_step.
  rewrite (getitem3_rect rows cols h_ij) by (done || lia). py_step.
  rewrite (getitem3_rect rows cols theta_ij) by done. py_step.
  eexists. split; [done|]. split.
  - by eapply cell_alter_same.
  - intros i' j' Hne. by apply cell_alter_other.
Qed.

Lemma dDTF_slices_loop i j fs : ∀ d acc,
  i < rows → j < cols → Forall (λ f, f < length theta_ij) fs →
  cell d i j = Some acc →
  ∃ d', foldM (accumulate add mul h_ij theta_ij i j) d fs = Ok d'
    ∧ cell d' i j = Some (foldl (plus_term add mul h_ij theta_ij i j) acc fs)
    ∧ ∀ i' j', i' ≠ i ∨ j' ≠ j → cell d' i' j' = cell d i' j'.
Proof.
  induction fs as [|f fs IH]; intros d acc Hi Hj Hfs Hacc.
  - exists d. by split_and!.
  - apply Forall_cons in Hfs as [Hf Hfs]. rewrite foldM_cons.
    destruct (accumulate_cell i j d acc f Hi Hj Hf Hacc) as (d1 & -> & Hc1 & Ho1).
    py_step.
    destruct (IH d1 _ Hi Hj Hfs Hc1) as (d2 & -> & Hc2 & Ho2).
    exists d2. split_and!; [done|done|].
    intros i' j' Hne. by rewrite Ho2, Ho1.
Qed.

Lemma dDTF_cols_loop i js : ∀ d,
  i < rows → NoDup js → Forall (λ j, j < cols) js →
  (∀ j, j ∈ js → cell d i j = Some zero) →
  ∃ d', foldM (λ d j, foldM (accumulate add mul h_ij theta_ij i j) d
                        (seq 0 (length theta_ij))) d js = Ok d'
    ∧ (∀ j, j ∈ js → cell d' i j = Some (frequency_sum zero add mul h_ij theta_ij i j))
    ∧ ∀ i' j', i' ≠ i ∨ j' ∉ js → cell d' i' j' = cell d i' j'.
Proof.
  induction js as [|j js IH]; intros d Hi Hnd Hjs Hzero.
  - exists d. split_and!; [done| |done]. intros j Hj. by apply elem_of_nil in Hj.
  - apply NoDup_cons in Hnd as [Hj_fresh Hnd].
    apply Forall_cons in Hjs as [Hj Hjs]. rewrite foldM_cons. cbv beta.
    destruct (dDTF_slices_loop i j (seq 0 (length theta_ij)) d zero Hi Hj)
      as (d1 & -> & Hc1 & Ho1).
    { apply Forall_forall. intros f Hf. apply elem_of_seq in Hf. lia. }
    { apply Hzero. by left. }
    py_step.
    destruct (IH d1 Hi Hnd Hjs) as (d2 & -> & Hc2 & Ho2).
    { intros j' Hj'. rewrite Ho1; [apply Hzero; by right|].
      right. intros ->. done. }
    exists d2. split_and!; [done| |].
    + intros j' Hj'. apply elem_of_cons in Hj' as [->|Hj']; [|by apply Hc2].
      rewrite Ho2 by (by right). done.
    + intros i' j' Hne. rewrite Ho2, Ho1; [done| |].
      * destruct Hne as [?|Hne]; [by left|]. right. intros ->. apply Hne. by left.
      * destruct Hne as [?|Hne]; [by left|]. right. intros ?. apply Hne. by right.
Qed.

Lemma dDTF_rows_loop ids : ∀ d,
  NoDup ids → Forall (λ i, i < rows) ids →
  (∀ i j, i ∈ ids → j < cols → cell d i j = Some zero) →
  ∃ d', foldM (λ d i, foldM (λ d j, foldM (accumulate add mul h_ij theta_ij i j) d
                                      (seq 0 (length theta_ij))) d (seq 0 cols))
              d ids = Ok d'
    ∧ (∀ i j, i ∈ ids → j < cols →
         cell d' i j = Some (frequency_sum zero add mul h_ij theta_ij i j))
    ∧ ∀ i' j', i' ∉ ids → cell d' i' j' = cell d i' j'.
Proof.
  induction ids as [|i ids IH]; intros d Hnd His Hzero.
  - exists d. split_and!; [done| |done]. intros i j Hi. by apply elem_of_nil in Hi.
  - apply NoDup_cons in Hnd as [Hi_fresh Hnd].
    apply Forall_cons in His as [Hi His]. rewrite foldM_cons. cbv beta.
    destruct (dDTF_cols_loop i (seq 0 cols) d Hi) as (d1 & -> & Hc1 & Ho1).
    { apply NoDup_seq. }
    { apply Forall_forall. intros j Hj. apply elem_of_seq in Hj. lia. }
    { intros j Hj. apply elem_of_seq in Hj. apply Hzero; [by left|lia]. }
    py_step.
    destruct (IH d1 Hnd His) as (d2 & -> & Hc2 & Ho2).
    { intros i' j Hi' Hj. rewrite Ho1; [apply Hzero; [by right|done]|].
      left. intros ->. done. }
    exists d2. split_and!; [done| |].
    + intros i' j Hi' Hj. apply elem_of_cons in Hi' as [->|Hi']; [|by apply Hc2].
      rewrite Ho2 by done. apply Hc1. apply elem_of_seq. lia.
    + intros i' j' Hne. rewrite Ho2, Ho1; [done| |].
      * left. intros ->. apply Hne. by left.
      * intros ?. apply Hne. by right.
Qed.

End Accumulation.

(** The sum in any arithmetic: no law of [add] or [mul] is used. *)
Lemma compute_dDTF_cells {X Y Z : Type} `{Inhabited X, Inhabited Y}
    (zero : Z) (add : Z → Z → Z) (mul : X → Y → Z)
    (h_ij : list (list (list X))) (theta_ij : list (list (list Y))) :
  rect3 (axis1 theta_ij) (axis2 theta_ij) theta_ij →
  rect3 (axis1 theta_ij) (axis2 theta_ij) h_ij →
  length h_ij = length theta_ij →
  ∃ dDTF_ij, compute_dDTF zero add mul h_ij theta_ij = Ok dDTF_ij
    ∧ ∀ i j, i < axis1 theta_ij → j < axis2 theta_ij →
        cell dDTF_ij i j = Some (frequency_sum zero add mul h_ij theta_ij i j).
Proof.
  intros Htheta Hh Hlen. unfold compute_dDTF.
  destruct (dDTF_rows_loop zero add mul (axis1 theta_ij) (axis2 theta_ij) h_ij theta_ij
              Hh Htheta Hlen (seq 0 (axis1 theta_ij))
              (replicate (axis1 theta_ij) (replicate (axis2 theta_ij) zero)))
    as (d & Hrun & Hcells & _).
  - apply NoDup_seq.
  - apply Forall_forall. intros i Hi. apply elem_of_seq in Hi. lia.
  - intros i j Hi Hj. apply elem_of_seq in Hi. apply cell_replicate; lia.
  - exists d. split; [done|]. intros i j Hi Hj. apply Hcells; [|done].
    apply elem_of_seq. lia.
Qed.

(** C5: every entry of the dDTF matrix is the sum over the frequency
    indices of [H_ij(f) * theta_ij(f)], the terms added to zero in
    ascending order of [f]; [compute_abs_dDTF] takes the absolute value
    entry by entry.  [add] and [mul] are arbitrary, like float
    operations, so the order of the sum is part of the statement. *)
Theorem compute_dDTF_ascending_sum (add : C → C → C) (mul : C → R → C)
    (h_ij : ctensor) (theta_ij : tensor) :
  rect3 (axis1 theta_ij) (axis2 theta_ij) theta_ij →
  rect3 (axis1 theta_ij) (axis2 theta_ij) h_ij →
  length h_ij = length theta_ij →
  ∃ dDTF_ij, compute_dDTF C0 add mul h_ij theta_ij = Ok dDTF_ij
    ∧ ∀ i j, i < axis1 theta_ij → j < axis2 theta_ij →
        cell dDTF_ij i j
        = Some (foldl (λ acc f, add acc (mul (item3 h_ij f i j) (item3 theta_ij f i j)))
                      C0 (seq 0 (length theta_ij)))
        ∧ cell (compute_abs_dDTF dDTF_ij) i j
          = Some (Cabs (foldl (λ acc f, add acc (mul (item3 h_ij f i j)
                                                     (item3 theta_ij f i j)))
                              C0 (seq 0 (length theta_ij)))).
Proof.
  intros Htheta Hh Hlen.
  destruct (compute_dDTF_cells C0 add mul h_ij theta_ij Htheta Hh Hlen)
    as (d & Hrun & Hcells).
  exists d. split; [done|]. intros i j Hi Hj.
  specialize (Hcells i j Hi Hj). split; [exact Hcells|].
  unfold compute_abs_dDTF. rewrite cell_map, Hcells. done.
Qed.

(** In every run of the pipeline the dDTF matrix is [compute_dDTF] of the
    run's own [H] and [theta_ij], complex times real, and [abs_dDTF] is its
    absolute value. *)
Lemma execute_sequence_dDTF (VAR_fit : matrix → nat → py tensor) (data : matrix)
    (order num_frequencies : nat) (lower_frequency_limit upper_frequency_limit : R)
    (run : object) :
  execute_sequence VAR_fit data order num_frequencies lower_frequency_limit
    upper_frequency_limit = Ok run →
  compute_dDTF C0 Cadd (λ h th, Cscale th h) (H run) (theta_ij run) = Ok (dDTF_ij run)
  ∧ abs_dDTF run = compute_abs_dDTF (dDTF_ij run).
Proof.
  unfold execute_sequence.
  repeat lazymatch goal with
  | |- mbind _ ?m = _ → _ =>
      let E := fresh "Hstage" in
      destruct m eqn:E; py_step; [|discriminate|discriminate]
  end.
  intros [= <-]. simpl. split; [|done].
  lazymatch goal with Hd : compute_dDTF _ _ _ _ _ = _ |- _ => exact Hd end.
Qed.

Lemma compute_dDTF_ascending_sum_witness :
  ∃ dDTF_ij,
    compute_dDTF C0 Cadd (λ h th, Cscale th h) Samples.two_slices_h Samples.two_slices_theta
    = Ok dDTF_ij
    ∧ ∀ i j, i < axis1 Samples.two_slices_theta → j < axis2 Samples.two_slices_theta →
        cell dDTF_ij i j
        = Some (foldl (λ acc f, Cadd acc (Cscale (item3 Samples.two_slices_theta f i j)
                                                 (item3 Samples.two_slices_h f i j)))
                      C0 (seq 0 (length Samples.two_slices_theta)))
        ∧ cell (compute_abs_dDTF dDTF_ij) i j
          = Some (Cabs (foldl (λ acc f, Cadd acc
                                 (Cscale (item3 Samples.two_slices_theta f i j)
                                         (item3 Samples.two_slices_h f i j)))
                              C0 (seq 0 (length Samples.two_slices_theta)))).
Proof.
  apply (compute_dDTF_ascending_sum Cadd (λ h th, Cscale th h)
           Samples.two_slices_h Samples.two_slices_theta);
    repeat constructor.
Defined.

End dDTFFacts.

(** ** generate_surrogate *)

Module SurrogateFacts.
Import mGrangerStats2.

Local Open Scope R_scope.

(** The spectrum of the impulse is flat. *)
Lemma fft_impulse : fft (map RtoC [1; 0; 0; 0]) = [C1; C1; C1; C1].
Proof.
  unfold fft. simpl. cis_quarters. unfold unit_quarter. simpl.
  repeat (apply (f_equal2 cons); [cx_eq|]). reflexivity.
Qed.

(** The phases drawn are 1 for the bins 1 and 2 and -1 for the bin 3, and
    the real part of the inverse transform is [1/2, 0, 1/2, 0]. *)
Lemma surrogate_channel_impulse :
  surrogate_channel Samples.draws [1; 0; 0; 0] 0 = ([1 / 2; 0; 1 / 2; 0], 4%nat).
Proof.
  unfold surrogate_channel. rewrite fft_impulse. cbn -[cis].
  unfold ifft, phases, Samples.draws. cbn -[cis].
  cis_quarters. unfold unit_quarter. simpl.
  apply (f_equal2 pair); [|reflexivity].
  repeat (apply (f_equal2 cons); [lra|]). reflexivity.
Qed.

Lemma fft_surrogate_impulse : fft (map RtoC [1 / 2; 0; 1 / 2; 0]) = [C1; C0; C1; C0].
Proof.
  unfold fft. simpl. cis_quarters. unfold unit_quarter. simpl.
  repeat (apply (f_equal2 cons); [cx_eq|]). reflexivity.
Qed.

(** C1 fails on the code: for the impulse [1, 0, 0, 0] and the draws
    [0, 0, 0, 0.5] the surrogate channel is [1/2, 0, 1/2, 0]; the
    magnitude of its FFT is [1, 0, 1, 0], that of the original is
    [1, 1, 1, 1].  The phases of the bins 1 and 3 are drawn independently,
    so taking the real part of the inverse transform cancels them. *)
Theorem surrogate_spectrum_differs :
  generate_surrogate Samples.draws Samples.impulse 1 0
  = ([[[1 / 2]; [0]; [1 / 2]; [0]]], 4%nat)
  ∧ map Cabs (fft (map RtoC (column Samples.impulse 0))) = [1; 1; 1; 1]
  ∧ map Cabs (fft (map RtoC (column [[1 / 2]; [0]; [1 / 2]; [0]] 0))) = [1; 0; 1; 0].
Proof.
  split_and!.
  - unfold generate_surrogate, column, Samples.impulse. cbn -[surrogate_channel].
    rewrite surrogate_channel_impulse. reflexivity.
  - replace (column Samples.impulse 0) with [1; 0; 0; 0] by reflexivity.
    rewrite fft_impulse. cbn [map]. by rewrite Cabs_C1.
  - replace (column [[1 / 2]; [0]; [1 / 2]; [0]] 0) with [1 / 2; 0; 1 / 2; 0]
      by reflexivity.
    rewrite fft_surrogate_impulse. cbn [map]. by rewrite Cabs_C1, Cabs_C0.
Qed.

End SurrogateFacts.

(** ** significance_testing *)

Module SignificanceFacts.
Import mGrangerStats2.

Local Open Scope R_scope.

Lemma surrogate_runs_gen
    (new_mGrangerdDTF : matrix → nat → nat → R → R → py mGrangerdDTF.object)
    (C : nat) (surrogate_series : tensor) (runs : list mGrangerdDTF.object) :
  Forall2 (λ series run, mGrangerdDTF_of_data new_mGrangerdDTF series = Ok run)
          surrogate_series runs →
  Forall (λ run, rect C C (mGrangerdDTF.dDTF_ij run)) runs →
  forM (λ temporal_surrogate,
          temporal_su ← mGrangerdDTF_of_data new_mGrangerdDTF temporal_surrogate;
          assign2 C C (map (map Cabs) (mGrangerdDTF.dDTF_ij temporal_su)))
       surrogate_series
  = Ok (map (λ run, map (map Cabs) (mGrangerdDTF.dDTF_ij run)) runs).
Proof.
  induction 1 as [|series run rest runs' Hrun _ IH]; intros Hshapes; simpl; [done|].
  apply Forall_cons in Hshapes as [Hshape Hshapes].
  rewrite Hrun. py_step. rewrite assign2_rect by (by apply rect_map). py_step.
  rewrite IH by done. done.
Qed.

Section Tester.

Variable new_mGrangerdDTF : matrix → nat → nat → R → R → py mGrangerdDTF.object.
Variable ttest_1samp : list R → R → option R * option R.

Variables (original_data : matrix) (surrogate_series : tensor) (my_pvalue : R).
Variables (og : mGrangerdDTF.object) (runs : list mGrangerdDTF.object) (C : nat).

Hypothesis Hog : mGrangerdDTF_of_data new_mGrangerdDTF original_data = Ok og.
Hypothesis Hruns :
  Forall2 (λ series run, mGrangerdDTF_of_data new_mGrangerdDTF series = Ok run)
          surrogate_series runs.
Hypothesis Hog_shape : rect C C (mGrangerdDTF.dDTF_ij og).
Hypothesis Hruns_shape : Forall (λ run, rect C C (mGrangerdDTF.dDTF_ij run)) runs.
Hypothesis HC : axis2 surrogate_series = C.

(** The observed [|dDTF|] of a pair and its one-tailed p-value. *)
Let observed (i j : nat) : R := Cabs (item2 (mGrangerdDTF.dDTF_ij og) i j).
Let p_one_tailed (i j : nat) : option R :=
  one_tailed_p ttest_1samp (null_distribution runs i j) (observed i j).

Lemma surrogate_runs :
  forM (λ temporal_surrogate,
          temporal_su ← mGrangerdDTF_of_data new_mGrangerdDTF temporal_surrogate;
          assign2 C C (map (map Cabs) (mGrangerdDTF.dDTF_ij temporal_su)))
       surrogate_series
  = Ok (map (λ run, map (map Cabs) (mGrangerdDTF.dDTF_ij run)) runs).
Proof. by apply surrogate_runs_gen. Qed.

Lemma p_value_of_pair i j :
  (i < C)%nat → (j < C)%nat →
  p_value_of ttest_1samp (map (map Cabs) (mGrangerdDTF.dDTF_ij og))
    (map (λ run, map (map Cabs) (mGrangerdDTF.dDTF_ij run)) runs) i j
  = Ok (p_one_tailed i j).
Proof.
  intros Hi Hj. unfold p_value_of.
  rewrite (getitem2_rect C C) by (done || by apply rect_map). py_step.
  rewrite (forM_Ok _ (λ m, item2 m i j)).
  2:{ intros m Hm. apply list_elem_of_fmap in Hm as (run & -> & Hrun).
      apply (getitem2_rect C C); [|done|done]. apply rect_map.
      rewrite Forall_forall in Hruns_shape. by apply Hruns_shape. }
  py_step. rewrite (item2_map _ C C) by done.
  assert (Hnull : (λ m, item2 m i j) <$>
                    map (λ run, map (map Cabs) (mGrangerdDTF.dDTF_ij run)) runs
                  = null_distribution runs i j).
  { unfold null_distribution. rewrite <- list_fmap_compose.
    apply Forall_fmap_ext_1. eapply Forall_impl; [exact Hruns_shape|].
    intros run Hrun. simpl. by apply (item2_map _ C C). }
  rewrite Hnull. unfold p_one_tailed, one_tailed_p, observed.
  by destruct (ttest_1samp _ _).
Qed.

(** What [significance_testing] returns when every run of the pipeline
    returns a [C x C] matrix: it raises nothing, and every entry is the
    observed value times the mask. *)
Lemma significance_network :
  ∃ network,
    significance_testing new_mGrangerdDTF ttest_1samp original_data surrogate_series
      my_pvalue = Ok network
    ∧ ∀ i j, (i < C)%nat → (j < C)%nat →
        cell network i j
        = Some (times_bool (observed i j) (float_lt (p_one_tailed i j) my_pvalue)).
Proof.
  unfold significance_testing. rewrite Hog. py_step. rewrite HC.
  rewrite surrogate_runs. py_step.
  rewrite (forM_Ok _ (λ i, map (λ j, p_one_tailed i j) (seq 0 C))).
  2:{ intros i Hi. apply elem_of_seq in Hi.
      apply forM_Ok. intros j Hj. apply elem_of_seq in Hj.
      apply p_value_of_pair; lia. }
  py_step.
  set (levels := map (map (λ p, float_lt p my_pvalue))
                     ((λ i, map (λ j, p_one_tailed i j) (seq 0 C)) <$> seq 0 C)).
  set (mask := map (λ i, map (λ j, if item2 levels i j then true else false) (seq 0 C))
                   (seq 0 C)).
  assert (Hmask : rect C C mask) by apply rect_table.
  assert (Hobs : rect C C (map (map Cabs) (mGrangerdDTF.dDTF_ij og)))
    by by apply rect_map.
  rewrite (broadcast_same_length _ (zip_with times_bool)).
  - eexists. split; [done|]. intros i j Hi Hj.
    destruct (rect_row C C _ i Hobs Hi) as [Hrow Hrow_len].
    destruct (rect_row C C _ i Hmask Hi) as [Hmrow Hmrow_len].
    unfold cell. rewrite lookup_zip_with, Hrow, Hmrow. simpl.
    rewrite lookup_zip_with.
    rewrite !list_lookup_lookup_total_lt by lia. simpl.
    do 2 f_equal.
    + change (item2 (map (map Cabs) (mGrangerdDTF.dDTF_ij og)) i j = observed i j).
      by apply (item2_map _ C C).
    + change (item2 mask i j = float_lt (p_one_tailed i j) my_pvalue).
      unfold mask. rewrite item2_table by done.
      unfold levels. rewrite (item2_map _ C C) by (apply rect_table || done).
      rewrite item2_table by done. by destruct (float_lt _ _).
  - destruct Hobs, Hmask. lia.
  - intros i row mrow Hrow Hmrow.
    apply broadcast_same_length; [|done].
    destruct Hobs as [Hl1 Hr1], Hmask as [Hl2 Hr2].
    rewrite Forall_lookup in Hr1. rewrite Forall_lookup in Hr2.
    rewrite (Hr1 _ _ Hrow), (Hr2 _ _ Hmrow). done.
Qed.

End Tester.

(** C4: the network entry of a pair is [|dDTF_original|(i, j)] exactly
    when its one-tailed p-value, the two-tailed p-value of the one-sample
    t-test of the null distribution against the observed value, halved, is
    strictly below the significance level; it is 0 otherwise (also when the
    p-value is [nan]). *)
Theorem network_entry_iff_significant
    (new_mGrangerdDTF : matrix → nat → nat → R → R → py mGrangerdDTF.object)
    (ttest_1samp : list R → R → option R * option R)
    (original_data : matrix) (surrogate_series : tensor) (my_pvalue : R)
    (og : mGrangerdDTF.object) (runs : list mGrangerdDTF.object) (C : nat) :
  mGrangerdDTF_of_data new_mGrangerdDTF original_data = Ok og →
  Forall2 (λ series run, mGrangerdDTF_of_data new_mGrangerdDTF series = Ok run)
          surrogate_series runs →
  rect C C (mGrangerdDTF.dDTF_ij og) →
  Forall (λ run, rect C C (mGrangerdDTF.dDTF_ij run)) runs →
  axis2 surrogate_series = C →
  ∃ network,
    significance_testing new_mGrangerdDTF ttest_1samp original_data surrogate_series
      my_pvalue = Ok network
    ∧ ∀ i j, (i < C)%nat → (j < C)%nat →
        match one_tailed_p ttest_1samp (null_distribution runs i j)
                (Cabs (item2 (mGrangerdDTF.dDTF_ij og) i j)) with
        | Some p =>
            (p < my_pvalue →
             cell network i j = Some (Cabs (item2 (mGrangerdDTF.dDTF_ij og) i j)))
            ∧ (¬ p < my_pvalue → cell network i j = Some 0)
        | None => cell network i j = Some 0
        end.
Proof.
  intros Hog Hruns Hog_shape Hruns_shape HC.
  destruct (significance_network new_mGrangerdDTF ttest_1samp original_data
              surrogate_series my_pvalue og runs C Hog Hruns Hog_shape Hruns_shape HC)
    as (network & Hrun & Hcells).
  exists network. split; [done|]. intros i j Hi Hj.
  rewrite (Hcells i j Hi Hj).
  destruct (one_tailed_p _ _ _) as [p|]; unfold times_bool, float_lt.
  - split; intros Hp.
    + rewrite bool_decide_eq_true_2 by done. f_equal. lra.
    + rewrite bool_decide_eq_false_2 by done. f_equal. lra.
  - f_equal. lra.
Qed.

Lemma network_entry_iff_significant_witness :
  ∃ network,
    significance_testing (Samples.constant_pipeline Samples.self_driven)
      Samples.ttest_fixed Samples.step_series Samples.two_channel_sets 0.05 = Ok network
    ∧ ∀ i j, (i < 2)%nat → (j < 2)%nat →
        match one_tailed_p Samples.ttest_fixed
                (null_distribution
                   [Samples.run_with Samples.self_driven;
                    Samples.run_with Samples.self_driven] i j)
                (Cabs (item2 (mGrangerdDTF.dDTF_ij (Samples.run_with Samples.self_driven))
                         i j)) with
        | Some p =>
            (p < 0.05 →
             cell network i j
             = Some (Cabs (item2 (mGrangerdDTF.dDTF_ij
                                    (Samples.run_with Samples.self_driven)) i j)))
            ∧ (¬ p < 0.05 → cell network i j = Some 0)
        | None => cell network i j = Some 0
        end.
Proof.
  apply (network_entry_iff_significant (Samples.constant_pipeline Samples.self_driven)
           Samples.ttest_fixed Samples.step_series Samples.two_channel_sets 0.05
           (Samples.run_with Samples.self_driven)
           [Samples.run_with Samples.self_driven; Samples.run_with Samples.self_driven]
           2%nat);
    repeat constructor.
Defined.

(** C8, as the code has it: a pair whose null distribution has zero
    variance raises nothing.  It gets the halved p-value that
    [ttest_1samp] reports on the constant sample and a mask entry like any
    other pair. *)
Theorem zero_variance_pair_is_masked
    (new_mGrangerdDTF : matrix → nat → nat → R → R → py mGrangerdDTF.object)
    (ttest_1samp : list R → R → option R * option R)
    (original_data : matrix) (surrogate_series : tensor) (my_pvalue : R)
    (og : mGrangerdDTF.object) (runs : list mGrangerdDTF.object) (C i j : nat) (v : R) :
  mGrangerdDTF_of_data new_mGrangerdDTF original_data = Ok og →
  Forall2 (λ series run, mGrangerdDTF_of_data new_mGrangerdDTF series = Ok run)
          surrogate_series runs →
  rect C C (mGrangerdDTF.dDTF_ij og) →
  Forall (λ run, rect C C (mGrangerdDTF.dDTF_ij run)) runs →
  axis2 surrogate_series = C →
  (i < C)%nat → (j < C)%nat →
  Forall (λ run, Cabs (item2 (mGrangerdDTF.dDTF_ij run) i j) = v) runs →
  ∃ network,
    significance_testing new_mGrangerdDTF ttest_1samp original_data surrogate_series
      my_pvalue = Ok network
    ∧ null_distribution runs i j = replicate (length runs) v
    ∧ cell network i j
      = Some (times_bool (Cabs (item2 (mGrangerdDTF.dDTF_ij og) i j))
                (float_lt (one_tailed_p ttest_1samp (replicate (length runs) v)
                             (Cabs (item2 (mGrangerdDTF.dDTF_ij og) i j)))
                          my_pvalue)).
Proof.
  intros Hog Hruns Hog_shape Hruns_shape HC Hi Hj Hconst.
  destruct (significance_network new_mGrangerdDTF ttest_1samp original_data
              surrogate_series my_pvalue og runs C Hog Hruns Hog_shape Hruns_shape HC)
    as (network & Hrun & Hcells).
  assert (Hnull : null_distribution runs i j = replicate (length runs) v).
  { unfold null_distribution. clear -Hconst.
    induction Hconst as [|run runs Hv _ IH]; simpl; [done|]. by rewrite Hv, IH. }
  exists network. split; [done|]. split; [done|].
  rewrite (Hcells i j Hi Hj), Hnull. done.
Qed.

Lemma zero_variance_pair_is_masked_witness :
  ∃ network,
    significance_testing (Samples.constant_pipeline Samples.self_driven) Samples.ttest_nan
      Samples.step_series Samples.two_channel_sets 0.05 = Ok network
    ∧ null_distribution
        [Samples.run_with Samples.self_driven; Samples.run_with Samples.self_driven] 0 0
      = replicate 2 (Cabs C1)
    ∧ cell network 0 0
      = Some (times_bool
                (Cabs (item2 (mGrangerdDTF.dDTF_ij (Samples.run_with Samples.self_driven))
                         0 0))
                (float_lt
                   (one_tailed_p Samples.ttest_nan (replicate 2 (Cabs C1))
                      (Cabs (item2 (mGrangerdDTF.dDTF_ij
                                      (Samples.run_with Samples.self_driven)) 0 0)))
                   0.05)).
Proof.
  apply (zero_variance_pair_is_masked (Samples.constant_pipeline Samples.self_driven)
           Samples.ttest_nan Samples.step_series Samples.two_channel_sets 0.05
           (Samples.run_with Samples.self_driven)
           [Samples.run_with Samples.self_driven; Samples.run_with Samples.self_driven]
           2%nat 0%nat 0%nat (Cabs C1));
    first [lia | repeat constructor].
Defined.

(** C8 as stated fails: on two channels both surrogate runs give every
    pair the same [|dDTF|], 1 for the pair [(0, 0)] and 0 for the pair
    [(0, 1)], so every null distribution has zero variance; the t-test
    reports [nan], and [significance_testing] returns a network, with the
    entry of every pair set to zero. *)
Lemma zero_variance_pair_raises_nothing :
  null_distribution
    [Samples.run_with Samples.self_driven; Samples.run_with Samples.self_driven] 0 0
  = [Cabs C1; Cabs C1]
  ∧ null_distribution
      [Samples.run_with Samples.self_driven; Samples.run_with Samples.self_driven] 0 1
    = [Cabs C0; Cabs C0]
  ∧ significance_testing (Samples.constant_pipeline Samples.self_driven) Samples.ttest_nan
      Samples.step_series Samples.two_channel_sets 0.05
    = Ok [[times_bool (Cabs C1) false; times_bool (Cabs C0) false];
          [times_bool (Cabs C0) false; times_bool (Cabs C1) false]]
  ∧ ¬ ∃ e, significance_testing (Samples.constant_pipeline Samples.self_driven)
             Samples.ttest_nan Samples.step_series Samples.two_channel_sets 0.05
           = Raise e.
Proof.
  split_and!; [reflexivity..|]. intros [e He]. discriminate He.
Qed.




End SignificanceFacts.

(** ** compute_E on the array that the pipeline hands it *)

Module ResidualFacts.
Import mGrangerdDTF ComputeEFacts.

Local Open Scope R_scope.

(** The two loops of [compute_E], for any coefficients whose inner loop
    returns: the row [a] of [errors] receives what the inner loop leaves of
    the row [p + a] of the lagged data, the other rows are kept. *)
Section Rows.

Variables (coefficients : list item) (observed : matrix) (p : nat) (res : nat → vector).
Hypothesis Hrow : ∀ i, (p ≤ i < length observed)%nat →
  row_fold coefficients observed i (observed !!! i) (seq 1 p) = Ok (res i).

Lemma row_step_any (errors : matrix) a :
  (p + a < length observed)%nat → (a < length errors)%nat →
  row_step coefficients observed p errors (p + a) = Ok (<[a := res (p + a)%nat]> errors).
Proof.
  intros Hobs_i Herr. unfold row_step.
  rewrite getitem_total by lia. py_step.
  replace (p + a - p)%nat with a by lia.
  rewrite getitem_total by lia. py_step.
  pose proof (lag_loop coefficients observed p (p + a)
                (<[a := observed !!! (p + a)%nat]> errors)
                (observed !!! (p + a)%nat) (seq 1 p)) as Hloop.
  replace (p + a - p)%nat with a in Hloop by lia.
  rewrite Hloop by (by apply list_lookup_insert_eq).
  rewrite Hrow by lia. py_step. by rewrite list_insert_insert_eq.
Qed.

Lemma rows_loop_any n : ∀ a (errors : matrix),
  (0 < n → p + a + n ≤ length observed)%nat →
  (a + n ≤ length errors)%nat →
  ∃ errors', foldM (row_step coefficients observed p) errors (seq (p + a) n) = Ok errors'
    ∧ length errors' = length errors
    ∧ (∀ k, a ≤ k < a + n → errors' !! k = Some (res (p + k)))%nat
    ∧ (∀ k, ¬ (a ≤ k < a + n)%nat → errors' !! k = errors !! k).
Proof.
  induction n as [|n IH]; intros a errors Hobs_n Herr; cbn [seq].
  - exists errors. split_and!; [done | done | intros k; lia | done].
  - rewrite foldM_cons, row_step_any by lia. py_step.
    destruct (IH (S a) (<[a := res (p + a)%nat]> errors))
      as (errors' & Hrun & Hlen & Hnew & Hold).
    { intros _. lia. }
    { rewrite length_insert. lia. }
    replace (p + S a)%nat with (S (p + a)) in Hrun by lia.
    exists errors'. split; [done|]. rewrite length_insert in Hlen.
    repeat split; [done| |].
    + intros k Hk. destruct (decide (k = a)) as [->|Hne].
      * rewrite Hold by lia. apply list_lookup_insert_eq. lia.
      * apply Hnew. lia.
    + intros k Hk. rewrite Hold by lia. apply list_lookup_insert_ne. lia.
Qed.

End Rows.

Lemma index0_Arr2 (A : matrix) :
  forM (index0 (Arr2 A)) (seq 0 (length A)) = Ok (Row <$> A).
Proof.
  assert (Hgen : ∀ (pre : matrix),
    forM (index0 (Arr2 (pre ++ A))) (seq (length pre) (length A)) = Ok (Row <$> A)).
  { induction A as [|m A IH]; intros pre; simpl; [done|].
    unfold getitem. rewrite lookup_app_r by lia. rewrite Nat.sub_diag. simpl.
    specialize (IH (pre ++ [m])). rewrite <- app_assoc in IH. simpl in IH.
    rewrite length_app in IH. simpl in IH. rewrite Nat.add_1_r in IH.
    by rewrite IH. }
  apply (Hgen []).
Qed.

(** The inner loop on the rows of a 2-D array: each lag subtracts one
    scalar from the whole row. *)
Lemma row_fold_scalar (C : nat) (A observed : matrix) i e lags :
  Forall (λ row, length row = C) A →
  Forall (λ row, length row = C) observed →
  Forall (λ lag, 1 ≤ lag ≤ length A ∧ lag ≤ i)%nat lags →
  (i < length observed)%nat →
  row_fold (Row <$> A) observed i e lags
  = Ok (foldl (λ e lag, map (λ x, x - dot (A !!! (lag - 1)%nat)
                                        (observed !!! (i - lag)%nat)) e) e lags).
Proof.
  intros HA Hobs Hlags Hi. revert e.
  induction Hlags as [|lag lags [Hlag Hle] _ IH]; intros e; simpl; [done|].
  rewrite row_fold_cons, row_fold_single.
  rewrite (getitem_Some _ _ (Row (A !!! (lag - 1)%nat))); py_step.
  2:{ rewrite list_lookup_fmap, list_lookup_lookup_total_lt by lia. done. }
  rewrite getitem_total by lia. py_step.
  unfold np_dot. rewrite decide_True.
  2:{ rewrite Forall_lookup in HA. rewrite Forall_lookup in Hobs.
      rewrite (HA (lag - 1)%nat (A !!! (lag - 1)%nat)),
              (Hobs (i - lag)%nat (observed !!! (i - lag)%nat));
        [done|apply list_lookup_lookup_total_lt; lia..]. }
  py_step. unfold isub. py_step. apply IH.
Qed.

(** X1: handed a 2-D array [A] of [p] rows, as the pipeline does with the
    matrix that [compute_A_n] returns, [compute_E] takes the number of rows
    of [A] as the lag order and each row of [A] as the coefficient of one
    lag: of the [T - p] rows it returns, the row [k <= T - 2p - 1] is the row
    [k + p] of the lagged data with one scalar per lag subtracted from every
    entry, and the last [p] rows are zero. *)
Theorem compute_E_matrix_coefficients (C : nat) (data A : matrix) :
  Forall (λ row, length row = C) data →
  Forall (λ row, length row = C) A →
  ∃ errors, compute_E data (Arr2 A) = Ok errors
    ∧ length errors = (length data - length A)%nat
    ∧ (∀ k, (length data - 2 * length A ≤ k < length data - length A)%nat →
            errors !! k = Some (replicate C 0))
    ∧ (∀ k, (k < length data - 2 * length A)%nat →
            errors !! k
            = Some (scalar_residual A (drop (length A) data) (length A + k))).
Proof.
  intros Hdata HA. unfold compute_E. simpl shape0.
  rewrite index0_Arr2. py_step.
  set (observed := drop (length A) data).
  assert (Hobs : Forall (λ row, length row = C) observed) by by apply Forall_drop.
  assert (Hlen : length observed = (length data - length A)%nat)
    by apply length_drop.
  destruct (rows_loop_any (Row <$> A) observed (length A)
              (scalar_residual A observed)) with
    (n := (length observed - length A)%nat) (a := 0%nat) (errors := zeros_like observed)
    as (errors & Hrun & Hl & Hnew & Hold).
  { intros i Hi. unfold scalar_residual. apply (row_fold_scalar C); [done|done| |lia].
    apply Forall_forall. intros lag Hlag. apply elem_of_seq in Hlag. lia. }
  { lia. }
  { rewrite length_zeros_like. lia. }
  rewrite Nat.add_0_r in Hrun. exists errors. split; [done|].
  rewrite length_zeros_like in Hl. split; [lia|]. split.
  - intros k Hk. rewrite Hold by lia.
    destruct (lookup_lt_is_Some_2 observed k) as [row Hrow]; [lia|].
    rewrite (zeros_like_lookup _ _ _ Hrow). do 2 f_equal.
    rewrite Forall_lookup in Hobs. by eapply Hobs.
  - intros k Hk. apply Hnew. lia.
Qed.

Lemma compute_E_matrix_coefficients_witness :
  ∃ errors,
    compute_E Samples.two_channel_series (Arr2 Samples.identity_coefficients) = Ok errors
    ∧ length errors
      = (length Samples.two_channel_series - length Samples.identity_coefficients)%nat
    ∧ (∀ k, (length Samples.two_channel_series - 2 * length Samples.identity_coefficients
             ≤ k < length Samples.two_channel_series
                   - length Samples.identity_coefficients)%nat →
            errors !! k = Some (replicate 2 0))
    ∧ (∀ k, (k < length Samples.two_channel_series
                 - 2 * length Samples.identity_coefficients)%nat →
            errors !! k
            = Some (scalar_residual Samples.identity_coefficients
                      (drop (length Samples.identity_coefficients)
                            Samples.two_channel_series)
                      (length Samples.identity_coefficients + k))).
Proof.
  apply (compute_E_matrix_coefficients 2 Samples.two_channel_series
           Samples.identity_coefficients); repeat constructor.
Defined.

(** X2: when the coefficient matrices are made for another number of
    channels than the series has, the first [np.dot] of the loop raises
    ValueError (the loop runs when the series has more than [2p] rows). *)
Theorem compute_E_channel_mismatch (C C' : nat) (data : matrix) (t : tensor) :
  Forall (λ row, length row = C) data →
  Forall (λ M, M ≠ [] ∧ Forall (λ row, length row = C') M) t →
  C ≠ C' → (0 < length t)%nat → (2 * length t < length data)%nat →
  compute_E data (Arr3 t) = Raise ValueError.
Proof.
  intros Hdata Ht HC Hp HT. unfold compute_E. simpl shape0.
  rewrite index0_Arr3. py_step.
  set (observed := drop (length t) data).
  assert (Hobs : Forall (λ row, length row = C) observed) by by apply Forall_drop.
  assert (Hlen : length observed = (length data - length t)%nat)
    by apply length_drop.
  assert (Hlag : ∀ errors : matrix, (0 < length errors)%nat →
            lag_step (Mat <$> t) observed (length t) (length t) errors 1 = Raise ValueError).
  { intros errors Herr. unfold lag_step. rewrite Nat.sub_diag.
    rewrite (getitem_total errors 0) by lia. py_step.
    destruct t as [|m0 t']; [simpl in Hp; lia|]. simpl.
    apply Forall_cons in Ht as [[Hm0 Hrows] _].
    destruct m0 as [|row0 m0]; [done|]. apply Forall_cons in Hrows as [Hrow0 _].
    rewrite getitem_total by (simpl in *; lia). py_step. simpl.
    rewrite decide_False; [done|].
    rewrite Hrow0. rewrite Forall_lookup in Hobs.
    rewrite (Hobs (length t' - 0)%nat (observed !!! (length t' - 0)%nat)); [done|].
    apply list_lookup_lookup_total_lt. simpl in *. lia. }
  assert (Hstep : row_step (Mat <$> t) observed (length t) (zeros_like observed) (length t)
                  = Raise ValueError).
  { unfold row_step. rewrite (getitem_total observed (length t)) by lia. py_step.
    rewrite Nat.sub_diag.
    rewrite (getitem_total (zeros_like observed) 0)
      by (rewrite length_zeros_like; lia).
    py_step.
    destruct (length t) as [|p] eqn:Hpt; [lia|]. cbn [seq]. rewrite foldM_cons.
    rewrite Hlag; [done|]. rewrite length_insert, length_zeros_like. lia. }
  destruct (length observed - length t)%nat as [|n] eqn:Hn; [lia|].
  cbn [seq]. rewrite foldM_cons, Hstep. done.
Qed.

Lemma compute_E_channel_mismatch_witness :
  compute_E Samples.ramp (Arr3 Samples.two_channel_lag) = Raise ValueError.
Proof.
  apply (compute_E_channel_mismatch 1 2 Samples.ramp Samples.two_channel_lag);
    first [ lia | simpl; lia | repeat constructor; done ].
Defined.

End ResidualFacts.

(** ** The transfer function: compute_A_f, compute_H_f, compute_H_h *)

Module TransferFacts.
Import mGrangerdDTF FrequencyFacts.

Local Open Scope R_scope.

Lemma length_linspace lo hi num : length (linspace lo hi num) = num.
Proof.
  unfold linspace. destruct (decide (num = 1)%nat) as [->|_]; [done|].
  by rewrite length_map, length_seq.
Qed.

(** What [compute_A_f] returns on a square array. *)
Lemma compute_A_f_slices n (A_n : matrix) (A_fft : cmatrix) F lo hi :
  rect n n A_n → (0 < n)%nat → fft2 A_n = Ok A_fft →
  compute_A_f A_n F lo hi
  = Ok ((λ f, zip_with (zip_with Csub)
                (zip_with (zip_with Cmul) A_fft (exp_term n f))
                (map (λ i, map (λ j, eye i j) (seq 0 n)) (seq 0 n)))
        <$> linspace lo hi F).
Proof.
  intros HA Hn Hfft.
  destruct (fft2_square n A_n HA Hn) as (A_fft' & Hfft' & HF).
  rewrite Hfft in Hfft'. injection Hfft' as <-.
  pose proof HA as [Hlen _].
  unfold compute_A_f. rewrite Hfft. py_step.
  rewrite (ncols_rect n n), Hlen by done.
  apply forM_Ok. intros f _. by apply A_f_slice_square.
Qed.

Lemma rect_A_f_slice n (A_fft : cmatrix) f :
  rect n n A_fft →
  rect n n (zip_with (zip_with Csub)
              (zip_with (zip_with Cmul) A_fft (exp_term n f))
              (map (λ i, map (λ j, eye i j) (seq 0 n)) (seq 0 n))).
Proof.
  intros HF. apply rect_zip_with; [|apply rect_table].
  apply rect_zip_with; [done|apply rect_exp_term].
Qed.

Lemma compute_A_f_shape n (A_n : matrix) F lo hi :
  rect n n A_n → (0 < n)%nat →
  ∃ slices, compute_A_f A_n F lo hi = Ok slices
    ∧ length slices = F ∧ rect3 n n slices.
Proof.
  intros HA Hn. destruct (fft2_square n A_n HA Hn) as (A_fft & Hfft & HF).
  rewrite (compute_A_f_slices n A_n A_fft) by done.
  eexists. split; [done|]. split.
  - by rewrite length_fmap, length_linspace.
  - apply Forall_fmap, Forall_forall. intros f _. by apply rect_A_f_slice.
Qed.

Lemma Cmul_C1_r (z : C) : Cmul z C1 = z.
Proof. destruct z. cx_eq. Qed.

Lemma exp_term_border n f r c :
  (r < n)%nat → (c < n)%nat → r = 0%nat ∨ c = 0%nat → item2 (exp_term n f) r c = C1.
Proof.
  intros Hr Hc Hborder. unfold exp_term.
  rewrite (item2_table (λ r c, cis (- (2 * PI * f * fftfreq n r * INR c)))) by done.
  rewrite <- cis_0. f_equal. destruct Hborder as [-> | ->].
  - unfold fftfreq. rewrite decide_True by lia. simpl. unfold Rdiv. ring.
  - simpl. ring.
Qed.

(** X4: in every slice [A(f)] the entries of the first row and of the
    first column do not depend on the frequency: the exponential they are
    multiplied with is 1, so they are the 2-D FFT of the coefficients minus
    the identity. *)
Theorem A_f_border_is_frequency_independent (n : nat) (A_n : matrix) (F : nat)
    (lo hi : R) :
  rect n n A_n → (0 < n)%nat →
  ∃ A_fft slices,
    fft2 A_n = Ok A_fft
    ∧ compute_A_f A_n F lo hi = Ok slices
    ∧ ∀ A r c, A ∈ slices → (r < n)%nat → (c < n)%nat → r = 0%nat ∨ c = 0%nat →
        cell A r c = Some (Csub (item2 A_fft r c) (eye r c)).
Proof.
  intros HA Hn. destruct (fft2_square n A_n HA Hn) as (A_fft & Hfft & HF).
  exists A_fft. eexists. split; [done|]. split.
  { by apply (compute_A_f_slices n). }
  intros A r c HAin Hr Hc Hborder.
  apply list_elem_of_fmap in HAin as (f & -> & _).
  rewrite (cell_zip_with _ n n);
    [|apply rect_zip_with; [done|apply rect_exp_term]|apply rect_table|done|done].
  f_equal. f_equal; [|by apply item2_table].
  assert (Hprod : cell (zip_with (zip_with Cmul) A_fft (exp_term n f)) r c
                  = Some (Cmul (item2 A_fft r c) (item2 (exp_term n f) r c))).
  { apply (cell_zip_with _ n n); [done|apply rect_exp_term|done|done]. }
  rewrite (cell_item2 n n) in Hprod;
    [|apply rect_zip_with; [done|apply rect_exp_term]|done|done].
  injection Hprod as ->. by rewrite exp_term_border, Cmul_C1_r.
Qed.

Lemma A_f_border_is_frequency_independent_witness :
  ∃ A_fft slices,
    fft2 Samples.half_coefficient = Ok A_fft
    ∧ compute_A_f Samples.half_coefficient 10 0.01 0.1 = Ok slices
    ∧ ∀ A r c, A ∈ slices → (r < 1)%nat → (c < 1)%nat → r = 0%nat ∨ c = 0%nat →
        cell A r c = Some (Csub (item2 A_fft r c) (eye r c)).
Proof.
  apply (A_f_border_is_frequency_independent 1 Samples.half_coefficient 10 0.01 0.1);
    first [lia | repeat constructor].
Defined.

(** *** compute_H_f *)

Lemma linalg_inv_Ok (m inv : cmatrix) :
  linalg_inv m = Ok inv → square m ∧ det m ≠ C0 ∧ rect (length m) (length m) inv.
Proof.
  unfold linalg_inv. destruct (decide (square m)) as [Hsq|]; [|done].
  destruct (decide (det m = C0)) as [|Hdet]; [done|]. intros [= <-].
  split_and!; [done|done|].
  apply (rect_table (λ i j, Cmul (cofactor m j i) (Cinv (det m)))).
Qed.

Lemma compute_H_f_shape n (A H : ctensor) :
  rect3 n n A → compute_H_f A = Ok H → length H = length A ∧ rect3 n n H.
Proof.
  intros HA HH. unfold compute_H_f in HH. split; [by eapply forM_length|].
  apply Forall_lookup. intros f H_f Hf.
  assert (Hlt : (f < length A)%nat).
  { erewrite <- forM_length by done. by eapply lookup_lt_Some. }
  destruct (lookup_lt_is_Some_2 A f Hlt) as [A_f HAf].
  destruct (forM_lookup _ _ _ _ _ HH HAf) as (H_f' & HHf' & Hinv).
  rewrite Hf in HHf'. injection HHf' as <-.
  apply linalg_inv_Ok in Hinv as (_ & _ & Hrect).
  unfold rect3 in HA. rewrite Forall_lookup in HA. destruct (HA _ _ HAf) as [Hlen _].
  by rewrite Hlen in Hrect.
Qed.

(** *** compute_H_h *)

Lemma rect_transpose {X} `{Inhabited X} r c (m : list (list X)) :
  rect r c m → (0 < r)%nat → rect c r (transpose m).
Proof.
  intros Hm Hr. unfold transpose. rewrite (ncols_rect r c) by done.
  destruct Hm as [Hlen _]. split; [by rewrite length_map, length_seq|].
  apply Forall_fmap, Forall_forall. intros j _. simpl. by rewrite length_map.
Qed.

Lemma item2_transpose {X} `{Inhabited X} r c (m : list (list X)) i j :
  rect r c m → (i < c)%nat → (j < r)%nat → item2 (transpose m) i j = item2 m j i.
Proof.
  intros Hm Hi Hj. unfold transpose. rewrite (ncols_rect r c) by (done || lia).
  destruct Hm as [Hlen _]. unfold item2.
  rewrite (list_lookup_total_correct _ i (map (λ row, row !!! i) m)).
  2:{ rewrite list_lookup_fmap, lookup_seq_lt by done. done. }
  apply list_lookup_total_correct. rewrite list_lookup_fmap.
  rewrite list_lookup_lookup_total_lt by lia. done.
Qed.

(** The conjugate of the transposed, as [compute_H_h] forms it. *)
Section Hermitian.

Variables (n : nat) (m : cmatrix).
Hypothesis Hm : rect n n m.

Lemma rect_conj_transpose : rect n n (map (map Cconj) (transpose m)).
Proof.
  destruct (decide (n = 0)%nat) as [Hz|Hpos].
  - destruct Hm as [Hlen _]. rewrite Hz in Hlen. apply nil_length_inv in Hlen.
    rewrite Hlen, Hz. by split.
  - apply rect_map, rect_transpose; [done|lia].
Qed.

Lemma item2_conj_transpose i j :
  (i < n)%nat → (j < n)%nat →
  item2 (map (map Cconj) (transpose m)) i j = Cconj (item2 m j i).
Proof.
  intros Hi Hj. rewrite (item2_map _ n n); [|apply rect_transpose; [done|lia]|done|done].
  f_equal. by apply (item2_transpose n n).
Qed.

Lemma H_h_slice :
  assign2 (length m) (ncols m) (map (map Cconj) (transpose m))
  = Ok (map (map Cconj) (transpose m)).
Proof.
  apply assign2_rect. pose proof rect_conj_transpose as Hrect.
  destruct (decide (n = 0)%nat) as [Hz|Hpos].
  - destruct Hm as [Hlen _]. rewrite Hz in Hlen. apply nil_length_inv in Hlen.
    rewrite Hlen. by split.
  - rewrite (ncols_rect n n) by (done || lia). destruct Hm as [Hlen _].
    by rewrite Hlen.
Qed.

End Hermitian.

Lemma Cconj_involutive (z : C) : Cconj (Cconj z) = z.
Proof. destruct z. cx_eq. Qed.

Lemma conj_transpose_involutive n (m : cmatrix) :
  rect n n m →
  map (map Cconj) (transpose (map (map Cconj) (transpose m))) = m.
Proof.
  intros Hm. pose proof (rect_conj_transpose n m Hm) as Hc.
  apply (rect_cells_eq n n); [by apply rect_conj_transpose|done|].
  intros i j Hi Hj.
  rewrite (cell_item2 n n), (cell_item2 n n m) by (done || by apply rect_conj_transpose).
  f_equal. rewrite (item2_conj_transpose n _ Hc), (item2_conj_transpose n _ Hm) by done.
  apply Cconj_involutive.
Qed.

Lemma compute_H_h_slices n (H : ctensor) :
  rect3 n n H → compute_H_h H = Ok ((λ m, map (map Cconj) (transpose m)) <$> H).
Proof.
  intros HH. unfold compute_H_h. apply forM_Ok. intros m Hin.
  unfold rect3 in HH. rewrite Forall_forall in HH. apply (H_h_slice n). by apply HH.
Qed.

(** X6: on square slices [compute_H_h] returns, slice by slice, the
    conjugate of the transposed, [H_h(f)[i, j] = conj (H(f)[j, i])], and
    applying it twice gives the array back. *)
Theorem compute_H_h_conjugate_transpose (n : nat) (H : ctensor) :
  rect3 n n H →
  ∃ H_h, compute_H_h H = Ok H_h
    ∧ length H_h = length H ∧ rect3 n n H_h
    ∧ (∀ f i j, (f < length H)%nat → (i < n)%nat → (j < n)%nat →
         item3 H_h f i j = Cconj (item3 H f j i))
    ∧ compute_H_h H_h = Ok H.
Proof.
  intros HH. rewrite (compute_H_h_slices n) by done.
  assert (Hshape : rect3 n n ((λ m, map (map Cconj) (transpose m)) <$> H)).
  { apply Forall_fmap. eapply Forall_impl; [exact HH|]. intros m Hm. simpl.
    by apply rect_conj_transpose. }
  eexists. split; [done|]. split_and!.
  - by rewrite length_fmap.
  - done.
  - intros f i j Hf Hi Hj. unfold item3.
    rewrite (list_lookup_total_fmap (λ m : cmatrix, map (map Cconj) (transpose m)) H f)
      by done.
    apply (item2_conj_transpose n); [|done|done]. by apply rect3_lookup.
  - rewrite (compute_H_h_slices n) by done. f_equal.
    rewrite <- list_fmap_compose. rewrite <- (list_fmap_id H) at 2.
    apply Forall_fmap_ext_1. eapply Forall_impl; [exact HH|]. intros m Hm. simpl.
    by apply (conj_transpose_involutive n).
Qed.

Lemma compute_H_h_conjugate_transpose_witness :
  ∃ H_h, compute_H_h Samples.unit_transfer = Ok H_h
    ∧ length H_h = length Samples.unit_transfer ∧ rect3 2 2 H_h
    ∧ (∀ f i j, (f < length Samples.unit_transfer)%nat → (i < 2)%nat → (j < 2)%nat →
         item3 H_h f i j = Cconj (item3 Samples.unit_transfer f j i))
    ∧ compute_H_h H_h = Ok Samples.unit_transfer.
Proof.
  apply (compute_H_h_conjugate_transpose 2 Samples.unit_transfer); repeat constructor.
Defined.

Lemma stretch_raises {X} n (l : list X) :
  length l ≠ n → length l ≠ 1%nat → stretch n l = Raise ValueError.
Proof.
  intros Hn H1. unfold stretch. rewrite decide_False by done.
  by destruct l as [|x [|y l]].
Qed.

Lemma stretch_singleton {X} n (x : X) : n ≠ 1%nat → stretch n [x] = Ok (replicate n x).
Proof. intros Hn. unfold stretch. rewrite decide_False; [done|]. simpl. lia. Qed.

(** X7: on slices that are not square the transposed slice does not fit
    the slice it is assigned to, and [compute_H_h] raises ValueError. *)
Theorem compute_H_h_rejects_non_square (r c : nat) (H : ctensor) :
  rect3 r c H → H ≠ [] → (0 < r)%nat → (0 < c)%nat → r ≠ c →
  compute_H_h H = Raise ValueError.
Proof.
  intros HH Hne Hr Hc Hrc. destruct H as [|m H]; [done|].
  apply Forall_cons in HH as [Hm _]. unfold compute_H_h. cbn [forM].
  assert (Hslice : assign2 (length m) (ncols m) (map (map Cconj) (transpose m))
                   = Raise ValueError).
  { pose proof (rect_map Cconj c r _ (rect_transpose r c m Hm Hr)) as [Hlen Hrows].
    rewrite (ncols_rect r c) by done. destruct Hm as [Hlm _]. rewrite Hlm.
    set (v := map (map Cconj) (transpose m)) in *. unfold assign2.
    destruct (decide (c = 1)%nat) as [->|Hc1].
    - destruct v as [|row0 [|row1 v]]; [done| |done].
      rewrite stretch_singleton by done. py_step.
      destruct r as [|r]; [lia|]. cbn [replicate forM].
      apply Forall_cons in Hrows as [Hrow0 _].
      rewrite stretch_raises by lia. done.
    - rewrite stretch_raises by lia. done. }
  by rewrite Hslice.
Qed.

Lemma compute_H_h_rejects_non_square_witness :
  compute_H_h Samples.wide_transfer = Raise ValueError.
Proof.
  apply (compute_H_h_rejects_non_square 1 2 Samples.wide_transfer);
    first [lia | done | repeat constructor].
Defined.

(** *** compute_A_f on an array that is not square *)

Lemma fft2_rect n m (A_n : matrix) :
  rect n m A_n → (0 < n)%nat → (0 < m)%nat →
  ∃ A_fft, fft2 A_n = Ok A_fft ∧ rect n m A_fft.
Proof.
  intros HA Hn Hm. unfold fft2.
  rewrite (ncols_rect n m) by done. destruct HA as [Hlen _]. rewrite Hlen.
  rewrite decide_False by lia. eexists. split; [done|].
  split; [by rewrite length_map, length_seq|].
  apply Forall_fmap, Forall_forall. intros k _. simpl. by rewrite length_map, length_seq.
Qed.

Lemma linspace_cons lo hi F : (0 < F)%nat → ∃ f rest, linspace lo hi F = f :: rest.
Proof.
  intros HF. pose proof (length_linspace lo hi F) as Hlen.
  destruct (linspace lo hi F) as [|f rest]; [simpl in Hlen; lia|eauto].
Qed.

Lemma rect_cons {X} r c (m : list (list X)) :
  rect r c m → (0 < r)%nat → ∃ row rest, m = row :: rest ∧ length row = c.
Proof.
  intros [Hlen Hrows] Hr. destruct m as [|row rest]; [simpl in Hlen; lia|].
  apply Forall_cons in Hrows as [Hrow _]. eauto.
Qed.

Lemma broadcast_mismatch {X Y Z} (f : X → Y → py Z) (a : list X) (b : list Y) :
  length a ≠ length b → length a ≠ 1%nat → length b ≠ 1%nat →
  broadcast f a b = Raise ValueError.
Proof.
  intros Hab Ha Hb. unfold broadcast. rewrite decide_False by done.
  destruct a as [|x [|x' a]]; [|done|]; by destruct b as [|y [|y' b]].
Qed.

Lemma broadcast_right_singleton {X Y Z} (f : X → Y → py Z) (a : list X) (y : Y) :
  length a ≠ 1%nat → broadcast f a [y] = forM (λ x, f x y) a.
Proof.
  intros Ha. unfold broadcast. rewrite decide_False by done.
  by destruct a as [|x [|x' a]].
Qed.

Lemma broadcast_left_singleton {X Y Z} (f : X → Y → py Z) (x : X) (b : list Y) :
  length b ≠ 1%nat → broadcast f [x] b = forM (f x) b.
Proof. intros Hb. unfold broadcast. rewrite decide_False; [done|]. simpl. lia. Qed.

(** One row against [n] columns is stretched by the product, and the
    index array then asks [np.eye(1)] for a column it does not have. *)
Lemma A_f_slice_one_row m (A_fft : cmatrix) f :
  rect 1 m A_fft → (1 < m)%nat → A_f_slice 1 m A_fft f = Raise IndexError.
Proof.
  intros [Hlen Hrows] Hm. destruct A_fft as [|row [|row' A_fft]]; [done| |done].
  apply Forall_cons in Hrows as [Hrow _].
  unfold A_f_slice, mul2, exp_term. cbn [seq map].
  unfold broadcast at 1. rewrite decide_True by done. cbn [zip zip_with forM fst snd].
  rewrite broadcast_right_singleton by lia.
  rewrite (forM_Ok _ (λ z, Cmul z (cis (- (2 * PI * f * fftfreq 1 0 * INR 0))))) by done.
  py_step. unfold eye_indexed. rewrite decide_False by lia. done.
Qed.

(** One column against [n] columns is stretched as well, and the result
    does not fit the slice it is stored in. *)
Lemma A_f_slice_one_column n (A_fft : cmatrix) f :
  rect n 1 A_fft → (1 < n)%nat → A_f_slice n 1 A_fft f = Raise ValueError.
Proof.
  intros HF Hn. pose proof HF as [Hlen Hrows].
  pose proof (rect_exp_term n f) as [Hle Hre].
  set (P := (λ ab : cvector * cvector, map (Cmul (ab.1 !!! 0%nat)) ab.2)
              <$> zip A_fft (exp_term n f)).
  assert (HP : rect n n P).
  { split; [unfold P; rewrite length_fmap, length_zip; lia|].
    apply Forall_fmap, Forall_forall. intros [a b] Hab. simpl. rewrite length_map.
    apply elem_of_zip_r in Hab. rewrite Forall_forall in Hre. by apply Hre. }
  assert (Hmul : mul2 A_fft (exp_term n f) = Ok P).
  { unfold mul2. unfold broadcast at 1. rewrite decide_True by lia.
    apply forM_Ok. intros [a b] Hab. simpl.
    pose proof (elem_of_zip_l _ _ _ _ Hab) as Ha.
    pose proof (elem_of_zip_r _ _ _ _ Hab) as Hb.
    rewrite Forall_forall in Hrows. rewrite Forall_forall in Hre.
    specialize (Hrows _ Ha). specialize (Hre _ Hb).
    destruct a as [|x [|x' a]]; [done| |done].
    rewrite broadcast_left_singleton by lia. by apply forM_Ok. }
  set (E := map (λ i, replicate n (eye i 0)) (seq 0 n)).
  assert (HE : rect n n E).
  { split; [unfold E; by rewrite length_map, length_seq|].
    apply Forall_fmap, Forall_forall. intros i _. simpl. by rewrite length_replicate. }
  assert (Hsub : isub2 P (map (λ i, map (λ j, eye i j) (seq 0 1)) (seq 0 n))
                 = Ok (zip_with (zip_with Csub) P E)).
  { unfold isub2, assign2. pose proof HP as [HlP _]. rewrite HlP.
    rewrite (ncols_rect n n) by (done || lia).
    rewrite stretch_same by (by rewrite length_map, length_seq). py_step.
    rewrite (forM_Ok _ (λ row : cvector, replicate n (row !!! 0%nat))).
    - py_step. do 2 f_equal. unfold E. rewrite <- list_fmap_compose. done.
    - intros row Hrow. apply list_elem_of_fmap in Hrow as (i & -> & _).
      cbn [seq map]. by rewrite stretch_singleton by lia. }
  unfold A_f_slice. rewrite Hmul. py_step.
  unfold eye_indexed. rewrite decide_True by lia. py_step.
  rewrite Hsub. py_step.
  pose proof (rect_zip_with Csub n n P E HP HE) as HQ.
  destruct (rect_cons n n _ HQ) as (row & rest & HeqQ & Hrow); [lia|].
  rewrite HeqQ in *. destruct HQ as [HlQ _].
  unfold assign2. rewrite stretch_same by done.
  py_step. cbn [forM]. rewrite stretch_raises by lia. done.
Qed.

(** Otherwise the product of the transform and the exponentials fails. *)
Lemma A_f_slice_mismatch n m (A_fft : cmatrix) f :
  rect n m A_fft → (1 < n)%nat → (1 < m)%nat → n ≠ m →
  A_f_slice n m A_fft f = Raise ValueError.
Proof.
  intros HF Hn Hm Hnm.
  destruct (rect_cons n m _ HF) as (row & rest & -> & Hrow); [lia|].
  destruct (rect_cons n n _ (rect_exp_term n f)) as (erow & erest & Heq & Herow); [lia|].
  destruct HF as [Hlen _]. pose proof (rect_exp_term n f) as [Hle _].
  unfold A_f_slice, mul2. rewrite Heq in *.
  unfold broadcast at 1. rewrite decide_True by (simpl in *; lia).
  cbn [zip zip_with forM fst snd].
  rewrite broadcast_mismatch by lia. done.
Qed.

(** X3: [compute_A_f] accepts square coefficient arrays only.  On an
    array of [n] rows and [m <> n] columns, and a grid that is not empty, it
    raises: IndexError for a single row, where the identity is indexed out
    of range, ValueError otherwise, where two shapes do not broadcast. *)
Theorem compute_A_f_rejects_non_square (n m : nat) (A_n : matrix) (F : nat) (lo hi : R) :
  rect n m A_n → (0 < n)%nat → (0 < m)%nat → n ≠ m → (0 < F)%nat →
  compute_A_f A_n F lo hi
  = Raise (if decide (n = 1)%nat then IndexError else ValueError).
Proof.
  intros HA Hn Hm Hnm HF.
  destruct (fft2_rect n m A_n HA Hn Hm) as (A_fft & Hfft & Hshape).
  destruct (linspace_cons lo hi F HF) as (f & rest & Hgrid).
  unfold compute_A_f. rewrite Hfft, Hgrid. py_step.
  rewrite (ncols_rect n m) by done. destruct HA as [-> _]. cbn [forM].
  destruct (decide (n = 1)%nat) as [->|Hn1].
  - rewrite A_f_slice_one_row by (done || lia). done.
  - destruct (decide (m = 1)%nat) as [->|Hm1].
    + rewrite A_f_slice_one_column by (done || lia). done.
    + rewrite A_f_slice_mismatch by (done || lia). done.
Qed.

Lemma compute_A_f_rejects_non_square_witness :
  compute_A_f Samples.one_by_two 10 0.01 0.1
  = Raise (if decide (1 = 1)%nat then IndexError else ValueError).
Proof.
  apply (compute_A_f_rejects_non_square 1 2 Samples.one_by_two 10 0.01 0.1);
    first [lia | repeat constructor].
Defined.

End TransferFacts.

(** ** The spectral density: compute_E_f, compute_V, compute_S_f *)

Module VarianceFacts.
Import mGrangerdDTF TransferFacts SpectralFacts.

Local Open Scope R_scope.

Lemma length_fft (a : cvector) : length (fft a) = length a.
Proof. unfold fft. by rewrite length_map, length_seq. Qed.

(** One slice of [compute_E_f]: the FFT of every column of the residuals. *)
Lemma rect_E_f_slice T C (errors : matrix) :
  rect T C errors → (0 < T)%nat → (0 < C)%nat →
  rect T C (transpose (map (λ column, fft (map RtoC column)) (transpose errors))).
Proof.
  intros He HT HC. apply rect_transpose; [|done].
  pose proof (rect_transpose T C errors He HT) as [Hlen Hrows].
  split; [by rewrite length_map|].
  apply Forall_fmap. eapply Forall_impl; [exact Hrows|]. intros column Hcol. simpl.
  by rewrite length_fft, length_map.
Qed.

Lemma concat_rect_nonempty {X} r c (m : list (list X)) :
  rect r c m → (0 < r)%nat → (0 < c)%nat → concat m ≠ [].
Proof.
  intros Hm Hr Hc. destruct (rect_cons r c m Hm Hr) as (row & rest & -> & Hrow).
  simpl. destruct row; [simpl in Hrow; lia|done].
Qed.

Lemma sum_squares_nonneg (mean : C) (zs : list C) :
  0 <= foldr (λ z acc, (let d := Csub z mean in re d * re d + im d * im d) + acc) 0 zs.
Proof.
  induction zs as [|z zs IH]; cbn [foldr]; [lra|]. cbv zeta.
  pose proof (Rle_0_sqr (re (Csub z mean))) as Hre.
  pose proof (Rle_0_sqr (im (Csub z mean))) as Him.
  unfold Rsqr in *. lra.
Qed.

Lemma np_var_nonneg (zs : list C) : zs ≠ [] → ∃ v, np_var zs = Ok v ∧ 0 <= v.
Proof.
  intros Hne. destruct zs as [|z zs]; [done|]. eexists. split; [done|].
  apply Rmult_le_pos; [apply sum_squares_nonneg|].
  left. apply Rinv_0_lt_compat. apply lt_0_INR. simpl. lia.
Qed.

Lemma forM_replicate {X Y} (f : X → py Y) (x : X) (y : Y) n :
  f x = Ok y → forM f (replicate n x) = Ok (replicate n y).
Proof. intros Hf. induction n as [|n IH]; simpl; [done|]. by rewrite Hf, IH. Qed.

(** On residuals that have a row [compute_E_f] returns, the same slice for
    every frequency. *)
Lemma compute_E_f_rows (errors : matrix) (lo hi : R) (F : nat) :
  (0 < length errors)%nat →
  compute_E_f errors lo hi F
  = Ok (replicate F (transpose (map (λ column, fft (map RtoC column)) (transpose errors)))).
Proof. intros Hrows. unfold compute_E_f. destruct F, errors; simpl in *; done || lia. Qed.

(** X8: the pooled residual variance is one number: on residuals of
    [T > 0] rows and [C > 0] columns [compute_V] of [compute_E_f] returns the
    same non-negative value for every frequency index, whatever the band
    and the number of frequencies. *)
Theorem variance_is_the_same_at_every_frequency (T C : nat) (errors : matrix) :
  rect T C errors → (0 < T)%nat → (0 < C)%nat →
  ∃ v, 0 <= v
    ∧ ∀ lo hi F, ∃ errors_f, compute_E_f errors lo hi F = Ok errors_f
                   ∧ compute_V errors_f = Ok (replicate F v).
Proof.
  intros He HT HC.
  destruct (np_var_nonneg
              (concat (transpose (map (λ column, fft (map RtoC column)) (transpose errors)))))
    as (v & Hv & Hpos).
  { apply (concat_rect_nonempty T C); [|done|done]. by apply rect_E_f_slice. }
  exists v. split; [done|]. intros lo hi F.
  rewrite (compute_E_f_rows errors lo hi F) by (destruct He as [Hlen _]; lia).
  eexists. split; [done|]. unfold compute_V. by apply forM_replicate.
Qed.

Lemma variance_is_the_same_at_every_frequency_witness :
  ∃ v, 0 <= v
    ∧ ∀ lo hi F, ∃ errors_f, compute_E_f Samples.ramp lo hi F = Ok errors_f
                   ∧ compute_V errors_f = Ok (replicate F v).
Proof.
  apply (variance_is_the_same_at_every_frequency 5 1 Samples.ramp);
    first [lia | repeat constructor].
Defined.

(** *** compute_S_f on the output of compute_H_h *)

Lemma item2_zip_with {X Y Z} `{Inhabited X, Inhabited Y, Inhabited Z} (g : X → Y → Z)
    rows cols (a : list (list X)) (b : list (list Y)) i j :
  rect rows cols a → rect rows cols b → (i < rows)%nat → (j < cols)%nat →
  item2 (zip_with (zip_with g) a b) i j = g (item2 a i j) (item2 b i j).
Proof.
  intros Ha Hb Hi Hj.
  pose proof (cell_zip_with g rows cols a b i j Ha Hb Hi Hj) as Hcell.
  rewrite (cell_item2 rows cols) in Hcell by (by apply rect_zip_with || done).
  by injection Hcell.
Qed.

Lemma lookup_total_table {X} `{Inhabited X} (g : nat → X) n f :
  (f < n)%nat → (g <$> seq 0 n) !!! f = g f.
Proof.
  intros Hf. apply list_lookup_total_correct.
  by rewrite list_lookup_fmap, lookup_seq_lt.
Qed.

Lemma conj_product (v : R) (a b : C) :
  Cconj (Cmul (Cscale v a) (Cconj b)) = Cmul (Cscale v b) (Cconj a).
Proof. destruct a, b. unfold Cconj, Cmul, Cscale. simpl. f_equal; ring. Qed.

(** X9: with [H_h] from [compute_H_h], [compute_S_f] multiplies entry by
    entry, [S(f)[i, j] = V(f) H(f)[i, j] conj (H(f)[j, i])], not as a
    matrix product; every slice of the result is Hermitian. *)
Theorem S_f_is_entrywise_and_hermitian (n : nat) (H : ctensor) (V : list R) :
  rect3 n n H → length V = length H →
  ∃ H_h S, compute_H_h H = Ok H_h
    ∧ compute_S_f H H_h V = Ok S
    ∧ length S = length H
    ∧ ∀ f i j, (f < length H)%nat → (i < n)%nat → (j < n)%nat →
        item3 S f i j = Cmul (Cscale (V !!! f) (item3 H f i j)) (Cconj (item3 H f j i))
        ∧ item3 S f j i = Cconj (item3 S f i j).
Proof.
  intros HH HV. rewrite (compute_H_h_slices n) by done.
  set (H_h := (λ m, map (map Cconj) (transpose m)) <$> H).
  assert (Hshape : rect3 n n H_h).
  { apply Forall_fmap. eapply Forall_impl; [exact HH|]. intros m Hm. simpl.
    by apply rect_conj_transpose. }
  assert (Hlen : length H_h = length H) by (unfold H_h; by rewrite length_fmap).
  exists H_h. rewrite (compute_S_f_slices n n) by done.
  eexists. split; [done|]. split; [done|]. split.
  { by rewrite length_fmap, length_seq. }
  assert (Hcell : ∀ f i j, (f < length H)%nat → (i < n)%nat → (j < n)%nat →
            item3 ((λ f, zip_with (zip_with Cmul)
                           (map (map (Cscale (V !!! f))) (H !!! f)) (H_h !!! f))
                   <$> seq 0 (length H)) f i j
            = Cmul (Cscale (V !!! f) (item3 H f i j)) (Cconj (item3 H f j i))).
  { intros f i j Hf Hi Hj. unfold item3.
    rewrite (lookup_total_table
               (λ f, zip_with (zip_with Cmul)
                       (map (map (Cscale (V !!! f))) (H !!! f)) (H_h !!! f))) by done.
    assert (Hm : rect n n (H !!! f)) by (by apply rect3_lookup).
    rewrite (item2_zip_with Cmul n n);
      [|by apply rect_map|apply rect3_lookup; [done|lia]|done|done].
    rewrite (item2_map _ n n) by done. f_equal.
    unfold H_h.
    rewrite (list_lookup_total_fmap (λ m : cmatrix, map (map Cconj) (transpose m)) H f)
      by done.
    by apply (item2_conj_transpose n). }
  intros f i j Hf Hi Hj. split; [by apply Hcell|].
  rewrite !Hcell by done. by rewrite conj_product.
Qed.

Lemma S_f_is_entrywise_and_hermitian_witness :
  ∃ H_h S, compute_H_h Samples.unit_transfer = Ok H_h
    ∧ compute_S_f Samples.unit_transfer H_h [2] = Ok S
    ∧ length S = length Samples.unit_transfer
    ∧ ∀ f i j, (f < length Samples.unit_transfer)%nat → (i < 2)%nat → (j < 2)%nat →
        item3 S f i j
        = Cmul (Cscale ([2] !!! f) (item3 Samples.unit_transfer f i j))
               (Cconj (item3 Samples.unit_transfer f j i))
        ∧ item3 S f j i = Cconj (item3 S f i j).
Proof.
  apply (S_f_is_entrywise_and_hermitian 2 Samples.unit_transfer [2]); repeat constructor.
Defined.

Lemma zero_variance_surfaces_as_LinAlgError_witness :
  ∃ S_f, compute_S_f Samples.unit_transfer Samples.unit_transfer [0] = Ok S_f
    ∧ compute_partial_coherence S_f = Raise LinAlgError.
Proof.
  apply (CoherenceFacts.zero_variance_surfaces_as_LinAlgError 2 Samples.zero_residuals_f
           Samples.unit_transfer Samples.unit_transfer [0] 0);
    first [lia | exact compute_V_zero_residuals | repeat constructor].
Defined.

End VarianceFacts.

(** ** Normalisation and partial coherence *)

Module NormalisationFacts.
Import mGrangerdDTF CoherenceFacts.

Local Open Scope R_scope.

Lemma np_min_lower (xs : list R) (m x : R) : np_min xs = Ok m → x ∈ xs → m <= x.
Proof.
  destruct xs as [|x0 xs]; simpl; [done|]. intros [= <-]. revert x.
  induction xs as [|x1 xs IH]; intros x Hx; simpl.
  - apply list_elem_of_singleton in Hx as ->. lra.
  - apply elem_of_cons in Hx as [->|Hx].
    + etrans; [apply Rmin_r|]. apply (IH x0). by left.
    + apply elem_of_cons in Hx as [->|Hx]; [apply Rmin_l|].
      etrans; [apply Rmin_r|]. apply (IH x). by right.
Qed.

Lemma np_min_in (xs : list R) (m : R) : np_min xs = Ok m → m ∈ xs.
Proof.
  destruct xs as [|x0 xs]; simpl; [done|]. intros [= <-].
  induction xs as [|x1 xs IH]; simpl; [by left|].
  unfold Rmin at 1. destruct (Rle_dec x1 (foldr Rmin x0 xs)).
  - right. by left.
  - apply elem_of_cons in IH as [->|IH]; [by left|]. right. by right.
Qed.

Lemma np_max_in (xs : list R) (m : R) : np_max xs = Ok m → m ∈ xs.
Proof.
  destruct xs as [|x0 xs]; simpl; [done|]. intros [= <-].
  induction xs as [|x1 xs IH]; simpl; [by left|].
  unfold Rmax at 1. destruct (Rle_dec x1 (foldr Rmax x0 xs)).
  - apply elem_of_cons in IH as [->|IH]; [by left|]. right. by right.
  - right. by left.
Qed.

Lemma np_min_nonempty (xs : list R) : xs ≠ [] → ∃ m, np_min xs = Ok m.
Proof. destruct xs; [done|]. simpl. eauto. Qed.

Lemma np_max_nonempty (xs : list R) : xs ≠ [] → ∃ m, np_max xs = Ok m.
Proof. destruct xs; [done|]. simpl. eauto. Qed.

Lemma Cabs_eq_0 (z : C) : Cabs z = 0 → z = C0.
Proof.
  unfold Cabs. intros Hz. apply sqrt_eq_0 in Hz; [|nra].
  destruct z as [a b]. simpl in *. unfold C0.
  assert (a = 0) by nra. assert (b = 0) by nra. by subst.
Qed.

Lemma elem_of_concat {X} (x : X) (ls : list (list X)) :
  x ∈ concat ls ↔ ∃ l, x ∈ l ∧ l ∈ ls.
Proof.
  induction ls as [|l ls IH]; simpl.
  - split; [by intros ?%elem_of_nil|]. by intros (l & _ & ?%elem_of_nil).
  - rewrite elem_of_app, IH. split.
    + intros [Hx|(l' & Hx & Hl')]; [exists l; split; [done|by left]|].
      exists l'. split; [done|by right].
    + intros (l' & Hx & Hl'). apply elem_of_cons in Hl' as [->|Hl']; [by left|].
      right. eauto.
Qed.

Lemma map3_ext_flat {X Y} (f g : X → Y) (t : list (list (list X))) :
  (∀ x, x ∈ flat t → f x = g x) → map3 f t = map3 g t.
Proof.
  unfold flat, map3. intros Hfg.
  apply Forall_fmap_ext_1, Forall_forall. intros m Hm.
  apply Forall_fmap_ext_1, Forall_forall. intros row Hrow.
  apply Forall_fmap_ext_1, Forall_forall. intros x Hx.
  apply Hfg. apply elem_of_concat. exists row. split; [done|].
  apply elem_of_concat. by exists m.
Qed.

Lemma normalize_complex_arr_eq (a : ctensor) :
  flat a ≠ [] →
  ∃ real_min imag_min abs_max,
    np_min (map re (flat a)) = Ok real_min
    ∧ np_min (map im (flat a)) = Ok imag_min
    ∧ np_max (map Cabs (offset_by real_min imag_min <$> flat a)) = Ok abs_max
    ∧ normalize_complex_arr a
      = Ok (map3 (λ z, Cdiv_real (offset_by real_min imag_min z) abs_max) a).
Proof.
  intros Hne.
  destruct (np_min_nonempty (map re (flat a))) as [real_min Hre];
    [by destruct (flat a)|].
  destruct (np_min_nonempty (map im (flat a))) as [imag_min Him];
    [by destruct (flat a)|].
  destruct (np_max_nonempty (map Cabs (offset_by real_min imag_min <$> flat a)))
    as [abs_max Hmax]; [by destruct (flat a)|].
  exists real_min, imag_min, abs_max. split_and!; [done..|].
  unfold normalize_complex_arr. rewrite Hre, Him. py_step.
  rewrite flat_map3. fold (offset_by real_min imag_min). rewrite Hmax. py_step.
  f_equal. unfold map3. rewrite <- !list_fmap_compose.
  apply Forall_fmap_ext_1, Forall_forall. intros m _. simpl.
  rewrite <- !list_fmap_compose.
  apply Forall_fmap_ext_1, Forall_forall. intros row _. simpl.
  by rewrite <- !list_fmap_compose.
Qed.

Lemma offset_by_self (z : C) : offset_by (re z) (im z) z = C0.
Proof. destruct z. unfold offset_by. cx_eq. Qed.

Lemma offset_by_eq_0 (real_min imag_min : R) (z : C) :
  offset_by real_min imag_min z = C0 → z = mkC real_min imag_min.
Proof.
  destruct z as [a b]. unfold offset_by, Csub, RtoC, C0. simpl. intros [= Ha Hb].
  f_equal; lra.
Qed.

(** A constant array is normalised to [nan] throughout: its offset is
    zero, and so is the maximum magnitude it is divided by. *)
Lemma normalize_constant (a : ctensor) (z : C) :
  flat a ≠ [] → Forall (eq z) (flat a) →
  normalize_complex_arr a = Ok (map3 (λ _, None) a).
Proof.
  intros Hne Hconst. rewrite Forall_forall in Hconst.
  destruct (normalize_complex_arr_eq a Hne)
    as (real_min & imag_min & abs_max & Hre & Him & Hmax & ->).
  assert (Hr : real_min = re z).
  { apply np_min_in, list_elem_of_fmap in Hre as (w & -> & Hw). by rewrite (Hconst w Hw). }
  assert (Hi : imag_min = im z).
  { apply np_min_in, list_elem_of_fmap in Him as (w & -> & Hw). by rewrite (Hconst w Hw). }
  assert (Hm : abs_max = 0).
  { apply np_max_in, list_elem_of_fmap in Hmax as (w' & -> & Hw').
    apply list_elem_of_fmap in Hw' as (w & -> & Hw).
    rewrite <- (Hconst w Hw), Hr, Hi, offset_by_self. apply Cabs_C0. }
  f_equal. apply map3_ext_flat. intros w _. unfold Cdiv_real.
  by rewrite decide_True.
Qed.

(** X12: on an array that is not empty [normalize_complex_arr] returns
    [nan] in every entry when all entries of the array are equal; otherwise
    no entry is [nan], every entry has non-negative real and imaginary part
    and magnitude at most 1, and the magnitude 1 is attained. *)
Theorem normalize_is_nan_iff_constant (a : ctensor) :
  flat a ≠ [] →
  ∃ b, normalize_complex_arr a = Ok b
    ∧ ((∃ z, Forall (eq z) (flat a)) → Forall (eq None) (flat b))
    ∧ (¬ (∃ z, Forall (eq z) (flat a)) →
       Forall (λ w, ∃ v, w = Some v ∧ 0 <= re v ∧ 0 <= im v ∧ Cabs v <= 1) (flat b)
       ∧ Exists (λ w, ∃ v, w = Some v ∧ Cabs v = 1) (flat b)).
Proof.
  intros Hne.
  destruct (normalize_complex_arr_eq a Hne)
    as (real_min & imag_min & abs_max & Hre & Him & Hmax & Hrun).
  eexists. split; [exact Hrun|]. split.
  - intros [z Hconst]. rewrite (normalize_constant a z Hne Hconst) in Hrun.
    injection Hrun as <-. rewrite flat_map3. apply Forall_fmap, Forall_forall. done.
  - intros Hvary.
    assert (Hpos : 0 < abs_max).
    { destruct (Rle_lt_dec abs_max 0) as [Hle|]; [|done]. exfalso. apply Hvary.
      exists (mkC real_min imag_min). apply Forall_forall. intros w Hw. symmetry.
      apply offset_by_eq_0, Cabs_eq_0.
      pose proof (Cabs_nonneg (offset_by real_min imag_min w)) as Hge.
      assert (Cabs (offset_by real_min imag_min w) <= abs_max); [|lra].
      apply (np_max_upper _ _ _ Hmax). by do 2 apply list_elem_of_fmap_2. }
    rewrite flat_map3. split.
    + apply Forall_fmap, Forall_forall. intros w Hw. simpl.
      unfold Cdiv_real. rewrite decide_False by lra. eexists. split; [done|].
      assert (Hlo_re : real_min <= re w).
      { apply (np_min_lower _ _ _ Hre). by apply list_elem_of_fmap_2. }
      assert (Hlo_im : imag_min <= im w).
      { apply (np_min_lower _ _ _ Him). by apply list_elem_of_fmap_2. }
      assert (Hup : Cabs (offset_by real_min imag_min w) <= abs_max).
      { apply (np_max_upper _ _ _ Hmax). by do 2 apply list_elem_of_fmap_2. }
      split_and!.
      * simpl. apply Rmult_le_pos; [lra|]. left. by apply Rinv_0_lt_compat.
      * simpl. apply Rmult_le_pos; [lra|]. left. by apply Rinv_0_lt_compat.
      * rewrite Cabs_div_real by done.
        apply (Rmult_le_reg_r abs_max); [done|]. unfold Rdiv.
        rewrite Rmult_assoc, Rinv_l by lra. lra.
    + apply np_max_in, list_elem_of_fmap in Hmax as (w' & Hmax & Hw').
      apply list_elem_of_fmap in Hw' as (w & -> & Hw).
      apply Exists_exists. eexists. split; [by apply list_elem_of_fmap_2|].
      simpl. unfold Cdiv_real. rewrite decide_False by lra. eexists. split; [done|].
      rewrite Cabs_div_real by done. rewrite <- Hmax. unfold Rdiv.
      apply Rinv_r. lra.
Qed.

Lemma normalize_is_nan_iff_constant_witness :
  ∃ b, normalize_complex_arr Samples.one_channel_spectrum = Ok b
    ∧ ((∃ z, Forall (eq z) (flat Samples.one_channel_spectrum)) → Forall (eq None) (flat b))
    ∧ (¬ (∃ z, Forall (eq z) (flat Samples.one_channel_spectrum)) →
       Forall (λ w, ∃ v, w = Some v ∧ 0 <= re v ∧ 0 <= im v ∧ Cabs v <= 1) (flat b)
       ∧ Exists (λ w, ∃ v, w = Some v ∧ Cabs v = 1) (flat b)).
Proof. apply (normalize_is_nan_iff_constant Samples.one_channel_spectrum). done. Defined.

(** *** compute_partial_coherence of a single channel *)

(** The cofactor and the raw [theta] of a [1 x 1] slice. *)
Lemma cofactor_slice_1x1 (z : C) :
  z ≠ C0 →
  (inv ← linalg_inv [[z]];
   d ← linalg_det [[z]];
   Ok (map (map (λ w, Cmul w d)) (transpose inv) : cmatrix)) = Ok [[C1]].
Proof.
  intros Hz. rewrite linalg_inv_1x1 by done. py_step.
  rewrite linalg_det_1x1. py_step.
  replace (transpose [[Cinv z]]) with [[Cinv z]] by reflexivity.
  cbn [map]. by rewrite Cmul_Cinv.
Qed.

Lemma theta_slice_1x1 :
  forM (λ i, forM (λ j,
          c_ij ← getitem2 [[C1]] i j;
          c_ii ← getitem2 [[C1]] i i;
          c_jj ← getitem2 [[C1]] j j;
          Cdiv (Cmul c_ij c_ij) (Cmul c_ii c_jj)) (seq 0 1)) (seq 0 1)
  = Ok [[Cmul (Cmul C1 C1) (Cinv (Cmul C1 C1))]].
Proof.
  cbn [seq forM].
  replace (getitem2 [[C1]] 0 0) with (Ok C1) by reflexivity. py_step.
  unfold Cdiv. rewrite decide_False; [done|].
  intros Heq. apply (f_equal re) in Heq. unfold Cmul, C1, C0 in Heq.
  simpl in Heq. lra.
Qed.

Lemma partial_coherence_1x1 (zs : list C) :
  zs ≠ [] → Forall (λ z, z ≠ C0) zs →
  compute_partial_coherence ((λ z, [[z]]) <$> zs) = Ok ((λ _, [[None]]) <$> zs).
Proof.
  intros Hne Hzs. rewrite Forall_forall in Hzs. unfold compute_partial_coherence.
  rewrite (forM_Ok _ (λ _, [[C1]])).
  2:{ intros m Hm. apply list_elem_of_fmap in Hm as (z & -> & Hz).
      apply cofactor_slice_1x1. by apply Hzs. }
  py_step.
  replace (axis1 ((λ z, [[z]]) <$> zs)) with 1%nat by (by destruct zs).
  replace (axis2 ((λ z, [[z]]) <$> zs)) with 1%nat by (by destruct zs).
  rewrite (forM_Ok _ (λ _, [[Cmul (Cmul C1 C1) (Cinv (Cmul C1 C1))]])).
  2:{ intros m Hm. apply list_elem_of_fmap in Hm as (m' & -> & _).
      apply theta_slice_1x1. }
  py_step. rewrite <- !list_fmap_compose.
  rewrite (normalize_constant _ (Cmul (Cmul C1 C1) (Cinv (Cmul C1 C1)))).
  - py_step. f_equal. unfold map3. rewrite <- !list_fmap_compose.
    by apply Forall_fmap_ext_1, Forall_forall.
  - destruct zs; [done|]. done.
  - apply Forall_forall. intros w Hw. unfold flat in Hw.
    apply elem_of_concat in Hw as (row & Hw & Hrow).
    apply elem_of_concat in Hrow as (m & Hrow & Hm).
    apply list_elem_of_fmap in Hm as (z & -> & _).
    apply list_elem_of_singleton in Hrow as ->.
    by apply list_elem_of_singleton in Hw as ->.
Qed.

(** X13: for a single channel the partial coherence carries no
    information, at any number of frequencies: where the spectral density is
    non-zero at every frequency, every entry of the result is [nan]; where
    it is zero at some frequency, the inversion raises LinAlgError. *)
Theorem partial_coherence_of_one_channel_is_nan (zs : list C) :
  zs ≠ [] →
  (Forall (λ z, z ≠ C0) zs →
   compute_partial_coherence ((λ z, [[z]]) <$> zs) = Ok ((λ _, [[None]]) <$> zs))
  ∧ (Exists (λ z, z = C0) zs →
     compute_partial_coherence ((λ z, [[z]]) <$> zs) = Raise LinAlgError).
Proof.
  intros Hne. split.
  - intros Hall. by apply partial_coherence_1x1.
  - intros Hsome. apply Exists_exists in Hsome as (z & Hz & ->).
    apply list_elem_of_lookup in Hz as [f Hf].
    apply (zero_spectrum_is_singular _ f 1); [lia|].
    by rewrite list_lookup_fmap, Hf.
Qed.

Lemma partial_coherence_of_one_channel_is_nan_witness :
  (Forall (λ z, z ≠ C0) [mkC 2 0; mkC 3 0] →
   compute_partial_coherence ((λ z, [[z]]) <$> [mkC 2 0; mkC 3 0])
   = Ok ((λ _, [[None]]) <$> [mkC 2 0; mkC 3 0]))
  ∧ (Exists (λ z, z = C0) [mkC 2 0; mkC 3 0] →
     compute_partial_coherence ((λ z, [[z]]) <$> [mkC 2 0; mkC 3 0])
     = Raise LinAlgError).
Proof. apply (partial_coherence_of_one_channel_is_nan [mkC 2 0; mkC 3 0]). done. Defined.

(** *** A partial coherence that is finite *)

Lemma linalg_inv_identity_2x2 :
  linalg_inv [[C1; C0]; [C0; C1]] = Ok [[C1; C0]; [C0; C1]].
Proof.
  assert (Hdet : det [[C1; C0]; [C0; C1]] = C1).
  { unfold det. simpl. unfold sign. simpl. cx_eq. }
  unfold linalg_inv. rewrite decide_True by (by repeat constructor).
  rewrite Hdet, decide_False.
  2:{ intros Heq. apply (f_equal re) in Heq. simpl in Heq. lra. }
  simpl. unfold cofactor, det, sign. simpl.
  unfold Cmul, Cadd, Cinv, RtoC, C0, C1. simpl.
  f_equal.
  repeat (apply (f_equal2 cons);
          [repeat (apply (f_equal2 cons); [f_equal; field|]); reflexivity|]).
  reflexivity.
Qed.

Lemma Cdiv_by_one (z : C) : Cdiv z (Cmul C1 C1) = Ok z.
Proof.
  unfold Cdiv. rewrite decide_False.
  2:{ intros Heq. apply (f_equal re) in Heq. unfold Cmul, C1, C0 in Heq.
      simpl in Heq. lra. }
  f_equal. destruct z as [a b]. unfold Cmul, Cinv, C1. simpl. f_equal; field.
Qed.

Lemma normalize_identity :
  normalize_complex_arr [[[C1; C0]; [C0; C1]]]
  = Ok [[[Some C1; Some C0]; [Some C0; Some C1]]].
Proof.
  unfold normalize_complex_arr, flat, map3. simpl.
  rewrite !(Rmin_left 1 1), !(Rmin_left 0 1), !(Rmin_left 0 0) by lra.
  replace (Csub (Csub C1 (RtoC 0)) (mkC 0 0)) with C1 by cx_eq.
  replace (Csub (Csub C0 (RtoC 0)) (mkC 0 0)) with C0 by cx_eq.
  rewrite Cabs_C1, Cabs_C0.
  rewrite !(Rmax_left 1 1), !(Rmax_right 0 1) by lra.
  unfold Cdiv_real. rewrite !decide_False by lra. unfold C1, C0. simpl.
  do 2 f_equal.
  repeat (apply (f_equal2 cons);
          [repeat (apply (f_equal2 cons); [do 2 f_equal; field|]); reflexivity|]).
  reflexivity.
Qed.

Lemma partial_coherence_identity :
  compute_partial_coherence Samples.unit_transfer
  = Ok [[[Some 1; Some 0]; [Some 0; Some 1]]].
Proof.
  unfold compute_partial_coherence, Samples.unit_transfer. cbn [forM].
  rewrite linalg_inv_identity_2x2. py_step.
  unfold linalg_det. rewrite decide_True by (by repeat constructor). py_step.
  replace (map (map (λ z, Cmul z (det [[C1; C0]; [C0; C1]])))
             (transpose [[C1; C0]; [C0; C1]]))
    with [[C1; C0]; [C0; C1]].
  2:{ unfold det, transpose. simpl. unfold sign. simpl.
      repeat (apply (f_equal2 cons);
              [repeat (apply (f_equal2 cons); [cx_eq|]); reflexivity|]).
      reflexivity. }
  replace (axis1 [[[C1; C0]; [C0; C1]]]) with 2%nat by reflexivity.
  replace (axis2 [[[C1; C0]; [C0; C1]]]) with 2%nat by reflexivity.
  cbn [seq forM].
  replace (getitem2 [[C1; C0]; [C0; C1]] 0 0) with (Ok C1) by reflexivity.
  replace (getitem2 [[C1; C0]; [C0; C1]] 0 1) with (Ok C0) by reflexivity.
  replace (getitem2 [[C1; C0]; [C0; C1]] 1 0) with (Ok C0) by reflexivity.
  replace (getitem2 [[C1; C0]; [C0; C1]] 1 1) with (Ok C1) by reflexivity.
  py_step. rewrite !Cdiv_by_one. py_step.
  replace (Cmul C1 C1) with C1 by cx_eq. replace (Cmul C0 C0) with C0 by cx_eq.
  rewrite normalize_identity. py_step. unfold map3. simpl.
  by rewrite Cabs_C1, Cabs_C0.
Qed.

Lemma partial_coherence_bounded_when_finite_witness : 0 <= 1 <= 1.
Proof.
  apply (partial_coherence_bounded_when_finite Samples.unit_transfer
           [[[Some 1; Some 0]; [Some 0; Some 1]]] 1 partial_coherence_identity).
  unfold flat. simpl. by left.
Defined.

End NormalisationFacts.

(** ** The whole sequence *)

Module PipelineFacts.
Import mGrangerdDTF TransferFacts CoherenceFacts NormalisationFacts.

Local Open Scope R_scope.

Lemma fft2_outcome (A_n : matrix) :
  fft2 A_n = Raise ValueError ∨ ∃ A_fft, fft2 A_n = Ok A_fft.
Proof. unfold fft2. destruct (decide _); eauto. Qed.

(** X14: with [num_frequencies = 0] the constructor raises ValueError:
    every stage up to the cross-spectra returns an array without slices,
    and the normalisation of the partial coherence takes the minimum of an
    empty array. *)
Theorem no_frequencies_raise_ValueError (VAR_fit : matrix → nat → py tensor)
    (data : matrix) (order : nat) (lo hi : R) (A_n errors : matrix) :
  compute_A_n VAR_fit data order = Ok A_n →
  compute_E data (Arr2 A_n) = Ok errors →
  execute_sequence VAR_fit data order 0 lo hi = Raise ValueError.
Proof.
  intros HA HE. unfold execute_sequence. rewrite HA. py_step. rewrite HE. py_step.
  unfold compute_A_f.
  destruct (fft2_outcome A_n) as [->|[A_fft ->]]; [done|]. py_step.
  replace (linspace lo hi 0) with (@nil R) by reflexivity. done.
Qed.

(** The residuals of the step series under the identity coefficients. *)
Lemma step_E :
  compute_E Samples.step_series (Arr2 Samples.identity_coefficients)
  = Ok Samples.step_residuals.
Proof.
  unfold compute_E. simpl. unfold row_step, lag_step. simpl. unfold dot. simpl.
  f_equal. ComputeEFacts.matrix_eq.
Qed.

Lemma no_frequencies_raise_ValueError_witness :
  execute_sequence Samples.identity_fit Samples.step_series 1 0 0.01 0.1 = Raise ValueError.
Proof.
  apply (no_frequencies_raise_ValueError Samples.identity_fit Samples.step_series 1
           0.01 0.1 Samples.identity_coefficients Samples.step_residuals);
    [reflexivity | exact step_E].
Defined.

(** *** Shapes along the sequence *)

Lemma stretch_Ok_length {X} n (l l' : list X) : stretch n l = Ok l' → length l' = n.
Proof.
  unfold stretch. destruct (decide (length l = n)) as [Hl|_]; [by intros [= <-]|].
  destruct l as [|x [|y l]]; [done| |done]. intros [= <-]. by rewrite length_replicate.
Qed.

Lemma assign2_Ok_rect {X} r c (v v' : list (list X)) :
  assign2 r c v = Ok v' → rect r c v'.
Proof.
  unfold assign2. destruct (stretch r v) as [v1| |] eqn:Hv1; py_step; [|done..].
  intros Hrows. split.
  - erewrite forM_length by done. by eapply stretch_Ok_length.
  - apply Forall_lookup. intros i row' Hi.
    assert (Hlt : (i < length v1)%nat).
    { erewrite <- forM_length by done. by eapply lookup_lt_Some. }
    destruct (lookup_lt_is_Some_2 v1 i Hlt) as [row Hrow].
    destruct (forM_lookup _ _ _ _ _ Hrows Hrow) as (row'' & Hrow'' & Hstretch).
    rewrite Hi in Hrow''. injection Hrow'' as <-. by eapply stretch_Ok_length.
Qed.

Lemma compute_S_f_shape n (H H_h S : ctensor) (V : list R) :
  rect3 n n H → (0 < n)%nat → compute_S_f H H_h V = Ok S →
  length S = length H ∧ rect3 n n S.
Proof.
  intros HH Hn HS. unfold compute_S_f in HS.
  assert (Hlen : length S = length H).
  { apply forM_length in HS. by rewrite length_seq in HS. }
  split; [done|]. apply Forall_lookup. intros f s Hf.
  assert (Hlt : (f < length H)%nat).
  { rewrite <- Hlen. by eapply lookup_lt_Some. }
  destruct (forM_lookup _ _ _ _ f HS (lookup_seq_lt 0 _ _ Hlt)) as (s' & Hs' & Hbody).
  rewrite Hf in Hs'. injection Hs' as <-. simpl in Hbody.
  rewrite (getitem_total H f) in Hbody by lia.
  cbn [mbind py_bind] in Hbody.
  destruct (getitem V f) as [v| |]; cbn [mbind py_bind] in Hbody; [|done..].
  destruct (getitem H_h f) as [hh| |]; cbn [mbind py_bind] in Hbody; [|done..].
  destruct (mul2 _ hh) as [p| |]; cbn [mbind py_bind] in Hbody; [|done..].
  apply assign2_Ok_rect in Hbody.
  pose proof (rect3_lookup n n H f HH Hlt) as Hh.
  rewrite (ncols_rect n n) in Hbody by done.
  destruct Hh as [Hl _]. by rewrite Hl in Hbody.
Qed.

End PipelineFacts.

(** ** compute_dDTF on arrays that do not match *)

Module AggregationFacts.
Import mGrangerdDTF dDTFFacts.

Section TooFewSlices.

Context {X Y Z : Type} `{Inhabited X, Inhabited Y}.
Context (zero : Z) (add : Z → Z → Z) (mul : X → Y → Z).
Variables (rows cols : nat) (h_ij : list (list (list X))) (theta_ij : list (list (list Y))).
Hypothesis Hh : rect3 rows cols h_ij.
Hypothesis Htheta : rect3 rows cols theta_ij.
Hypothesis Hshort : length h_ij < length theta_ij.

Lemma accumulate_in_range i j d acc f :
  i < rows → j < cols → f < length h_ij → cell d i j = Some acc →
  ∃ d' acc', accumulate add mul h_ij theta_ij i j d f = Ok d' ∧ cell d' i j = Some acc'.
Proof.
  intros Hi Hj Hf Hacc. unfold accumulate.
  rewrite (cell_getitem2 _ _ _ _ Hacc). py_step.
  rewrite (getitem3_rect rows cols h_ij) by done. py_step.
  rewrite (getitem3_rect rows cols theta_ij) by (done || lia). py_step.
  eexists _, _. split; [done|]. by eapply cell_alter_same.
Qed.

Lemma accumulate_out_of_range i j d acc :
  cell d i j = Some acc →
  accumulate add mul h_ij theta_ij i j d (length h_ij) = Raise IndexError.
Proof.
  intros Hacc. unfold accumulate. rewrite (cell_getitem2 _ _ _ _ Hacc). py_step.
  assert (Hout : getitem3 h_ij (length h_ij) i j = Raise IndexError).
  { unfold getitem3, getitem. rewrite lookup_ge_None_2 by lia. done. }
  by rewrite Hout.
Qed.

Lemma slices_in_range i j k : ∀ a d acc,
  i < rows → j < cols → a + k ≤ length h_ij → cell d i j = Some acc →
  ∃ d' acc', foldM (accumulate add mul h_ij theta_ij i j) d (seq a k) = Ok d'
    ∧ cell d' i j = Some acc'.
Proof.
  induction k as [|k IH]; intros a d acc Hi Hj Hk Hacc; cbn [seq].
  - by exists d, acc.
  - rewrite foldM_cons.
    destruct (accumulate_in_range i j d acc a) as (d1 & acc1 & -> & Hacc1);
      [done|done|lia|done|].
    py_step. apply (IH (S a) d1 acc1); [done|done|lia|done].
Qed.

Lemma slices_loop_raises i j d acc :
  i < rows → j < cols → cell d i j = Some acc →
  foldM (accumulate add mul h_ij theta_ij i j) d (seq 0 (length theta_ij))
  = Raise IndexError.
Proof.
  intros Hi Hj Hacc.
  replace (length theta_ij) with (length h_ij + S (length theta_ij - S (length h_ij)))
    by lia.
  rewrite seq_app, foldM_app.
  destruct (slices_in_range i j (length h_ij) 0 d acc) as (d' & acc' & -> & Hacc');
    [done|done|lia|done|].
  py_step. cbn [seq]. rewrite foldM_cons. simpl.
  by rewrite (accumulate_out_of_range i j d' acc').
Qed.

End TooFewSlices.

(** X16: [compute_dDTF] takes the number of slices from [theta_ij]; when
    [h_ij] has fewer slices, the sum of the first cell runs off the end of
    [h_ij] and raises IndexError. *)
Theorem compute_dDTF_too_few_transfer_slices {X Y Z : Type} `{Inhabited X, Inhabited Y}
    (zero : Z) (add : Z → Z → Z) (mul : X → Y → Z) (rows cols : nat)
    (h_ij : list (list (list X))) (theta_ij : list (list (list Y))) :
  rect3 rows cols h_ij → rect3 rows cols theta_ij →
  length h_ij < length theta_ij → 0 < rows → 0 < cols →
  compute_dDTF zero add mul h_ij theta_ij = Raise IndexError.
Proof.
  intros Hh Htheta Hshort Hrows Hcols. unfold compute_dDTF.
  assert (Haxis1 : axis1 theta_ij = rows).
  { destruct theta_ij as [|t0 t]; [simpl in Hshort; lia|].
    apply Forall_cons in Htheta as [[Hl _] _]. done. }
  assert (Haxis2 : axis2 theta_ij = cols).
  { destruct theta_ij as [|t0 t]; [simpl in Hshort; lia|].
    apply Forall_cons in Htheta as [Ht0 _]. by apply (ncols_rect rows cols). }
  rewrite Haxis1, Haxis2.
  destruct rows as [|rows']; [lia|]. destruct cols as [|cols']; [lia|].
  cbn [seq]. rewrite foldM_cons, foldM_cons.
  rewrite (slices_loop_raises add mul (S rows') (S cols') h_ij theta_ij Hh Htheta Hshort
             0 0 _ zero); [done|lia|lia|].
  apply cell_replicate; lia.
Qed.

Lemma compute_dDTF_too_few_transfer_slices_witness :
  compute_dDTF C0 Cadd (λ h th, Cscale th h) [[[C1]]] Samples.two_slices_theta
  = Raise IndexError.
Proof.
  apply (compute_dDTF_too_few_transfer_slices C0 Cadd (λ h th, Cscale th h) 1 1
           [[[C1]]] Samples.two_slices_theta);
    first [simpl; lia | lia | repeat constructor].
Defined.

End AggregationFacts.

(** ** in_out_degree *)

Module DegreeFacts.
Import mGrangerdDTF TransferFacts.

Local Open Scope R_scope.

Lemma np_sum_plus {X} (f g : X → R) (xs : list X) :
  np_sum (map (λ x, f x + g x) xs) = np_sum (map f xs) + np_sum (map g xs).
Proof. unfold np_sum. induction xs as [|x xs IH]; simpl; [lra|]. rewrite IH. lra. Qed.

Lemma np_sum_zeros {X} (xs : list X) : np_sum (map (λ _, 0) xs) = 0.
Proof. unfold np_sum. induction xs as [|x xs IH]; simpl; [done|]. rewrite IH. lra. Qed.

Lemma np_sum_nonneg (xs : list R) : Forall (λ x, 0 <= x) xs → 0 <= np_sum xs.
Proof. unfold np_sum. induction 1 as [|x xs Hx _ IH]; simpl; lra. Qed.

Lemma entries_by_index {X} `{Inhabited X} (row : list X) :
  map (λ j, row !!! j) (seq 0 (length row)) = row.
Proof.
  apply list_eq. intros j. rewrite list_lookup_fmap.
  destruct (decide (j < length row)%nat) as [Hj|Hj].
  - rewrite lookup_seq_lt by done. simpl. symmetry.
    by apply list_lookup_lookup_total_lt.
  - rewrite lookup_seq_ge by lia. simpl. symmetry. apply lookup_ge_None_2. lia.
Qed.

(** The sum of the row sums is the sum of the column sums. *)
Lemma sum_rows_columns (c : nat) (m : matrix) :
  Forall (λ row, length row = c) m →
  np_sum (map np_sum m)
  = np_sum (map (λ j, np_sum (map (λ row, row !!! j) m)) (seq 0 c)).
Proof.
  induction 1 as [|row m Hrow _ IH].
  - simpl. by rewrite np_sum_zeros.
  - change (np_sum (map np_sum (row :: m))) with (np_sum row + np_sum (map np_sum m)).
    change (np_sum row + np_sum (map np_sum m)
            = np_sum (map (λ j, row !!! j + np_sum (map (λ row, row !!! j) m)) (seq 0 c))).
    rewrite (np_sum_plus (λ j, row !!! j) (λ j, np_sum (map (λ row, row !!! j) m))).
    rewrite <- IH, <- Hrow, entries_by_index. done.
Qed.

Lemma sum_axis0_rect n (m : matrix) :
  rect n n m → sum_axis0 m = map (λ j, np_sum (map (λ row, row !!! j) m)) (seq 0 n).
Proof.
  intros Hm. unfold sum_axis0. destruct (decide (n = 0)%nat) as [->|Hn].
  - destruct Hm as [Hl _]. apply nil_length_inv in Hl. by rewrite Hl.
  - by rewrite (ncols_rect n n) by (done || lia).
Qed.

(** X17: on a square matrix [in_out_degree] returns the row sums of the
    magnitudes as in-degree, the column sums as out-degree and their
    entrywise sum; the in-degrees and the out-degrees add up to the same
    total. *)
Theorem in_out_degree_of_square_matrix (n : nat) (d : cmatrix) :
  rect n n d →
  ∃ in_degree out_degree in_and_out,
    in_out_degree d = Ok (in_degree, out_degree, in_and_out)
    ∧ in_degree = map (λ i, np_sum (map (λ j, Cabs (item2 d i j)) (seq 0 n))) (seq 0 n)
    ∧ out_degree = map (λ j, np_sum (map (λ i, Cabs (item2 d i j)) (seq 0 n))) (seq 0 n)
    ∧ in_and_out = zip_with Rplus in_degree out_degree
    ∧ np_sum in_degree = np_sum out_degree.
Proof.
  intros Hd.
  assert (HM : rect n n (map (map Cabs) d)) by by apply rect_map.
  set (M := map (map Cabs) d) in *.
  assert (Hrows : M = map (λ i, map (λ j, Cabs (item2 d i j)) (seq 0 n)) (seq 0 n)).
  { destruct HM as [Hlen Hall]. rewrite <- (entries_by_index M), Hlen.
    apply Forall_fmap_ext_1, Forall_forall. intros i Hi. apply elem_of_seq in Hi.
    destruct (rect_row n n M i (conj Hlen Hall)) as [_ Hrow]; [lia|].
    rewrite <- (entries_by_index (M !!! i)), Hrow.
    apply Forall_fmap_ext_1, Forall_forall. intros j Hj. apply elem_of_seq in Hj.
    apply (item2_map Cabs n n d i j Hd); lia. }
  assert (Hin : sum_axis1 M
                = map (λ i, np_sum (map (λ j, Cabs (item2 d i j)) (seq 0 n))) (seq 0 n)).
  { unfold sum_axis1. rewrite Hrows at 1. by rewrite <- list_fmap_compose. }
  assert (Hout : sum_axis0 M
                 = map (λ j, np_sum (map (λ i, Cabs (item2 d i j)) (seq 0 n))) (seq 0 n)).
  { rewrite (sum_axis0_rect n) by done.
    apply Forall_fmap_ext_1, Forall_forall. intros j Hj. apply elem_of_seq in Hj.
    f_equal. rewrite Hrows at 1. rewrite <- list_fmap_compose.
    apply Forall_fmap_ext_1, Forall_forall. intros i Hi. apply elem_of_seq in Hi. simpl.
    apply list_lookup_total_correct. by rewrite list_lookup_fmap, lookup_seq_lt by lia. }
  assert (Hsum : np_sum (sum_axis1 M) = np_sum (sum_axis0 M)).
  { rewrite (sum_axis0_rect n) by done. apply sum_rows_columns. by destruct HM. }
  unfold in_out_degree. fold M.
  rewrite (broadcast_same_length _ Rplus); [|by rewrite Hin, Hout, !length_map|done].
  py_step. eexists _, _, _. split; [done|]. by rewrite <- Hin, <- Hout.
Qed.

Lemma in_out_degree_of_square_matrix_witness :
  ∃ in_degree out_degree in_and_out,
    in_out_degree [[C1; C0]; [C0; C1]] = Ok (in_degree, out_degree, in_and_out)
    ∧ in_degree = map (λ i, np_sum (map (λ j, Cabs (item2 [[C1; C0]; [C0; C1]] i j))
                                        (seq 0 2))) (seq 0 2)
    ∧ out_degree = map (λ j, np_sum (map (λ i, Cabs (item2 [[C1; C0]; [C0; C1]] i j))
                                         (seq 0 2))) (seq 0 2)
    ∧ in_and_out = zip_with Rplus in_degree out_degree
    ∧ np_sum in_degree = np_sum out_degree.
Proof.
  apply (in_out_degree_of_square_matrix 2 [[C1; C0]; [C0; C1]]). repeat constructor.
Defined.

(** X18: on a matrix that is not square, with more than one row and more
    than one column, the in-degree and the out-degree differ in length and
    their sum raises ValueError. *)
Theorem in_out_degree_rejects_non_square (r c : nat) (d : cmatrix) :
  rect r c d → (1 < r)%nat → (1 < c)%nat → r ≠ c →
  in_out_degree d = Raise ValueError.
Proof.
  intros Hd Hr Hc Hrc. unfold in_out_degree.
  rewrite broadcast_mismatch; [done|..].
  - unfold sum_axis1, sum_axis0. rewrite !length_map, length_seq.
    rewrite (ncols_rect r c) by (by apply rect_map || lia). destruct Hd as [Hl _]. lia.
  - unfold sum_axis1. rewrite !length_map. destruct Hd as [Hl _]. lia.
  - unfold sum_axis0. rewrite length_map, length_seq.
    rewrite (ncols_rect r c) by (by apply rect_map || lia). lia.
Qed.

Lemma in_out_degree_rejects_non_square_witness :
  in_out_degree [[C1; C0; C0]; [C0; C1; C0]] = Raise ValueError.
Proof.
  apply (in_out_degree_rejects_non_square 2 3 [[C1; C0; C0]; [C0; C1; C0]]);
    first [lia | repeat constructor].
Defined.

Lemma Cabs_of_Cabs (z : C) : Cabs (RtoC (Cabs z)) = Cabs z.
Proof.
  unfold Cabs at 1. unfold RtoC. simpl.
  replace (Cabs z * Cabs z + 0 * 0) with (Cabs z * Cabs z) by ring.
  apply sqrt_square, Cabs_nonneg.
Qed.

(** X25: it makes no difference whether [in_out_degree] is handed the
    complex matrix [dDTF_ij] or the real matrix [abs_dDTF] that
    [compute_abs_dDTF] makes of it: the degrees are the same. *)
Theorem in_out_degree_of_abs_dDTF (d : cmatrix) :
  in_out_degree (map (map RtoC) (compute_abs_dDTF d)) = in_out_degree d.
Proof.
  assert (Heq : map (map Cabs) (map (map RtoC) (compute_abs_dDTF d)) = map (map Cabs) d).
  { unfold compute_abs_dDTF. rewrite <- !list_fmap_compose.
    apply Forall_fmap_ext_1, Forall_forall. intros row _. simpl.
    rewrite <- !list_fmap_compose.
    apply Forall_fmap_ext_1, Forall_forall. intros z _. simpl. apply Cabs_of_Cabs. }
  unfold in_out_degree. by rewrite Heq.
Qed.

End DegreeFacts.

(** ** The discrete Fourier transform and its inverse *)

Module FourierFacts.
Import CoherenceFacts TransferFacts VarianceFacts DegreeFacts.

Local Open Scope R_scope.

(** *** Sums *)

Lemma Cadd_0_l (z : C) : Cadd C0 z = z.
Proof. destruct z. cx_eq. Qed.

Lemma Cadd_0_r (z : C) : Cadd z C0 = z.
Proof. destruct z. cx_eq. Qed.

Lemma Cmul_0_r (z : C) : Cmul z C0 = C0.
Proof. destruct z. cx_eq. Qed.

Lemma Cmul_assoc (x y z : C) : Cmul x (Cmul y z) = Cmul (Cmul x y) z.
Proof. destruct x, y, z. unfold Cmul. simpl. f_equal; ring. Qed.

Lemma Cmul_comm (x y : C) : Cmul x y = Cmul y x.
Proof. destruct x, y. unfold Cmul. simpl. f_equal; ring. Qed.

Lemma Cmul_add_r (x y z : C) : Cmul x (Cadd y z) = Cadd (Cmul x y) (Cmul x z).
Proof. destruct x, y, z. unfold Cmul, Cadd. simpl. f_equal; ring. Qed.

Lemma csum_cons (z : C) (zs : list C) : csum (z :: zs) = Cadd z (csum zs).
Proof. done. Qed.

Lemma csum_app (xs ys : list C) : csum (xs ++ ys) = Cadd (csum xs) (csum ys).
Proof.
  induction xs as [|x xs IH]; simpl; [by rewrite Cadd_0_l|].
  rewrite IH. destruct x, (csum xs), (csum ys). cx_eq.
Qed.

Lemma csum_add {X} (f g : X → C) (xs : list X) :
  csum (map (λ x, Cadd (f x) (g x)) xs) = Cadd (csum (map f xs)) (csum (map g xs)).
Proof.
  induction xs as [|x xs IH]; simpl; [cx_eq|]. rewrite IH.
  destruct (f x), (g x), (csum (map f xs)), (csum (map g xs)). cx_eq.
Qed.

Lemma csum_mul_l {X} (c : C) (f : X → C) (xs : list X) :
  csum (map (λ x, Cmul c (f x)) xs) = Cmul c (csum (map f xs)).
Proof.
  induction xs as [|x xs IH]; simpl; [by rewrite Cmul_0_r|].
  by rewrite IH, Cmul_add_r.
Qed.

Lemma csum_ext {X} (f g : X → C) (xs : list X) :
  (∀ x, x ∈ xs → f x = g x) → csum (map f xs) = csum (map g xs).
Proof.
  intros Hfg. f_equal. apply Forall_fmap_ext_1, Forall_forall. done.
Qed.

Lemma csum_swap {X Y} (f : X → Y → C) (xs : list X) (ys : list Y) :
  csum (map (λ x, csum (map (λ y, f x y) ys)) xs)
  = csum (map (λ y, csum (map (λ x, f x y) xs)) ys).
Proof.
  induction xs as [|x xs IH]; simpl.
  - symmetry. apply csum_zeros. apply Forall_fmap, Forall_forall. done.
  - rewrite IH. symmetry.
    apply (csum_add (λ y, f x y) (λ y, csum (map (λ x, f x y) xs))).
Qed.

Lemma csum_imap (f : nat → C → C) (l : list C) :
  csum (imap f l) = csum (map (λ k, f k (l !!! k)) (seq 0 (length l))).
Proof.
  revert f. induction l as [|x l IH]; intros f; simpl; [done|].
  rewrite IH. f_equal. f_equal. rewrite <- fmap_S_seq, <- list_fmap_compose. done.
Qed.

Lemma re_csum (zs : list C) : re (csum zs) = np_sum (map re zs).
Proof. unfold np_sum. induction zs as [|z zs IH]; simpl; [done|]. by rewrite IH. Qed.

(** The term [k0] of a sum whose other terms vanish. *)
Lemma csum_single (g : nat → C) n k0 :
  (k0 < n)%nat → (∀ k, (k < n)%nat → k ≠ k0 → g k = C0) →
  csum (map g (seq 0 n)) = g k0.
Proof.
  intros Hk0 Hzero.
  replace n with (k0 + S (n - S k0))%nat by lia.
  rewrite seq_app, map_app, csum_app. cbn [seq map]. rewrite csum_cons.
  rewrite !csum_zeros.
  - by rewrite Cadd_0_l, Cadd_0_r.
  - apply Forall_fmap, Forall_forall. intros k Hk. apply elem_of_seq in Hk. simpl.
    apply Hzero; lia.
  - apply Forall_fmap, Forall_forall. intros k Hk. apply elem_of_seq in Hk. simpl.
    apply Hzero; lia.
Qed.

(** *** Roots of unity *)

Lemma cis_add (x y : R) : cis (x + y) = Cmul (cis x) (cis y).
Proof. unfold cis, Cmul. simpl. rewrite cos_plus, sin_plus. f_equal; ring. Qed.

Lemma cis_turns (k : nat) : cis (2 * PI * INR k) = C1.
Proof.
  induction k as [|k IH].
  - simpl. replace (2 * PI * 0) with 0 by ring. apply cis_0.
  - rewrite S_INR. replace (2 * PI * (INR k + 1)) with (2 * PI * INR k + 2 * PI) by ring.
    rewrite cis_add, IH. unfold cis, Cmul, C1. simpl. rewrite cos_2PI, sin_2PI.
    f_equal; ring.
Qed.

Lemma cis_not_one (x : R) : 0 < x < 2 * PI → cis x ≠ C1.
Proof.
  intros [Hlo Hhi] Heq. unfold cis, C1 in Heq. injection Heq as Hcos Hsin.
  destruct (sin_eq_O_2PI_0 x) as [Hx|[Hx|Hx]]; [lra|lra|done|lra| |lra].
  rewrite Hx, cos_PI in Hcos. lra.
Qed.

Lemma Cmul_eq_0 (a b : C) : Cmul a b = C0 → a ≠ C0 → b = C0.
Proof.
  intros Hab Ha.
  assert (Hb : b = Cmul (Cmul (Cinv a) a) b).
  { rewrite Cmul_Cinv by done. destruct b. cx_eq. }
  rewrite Hb, <- Cmul_assoc, Hab. apply Cmul_0_r.
Qed.

Lemma geometric_telescope (theta : R) (n : nat) :
  Cmul (Csub (cis theta) C1) (csum (map (λ k, cis (theta * INR k)) (seq 0 n)))
  = Csub (cis (theta * INR n)) C1.
Proof.
  induction n as [|n IH].
  - simpl. replace (theta * 0) with 0 by ring. rewrite cis_0, Cmul_0_r. cx_eq.
  - rewrite seq_S, map_app, csum_app, Cmul_add_r, IH. cbn [map]. rewrite csum_cons.
    rewrite Cadd_0_r. rewrite S_INR.
    replace (theta * (INR n + 1)) with (theta + theta * INR n) by ring.
    rewrite cis_add. simpl.
    destruct (cis theta), (cis (theta * INR n)). cx_eq.
Qed.

(** The [n]-th roots of unity other than 1 sum to zero. *)
Lemma roots_of_unity_sum (n d : nat) :
  (0 < d < n)%nat →
  csum (map (λ k, cis (2 * PI * INR d / INR n * INR k)) (seq 0 n)) = C0.
Proof.
  intros Hd.
  assert (Hn : 0 < INR n) by (apply lt_0_INR; lia).
  assert (Hd0 : 0 < INR d) by (apply lt_0_INR; lia).
  assert (Hdn : INR d < INR n) by (apply lt_INR; lia).
  pose proof PI_RGT_0 as Hpi.
  apply (Cmul_eq_0 (Csub (cis (2 * PI * INR d / INR n)) C1)).
  - rewrite geometric_telescope.
    replace (2 * PI * INR d / INR n * INR n) with (2 * PI * INR d) by (field; lra).
    rewrite cis_turns. cx_eq.
  - intros Heq. apply (cis_not_one (2 * PI * INR d / INR n)).
    + split.
      * apply Rmult_lt_0_compat; [nra|]. by apply Rinv_0_lt_compat.
      * apply (Rmult_lt_reg_r (INR n)); [done|].
        replace (2 * PI * INR d / INR n * INR n) with (2 * PI * INR d) by (field; lra).
        nra.
    + destruct (cis (2 * PI * INR d / INR n)) as [a b].
      unfold Csub, C1, C0 in *. simpl in *. injection Heq as Ha Hb. f_equal; lra.
Qed.

Lemma csum_conj {X} (f : X → C) (xs : list X) :
  csum (map (λ x, Cconj (f x)) xs) = Cconj (csum (map f xs)).
Proof.
  induction xs as [|x xs IH]; simpl; [cx_eq|]. rewrite IH.
  destruct (f x), (csum (map f xs)). cx_eq.
Qed.

Lemma csum_ones {X} (xs : list X) : csum (map (λ _, C1) xs) = RtoC (INR (length xs)).
Proof.
  induction xs as [|x xs IH]; [cx_eq|]. cbn [map length]. rewrite csum_cons, IH, S_INR.
  cx_eq.
Qed.

(** The columns of the transform are orthogonal. *)
Lemma phase_sum (n m j : nat) :
  (m < n)%nat → (j < n)%nat →
  csum (map (λ k, Cmul (cis (- (2 * PI * INR j * INR k / INR n)))
                       (cis (2 * PI * INR m * INR k / INR n))) (seq 0 n))
  = if decide (j = m) then RtoC (INR n) else C0.
Proof.
  intros Hm Hj.
  assert (Hn : 0 < INR n) by (apply lt_0_INR; lia).
  destruct (decide (j = m)) as [->|Hne].
  - trans (csum (map (λ _, C1) (seq 0 n))); [|by rewrite csum_ones, length_seq].
    apply csum_ext. intros k _. rewrite <- cis_add, <- cis_0. f_equal. lra.
  - destruct (decide (j < m)%nat) as [Hlt|Hge].
    + rewrite <- (roots_of_unity_sum n (m - j)) by lia. apply csum_ext.
      intros k _. rewrite <- cis_add. f_equal. rewrite minus_INR by lia.
      field. lra.
    + rewrite <- (Cconj_involutive C0) at 1.
      replace (Cconj C0) with C0 by cx_eq.
      rewrite <- (roots_of_unity_sum n (j - m)) by lia.
      rewrite <- csum_conj. apply csum_ext.
      intros k _. rewrite <- cis_add, <- cis_neg. f_equal. rewrite minus_INR by lia.
      field. lra.
Qed.

Lemma fft_lookup (a : cvector) k :
  (k < length a)%nat →
  fft a !!! k
  = csum (map (λ j, Cmul (a !!! j) (cis (- (2 * PI * INR j * INR k / INR (length a)))))
              (seq 0 (length a))).
Proof.
  intros Hk. unfold fft.
  rewrite (lookup_total_table
             (λ k, csum (imap (λ m a_m,
                Cmul a_m (cis (- (2 * PI * INR m * INR k / INR (length a))))) a))) by done.
  apply (csum_imap (λ m a_m, Cmul a_m (cis (- (2 * PI * INR m * INR k / INR (length a)))))).
Qed.

Lemma Cscale_inv_n (n : nat) (z : C) :
  (0 < n)%nat → Cscale (/ INR n) (Cmul z (RtoC (INR n))) = z.
Proof.
  intros Hn. assert (0 < INR n) by (apply lt_0_INR; lia).
  destruct z as [a b]. unfold Cscale, Cmul, RtoC. simpl. f_equal; field; lra.
Qed.

(** The inverse transform undoes the transform. *)
Lemma ifft_fft (a : cvector) : ifft (fft a) = a.
Proof.
  unfold ifft. rewrite length_fft. set (n := length a).
  trans (map (λ j, a !!! j) (seq 0 n)); [|apply entries_by_index].
  apply Forall_fmap_ext_1, Forall_forall. intros m Hm. apply elem_of_seq in Hm.
  rewrite (csum_imap (λ k A_k, Cmul A_k (cis (2 * PI * INR m * INR k / INR n)))).
  rewrite length_fft. fold n.
  rewrite (csum_ext _ (λ k, csum (map (λ j,
             Cmul (a !!! j) (Cmul (cis (- (2 * PI * INR j * INR k / INR n)))
                                  (cis (2 * PI * INR m * INR k / INR n)))) (seq 0 n)))).
  2:{ intros k Hk. apply elem_of_seq in Hk. rewrite fft_lookup by (fold n; lia). fold n.
      rewrite Cmul_comm, <- csum_mul_l. apply csum_ext. intros j _.
      rewrite (Cmul_comm (cis (2 * PI * INR m * INR k / INR n))). by rewrite Cmul_assoc. }
  rewrite (csum_swap (λ k j, Cmul (a !!! j)
             (Cmul (cis (- (2 * PI * INR j * INR k / INR n)))
                   (cis (2 * PI * INR m * INR k / INR n))))).
  rewrite (csum_ext _ (λ j, Cmul (a !!! j) (if decide (j = m) then RtoC (INR n) else C0))).
  2:{ intros j Hj. apply elem_of_seq in Hj.
      rewrite (csum_mul_l (a !!! j)
                 (λ k, Cmul (cis (- (2 * PI * INR j * INR k / INR n)))
                            (cis (2 * PI * INR m * INR k / INR n)))).
      by rewrite phase_sum by lia. }
  rewrite (csum_single _ n m) by
    (lia || (intros k _ Hk; rewrite decide_False by done; apply Cmul_0_r)).
  rewrite decide_True by done. apply Cscale_inv_n. lia.
Qed.

End FourierFacts.

(** ** The surrogate of one channel *)

Module SurrogateChannelFacts.
Import mGrangerStats2 CoherenceFacts TransferFacts VarianceFacts DegreeFacts FourierFacts.

Local Open Scope R_scope.

Lemma surrogate_channel_eq (u : nat → R) (channel : vector) (pos : nat) :
  surrogate_channel u channel pos
  = (map re (ifft (surrogate_spectrum u channel pos)),
     (pos + draws_per_channel (length channel))%nat).
Proof.
  unfold surrogate_channel, surrogate_spectrum, draws_per_channel, rand.
  rewrite length_fft, length_map, length_seq. cbv zeta. f_equal. lia.
Qed.

(** *** Assignment through an index array *)

Lemma length_assign_at {X} (l : list X) (idx : list nat) (vs : list X) :
  length (assign_at l idx vs) = length l.
Proof.
  unfold assign_at. revert l. induction (zip idx vs) as [|[i v] ivs IH]; intros l; simpl.
  - done.
  - by rewrite IH, length_insert.
Qed.

Lemma assign_at_seq_lookup {X} (vs : list X) : ∀ (l : list X) a i,
  (0 < length vs → a + length vs ≤ length l)%nat →
  assign_at l (seq a (length vs)) vs !! i
  = if decide (a ≤ i < a + length vs)%nat then vs !! (i - a)%nat else l !! i.
Proof.
  induction vs as [|v vs IH]; intros l a i Hlen; cbn [length seq].
  - rewrite decide_False by lia. done.
  - change (assign_at l (a :: seq (S a) (length vs)) (v :: vs))
      with (assign_at (<[a := v]> l) (seq (S a) (length vs)) vs).
    simpl in Hlen. rewrite IH by (rewrite length_insert; lia).
    destruct (decide (S a ≤ i < S a + length vs)%nat) as [Hin|Hout].
    + rewrite decide_True by lia. replace (i - a)%nat with (S (i - S a)) by lia. done.
    + destruct (decide (i = a)) as [->|Hne].
      * rewrite decide_True by (simpl; lia). rewrite Nat.sub_diag. simpl.
        apply list_lookup_insert_eq. lia.
      * rewrite decide_False by (simpl; lia). by apply list_lookup_insert_ne.
Qed.

Lemma length_phases (r : list R) : length (phases r) = length r.
Proof. unfold phases. by rewrite length_map. Qed.

Lemma length_take_at {X} `{Inhabited X} (a : list X) (idx : list nat) :
  length (take_at a idx) = length idx.
Proof. unfold take_at. by rewrite length_map. Qed.

(** The values assigned through [idx]: as many as there are indices. *)
Lemma length_randomised (F : cvector) (u : nat → R) a p k :
  length (zip_with Cmul (take_at F (seq a k)) (phases (map u (seq p k)))) = k.
Proof.
  rewrite length_zip_with, length_take_at, length_phases, length_map, !length_seq. lia.
Qed.

(** *** The spectrum of the surrogate *)

Section Spectrum.

Variables (u : nat → R) (channel : vector) (pos : nat).

Let F := fft (map RtoC channel).
Let n := length channel.
Let h := ((n - 1) / 2)%nat.

Lemma surrogate_spectrum_lookup i :
  surrogate_spectrum u channel pos !! i
  = if decide (h + 1 ≤ i < n)%nat then
      zip_with Cmul (take_at F (seq (h + 1) (n - (h + 1))))
        (phases (map u (seq (pos + h + h) (n - (h + 1))))) !! (i - (h + 1))%nat
    else if decide (1 ≤ i < 1 + h)%nat then
      zip_with Cmul (take_at F (seq 1 h)) (phases (map u (seq pos h))) !! (i - 1)%nat
    else <[0%nat := F !!! 0%nat]> (replicate n C0) !! i.
Proof.
  unfold surrogate_spectrum. rewrite length_fft, length_map. fold F n h. cbv zeta.
  assert (Hh : (h ≤ n - 1)%nat).
  { unfold h. apply Nat.Div0.div_le_upper_bound. lia. }
  pose proof (assign_at_seq_lookup
    (zip_with Cmul (take_at F (seq (h + 1) (n - (h + 1))))
       (phases (map u (seq (pos + h + h) (n - (h + 1))))))) as Hsecond.
  rewrite length_randomised in Hsecond. rewrite Hsecond.
  2:{ rewrite !length_assign_at, length_insert, length_replicate. lia. }
  destruct (decide (h + 1 ≤ i < h + 1 + (n - (h + 1)))%nat) as [Hi|Hi].
  { rewrite decide_True by lia. done. }
  rewrite decide_False by lia.
  pose proof (assign_at_seq_lookup
    (zip_with Cmul (take_at F (seq 1 h)) (phases (map u (seq pos h))))) as Hfirst.
  rewrite length_randomised in Hfirst. rewrite Hfirst.
  2:{ rewrite length_insert, length_replicate. lia. }
  done.
Qed.

Lemma length_surrogate_spectrum : length (surrogate_spectrum u channel pos) = n.
Proof.
  unfold surrogate_spectrum. cbv zeta.
  by rewrite !length_assign_at, length_insert, length_replicate, length_fft, length_map.
Qed.

Lemma surrogate_spectrum_dc :
  (0 < n)%nat → surrogate_spectrum u channel pos !!! 0%nat = F !!! 0%nat.
Proof.
  intros Hn. apply list_lookup_total_correct. rewrite surrogate_spectrum_lookup.
  rewrite !decide_False by lia. apply list_lookup_insert_eq.
  by rewrite length_replicate.
Qed.

End Spectrum.

(** X19: of the variates that the body draws for a channel, those of the
    first [phases2] are never used: the array is overwritten before it is
    read.  Two streams that differ only there give the same surrogate and
    leave the generator at the same position. *)
Theorem surrogate_channel_ignores_overwritten_phases (u u' : nat → R) (channel : vector)
    (pos : nat) :
  (∀ k, ¬ (pos + (length channel - 1) / 2 ≤ k
           < pos + 2 * ((length channel - 1) / 2))%nat → u k = u' k) →
  surrogate_channel u channel pos = surrogate_channel u' channel pos.
Proof.
  intros Hsame. rewrite !surrogate_channel_eq. f_equal. do 2 f_equal.
  unfold surrogate_spectrum. rewrite length_fft, length_map. cbv zeta.
  set (h := ((length channel - 1) / 2)%nat) in *.
  assert (Hfirst : map u (seq pos h) = map u' (seq pos h)).
  { apply Forall_fmap_ext_1, Forall_forall. intros k Hk. apply elem_of_seq in Hk.
    apply Hsame. lia. }
  assert (Hsecond : ∀ len, map u (seq (pos + h + h) len) = map u' (seq (pos + h + h) len)).
  { intros len. apply Forall_fmap_ext_1, Forall_forall. intros k Hk.
    apply elem_of_seq in Hk. apply Hsame. lia. }
  by rewrite Hfirst, Hsecond.
Qed.

Lemma surrogate_channel_ignores_overwritten_phases_witness :
  surrogate_channel Samples.draws [1; 0; 0; 0] 0
  = surrogate_channel Samples.other_draws [1; 0; 0; 0] 0.
Proof.
  apply (surrogate_channel_ignores_overwritten_phases Samples.draws Samples.other_draws
           [1; 0; 0; 0] 0).
  intros k Hk. unfold Samples.other_draws. simpl in Hk.
  rewrite decide_False by lia. reflexivity.
Defined.

(** *** The sum of the surrogate *)

Lemma Cscale_sum {X} (r : R) (f : X → C) (xs : list X) :
  csum (map (λ x, Cscale r (f x)) xs) = Cscale r (csum (map f xs)).
Proof.
  induction xs as [|x xs IH]; simpl; [cx_eq|]. rewrite IH.
  destruct (f x), (csum (map f xs)). cx_eq.
Qed.

Lemma Cmul_C1_l (z : C) : Cmul C1 z = z.
Proof. destruct z. cx_eq. Qed.

(** The samples of an inverse transform add up to its bin 0. *)
Lemma csum_ifft (S : cvector) : S ≠ [] → csum (ifft S) = S !!! 0%nat.
Proof.
  intros Hne. unfold ifft. set (n := length S).
  assert (Hn : (0 < n)%nat) by (unfold n; destruct S; [done|simpl; lia]).
  assert (HnR : 0 < INR n) by (by apply lt_0_INR).
  rewrite (csum_ext _ (λ m, Cscale (/ INR n)
             (csum (map (λ k, Cmul (S !!! k) (cis (2 * PI * INR m * INR k / INR n)))
                        (seq 0 n))))).
  2:{ intros m _. f_equal.
      apply (csum_imap (λ k A_k, Cmul A_k (cis (2 * PI * INR m * INR k / INR n)))). }
  rewrite (Cscale_sum (/ INR n)
             (λ m, csum (map (λ k, Cmul (S !!! k) (cis (2 * PI * INR m * INR k / INR n)))
                             (seq 0 n)))).
  rewrite (csum_swap (λ m k, Cmul (S !!! k) (cis (2 * PI * INR m * INR k / INR n)))).
  rewrite (csum_ext _ (λ k, Cmul (S !!! k)
             (if decide (k = 0)%nat then RtoC (INR n) else C0))).
  2:{ intros k Hk. apply elem_of_seq in Hk.
      rewrite (csum_mul_l (S !!! k) (λ m, cis (2 * PI * INR m * INR k / INR n))).
      f_equal. destruct (decide (k = 0)%nat) as [->|Hk0].
      - trans (csum (map (λ _, C1) (seq 0 n))); [|by rewrite csum_ones, length_seq].
        apply csum_ext. intros m _. rewrite <- cis_0. f_equal. simpl. unfold Rdiv. ring.
      - rewrite <- (roots_of_unity_sum n k) by lia. apply csum_ext.
        intros m _. f_equal. field. lra. }
  rewrite (csum_single _ n 0) by
    (lia || (intros k _ Hk; rewrite decide_False by done; apply Cmul_0_r)).
  rewrite decide_True by done. apply Cscale_inv_n. lia.
Qed.

Lemma fft_dc (channel : vector) :
  channel ≠ [] → re (fft (map RtoC channel) !!! 0%nat) = np_sum channel.
Proof.
  intros Hne. rewrite fft_lookup by (rewrite length_map; destruct channel; [done|simpl; lia]).
  rewrite length_map.
  rewrite (csum_ext _ (λ j, map RtoC channel !!! j)).
  2:{ intros j _. rewrite <- (Cmul_C1_r (map RtoC channel !!! j)) at 2. f_equal.
      rewrite <- cis_0. f_equal. simpl. unfold Rdiv. ring. }
  rewrite <- (length_map RtoC channel), entries_by_index, re_csum.
  rewrite <- list_fmap_compose. f_equal. by rewrite list_fmap_id.
Qed.

(** The surrogate of a channel has the sum of the channel: bin 0 of the
    spectrum is kept, and the other bins do not contribute to the sum. *)
Lemma surrogate_channel_sum (u : nat → R) (channel : vector) (pos : nat) :
  channel ≠ [] →
  np_sum (surrogate_channel u channel pos).1 = np_sum channel.
Proof.
  intros Hne.
  assert (Hn : (0 < length channel)%nat) by (destruct channel; [done|simpl; lia]).
  rewrite surrogate_channel_eq. cbn [fst].
  rewrite <- re_csum, csum_ifft.
  - rewrite surrogate_spectrum_dc by done. by apply fft_dc.
  - intros Hnil. pose proof (length_surrogate_spectrum u channel pos) as Hlen.
    rewrite Hnil in Hlen. simpl in Hlen. lia.
Qed.

(** *** Phases that are all one *)

Lemma phases_zero (u : nat → R) (ks : list nat) :
  (∀ k, u k = 0) → phases (map u ks) = map (λ _, C1) ks.
Proof.
  intros Hu. unfold phases. rewrite <- list_fmap_compose.
  apply Forall_fmap_ext_1, Forall_forall. intros k _. simpl.
  rewrite Hu, <- cis_0. f_equal. ring.
Qed.

Lemma unrandomised_lookup (F : cvector) a k i :
  (i < k)%nat → (a + k ≤ length F)%nat →
  zip_with Cmul (take_at F (seq a k)) (map (λ _, C1) (seq a k)) !! i = F !! (a + i)%nat.
Proof.
  intros Hi Hk. rewrite lookup_zip_with. unfold take_at.
  rewrite !list_lookup_fmap, lookup_seq_lt by done. simpl.
  rewrite Cmul_C1_r. symmetry. apply list_lookup_lookup_total_lt. lia.
Qed.

Lemma surrogate_spectrum_zero_phases (u : nat → R) (channel : vector) (pos : nat) :
  (∀ k, u k = 0) → surrogate_spectrum u channel pos = fft (map RtoC channel).
Proof.
  intros Hu. set (n := length channel). set (h := ((n - 1) / 2)%nat).
  assert (Hh : (h ≤ n - 1)%nat).
  { unfold h. apply Nat.Div0.div_le_upper_bound. lia. }
  assert (HlF : length (fft (map RtoC channel)) = n) by by rewrite length_fft, length_map.
  assert (Hph : ∀ p a k, phases (map u (seq p k)) = map (λ _, C1) (seq a k)).
  { intros p a k. rewrite phases_zero by done. apply list_eq. intros i.
    rewrite !list_lookup_fmap. destruct (decide (i < k)%nat).
    - by rewrite !lookup_seq_lt.
    - by rewrite !lookup_seq_ge by lia. }
  apply list_eq. intros i. rewrite surrogate_spectrum_lookup. fold n h.
  destruct (decide (h + 1 ≤ i < n)%nat) as [Hi|Hi].
  { rewrite (Hph _ (h + 1)%nat), unrandomised_lookup by lia. f_equal. lia. }
  destruct (decide (1 ≤ i < 1 + h)%nat) as [Hi1|Hi1].
  { rewrite (Hph _ 1%nat), unrandomised_lookup by lia. f_equal. lia. }
  destruct (decide (i = 0)%nat) as [->|Hi0].
  - destruct (decide (0 < n)%nat) as [Hn|Hn].
    + rewrite list_lookup_insert_eq by (by rewrite length_replicate).
      symmetry. apply list_lookup_lookup_total_lt. lia.
    + rewrite !lookup_ge_None_2; [done|lia|rewrite length_insert, length_replicate; lia].
  - rewrite !lookup_ge_None_2; [done|lia|rewrite length_insert, length_replicate; lia].
Qed.

(** With all variates zero every phase is one, the spectrum is kept, and
    the inverse transform gives the channel back. *)
Lemma surrogate_channel_zero_draws (u : nat → R) (channel : vector)
    (pos : nat) :
  (∀ k, u k = 0) →
  surrogate_channel u channel pos
  = (channel, (pos + draws_per_channel (length channel))%nat).
Proof.
  intros Hu. rewrite surrogate_channel_eq. f_equal.
  rewrite surrogate_spectrum_zero_phases by done. rewrite ifft_fft.
  rewrite <- list_fmap_compose. by rewrite list_fmap_id.
Qed.

(** *** The loops of generate_surrogate *)

Lemma length_column (m : matrix) ic : length (column m ic) = length m.
Proof. unfold column. by rewrite length_map. Qed.

Lemma length_set_column (m : matrix) ic col : length (set_column m ic col) = length m.
Proof. unfold set_column. by rewrite length_imap. Qed.

Lemma set_column_lookup (m : matrix) ic col t row :
  m !! t = Some row → set_column m ic col !! t = Some (<[ic := col !!! t]> row).
Proof. intros Hrow. unfold set_column. by rewrite list_lookup_imap, Hrow. Qed.

Lemma rect_set_column T C (m : matrix) ic col :
  rect T C m → rect T C (set_column m ic col).
Proof.
  intros [Hlen Hrows]. split; [by rewrite length_set_column|].
  apply Forall_lookup. intros t row' Hrow'.
  assert (Hlt : (t < length m)%nat).
  { rewrite <- (length_set_column m ic col). by eapply lookup_lt_Some. }
  destruct (lookup_lt_is_Some_2 m t Hlt) as [row Hrow].
  rewrite (set_column_lookup _ _ _ _ _ Hrow) in Hrow'. injection Hrow' as <-.
  rewrite length_insert. rewrite Forall_lookup in Hrows. by eapply Hrows.
Qed.

Lemma column_lookup (m : matrix) ic t row :
  m !! t = Some row → column m ic !! t = Some (row !!! ic).
Proof. intros Hrow. unfold column. by rewrite list_lookup_fmap, Hrow. Qed.

Lemma column_set_column_eq T C (m : matrix) ic col :
  rect T C m → (ic < C)%nat → length col = T → column (set_column m ic col) ic = col.
Proof.
  intros [Hlen Hrows] Hic Hcol. apply list_eq. intros t.
  destruct (decide (t < T)%nat) as [Ht|Ht].
  - destruct (lookup_lt_is_Some_2 m t) as [row Hrow]; [lia|].
    rewrite (column_lookup _ _ _ _ (set_column_lookup _ _ _ _ _ Hrow)).
    rewrite Forall_lookup in Hrows.
    rewrite list_lookup_total_insert_eq by (rewrite (Hrows _ _ Hrow); lia).
    symmetry. apply list_lookup_lookup_total_lt. lia.
  - rewrite !lookup_ge_None_2; [done|lia|].
    rewrite length_column, length_set_column. lia.
Qed.

Lemma column_set_column_ne (m : matrix) ic ic' col :
  ic ≠ ic' → column (set_column m ic col) ic' = column m ic'.
Proof.
  intros Hne. apply list_eq. intros t.
  destruct (m !! t) as [row|] eqn:Hrow.
  - rewrite (column_lookup _ _ _ _ (set_column_lookup _ _ _ _ _ Hrow)).
    rewrite (column_lookup _ _ _ _ Hrow). f_equal.
    by apply list_lookup_total_insert_ne.
  - apply lookup_ge_None in Hrow.
    rewrite !lookup_ge_None_2; [done|by rewrite length_column|].
    by rewrite length_column, length_set_column.
Qed.

Section Loops.

Variables (u : nat → R) (T C : nat) (original_data : matrix).
Hypothesis Hdata : rect T C original_data.

Let d := draws_per_channel T.

(** The surrogate of the channel [ic] drawn at the position [p]. *)
Let drawn (ic p : nat) : vector := (surrogate_channel u (column original_data ic) p).1.

Lemma length_drawn ic p : length (drawn ic p) = T.
Proof.
  unfold drawn. rewrite surrogate_channel_eq. cbn [fst].
  rewrite length_map. unfold ifft. rewrite length_map, length_seq.
  rewrite length_surrogate_spectrum, length_column. by destruct Hdata.
Qed.

Lemma channel_step (s ic : nat) (st : tensor * nat) :
  (let '(surrogate, pos) := surrogate_channel u (column original_data ic) st.2 in
   (alter (λ m, set_column m ic surrogate) s st.1, pos))
  = (alter (λ m, set_column m ic (drawn ic st.2)) s st.1, (st.2 + d)%nat).
Proof.
  unfold drawn, d. rewrite surrogate_channel_eq. cbn [fst].
  rewrite length_column. destruct Hdata as [-> _]. done.
Qed.

Lemma channels_loop (s : nat) (X0 : tensor) (p0 : nat) k :
  rect3 T C X0 → (s < length X0)%nat → (k ≤ C)%nat →
  ∃ X, foldl (λ st ic,
          let '(surrogate, pos) := surrogate_channel u (column original_data ic) st.2 in
          (alter (λ m, set_column m ic surrogate) s st.1, pos))
        (X0, p0) (seq 0 k) = (X, (p0 + k * d)%nat)
    ∧ length X = length X0 ∧ rect3 T C X
    ∧ (∀ s', s' ≠ s → X !! s' = X0 !! s')
    ∧ (∀ ic, (ic < k)%nat → column (X !!! s) ic = drawn ic (p0 + ic * d))
    ∧ (∀ ic, (k ≤ ic)%nat → column (X !!! s) ic = column (X0 !!! s) ic).
Proof.
  intros HX0 Hs. induction k as [|k IH]; intros Hk.
  - exists X0. split_and!; [simpl; f_equal; lia|done|done|done|intros ic; lia|done].
  - destruct IH as (X & Hrun & Hlen & Hshape & Hother & Hdone & Hrest); [lia|].
    rewrite seq_S, Nat.add_0_l, foldl_app, Hrun. cbn [foldl].
    rewrite channel_step. cbn [fst snd].
    eexists. split; [f_equal; lia|].
    assert (Hslice : rect T C (X !!! s)) by (apply rect3_lookup; [done|lia]).
    assert (Hnew : alter (λ m, set_column m k (drawn k (p0 + k * d))) s X !!! s
                   = set_column (X !!! s) k (drawn k (p0 + k * d))).
    { apply list_lookup_total_correct. rewrite list_lookup_alter_eq.
      by rewrite list_lookup_lookup_total_lt by lia. }
    split_and!.
    + by rewrite length_alter.
    + apply Forall_lookup. intros s' m Hm.
      destruct (decide (s' = s)) as [->|Hne].
      * rewrite list_lookup_alter_eq, list_lookup_lookup_total_lt in Hm by lia.
        injection Hm as <-. by apply rect_set_column.
      * rewrite list_lookup_alter_ne in Hm by done.
        unfold rect3 in Hshape. rewrite Forall_lookup in Hshape. by eapply Hshape.
    + intros s' Hne. rewrite list_lookup_alter_ne by done. by apply Hother.
    + intros ic Hic. rewrite Hnew. destruct (decide (ic = k)) as [->|Hne].
      * apply (column_set_column_eq T C); [done|lia|apply length_drawn].
      * rewrite column_set_column_ne by done. apply Hdone. lia.
    + intros ic Hic. rewrite Hnew, column_set_column_ne by lia. apply Hrest. lia.
Qed.

Lemma sets_loop (X0 : tensor) (p0 : nat) k :
  rect3 T C X0 → (k ≤ length X0)%nat →
  ∃ X, foldl (λ st s,
          foldl (λ st ic,
            let '(surrogate, pos) := surrogate_channel u (column original_data ic) st.2 in
            (alter (λ m, set_column m ic surrogate) s st.1, pos))
            st (seq 0 C))
        (X0, p0) (seq 0 k) = (X, (p0 + k * C * d)%nat)
    ∧ length X = length X0 ∧ rect3 T C X
    ∧ (∀ s ic, (s < k)%nat → (ic < C)%nat →
         column (X !!! s) ic = drawn ic (p0 + (s * C + ic) * d))
    ∧ (∀ s, (k ≤ s)%nat → X !! s = X0 !! s).
Proof.
  intros HX0. induction k as [|k IH]; intros Hk.
  - exists X0. split_and!; [simpl; f_equal; lia|done|done|intros s ic; lia|done].
  - destruct IH as (X & Hrun & Hlen & Hshape & Hdone & Hrest); [lia|].
    rewrite seq_S, Nat.add_0_l, foldl_app, Hrun. cbn [foldl].
    destruct (channels_loop k X (p0 + k * C * d) C Hshape) as
      (X' & Hrun' & Hlen' & Hshape' & Hother' & Hdone' & _); [lia|lia|].
    rewrite Hrun'. exists X'. split_and!.
    + f_equal. lia.
    + lia.
    + done.
    + intros s ic Hs Hic. destruct (decide (s = k)) as [->|Hne].
      * rewrite Hdone' by done. f_equal. lia.
      * assert (Hsame : X' !!! s = X !!! s).
        { apply list_lookup_total_correct. rewrite Hother' by done.
          apply list_lookup_lookup_total_lt. lia. }
        rewrite Hsame. apply Hdone; [lia|done].
    + intros s Hs. rewrite Hother' by lia. apply Hrest. lia.
Qed.

(** What [generate_surrogate] returns: the channel [ic] of the set [s] is
    the surrogate of the column [ic], drawn at the position that the
    channels before it have left. *)
Lemma generate_surrogate_channels (num_sets pos : nat) :
  (0 < T)%nat →
  ∃ surrogate_data,
    generate_surrogate u original_data num_sets pos
    = (surrogate_data, (pos + num_sets * C * d)%nat)
    ∧ length surrogate_data = num_sets ∧ rect3 T C surrogate_data
    ∧ ∀ s ic, (s < num_sets)%nat → (ic < C)%nat →
        column (surrogate_data !!! s) ic = drawn ic (pos + (s * C + ic) * d).
Proof.
  intros HT. unfold generate_surrogate.
  rewrite (ncols_rect T C) by done. destruct Hdata as [Hlen _]. rewrite Hlen.
  destruct (sets_loop (replicate num_sets (replicate T (replicate C 0))) pos num_sets)
    as (X & Hrun & HlX & Hshape & Hdone & _).
  - apply Forall_replicate. split; [by rewrite length_replicate|].
    apply Forall_replicate. by rewrite length_replicate.
  - by rewrite length_replicate.
  - exists X. rewrite length_replicate in HlX. by split_and!.
Qed.

End Loops.

(** *** generate_surrogate *)

Lemma draws_per_channel_eq T : draws_per_channel T = (T - 1 + (T - 1) / 2)%nat.
Proof.
  unfold draws_per_channel.
  assert (((T - 1) / 2 ≤ T - 1)%nat) by (apply Nat.Div0.div_le_upper_bound; lia).
  lia.
Qed.

(** X20: on a series of [T > 0] samples and [C] channels
    [generate_surrogate] returns [num_sets] arrays of the shape of the
    series, and draws [T - 1 + (T - 1) // 2] variates per channel and set. *)
Theorem generate_surrogate_shape_and_draws (u : nat → R) (T C : nat)
    (original_data : matrix) (num_sets pos : nat) :
  rect T C original_data → (0 < T)%nat →
  ∃ surrogate_data,
    generate_surrogate u original_data num_sets pos
    = (surrogate_data, (pos + num_sets * C * (T - 1 + (T - 1) / 2))%nat)
    ∧ length surrogate_data = num_sets ∧ rect3 T C surrogate_data.
Proof.
  intros Hdata HT.
  destruct (generate_surrogate_channels u T C original_data Hdata num_sets pos HT)
    as (X & Hrun & Hlen & Hshape & _).
  exists X. rewrite Hrun, draws_per_channel_eq. done.
Qed.

Lemma generate_surrogate_shape_and_draws_witness :
  ∃ surrogate_data,
    generate_surrogate Samples.draws Samples.impulse 1 0
    = (surrogate_data, (0 + 1 * 1 * (4 - 1 + (4 - 1) / 2))%nat)
    ∧ length surrogate_data = 1%nat ∧ rect3 4 1 surrogate_data.
Proof.
  apply (generate_surrogate_shape_and_draws Samples.draws 4 1 Samples.impulse 1 0);
    first [lia | repeat constructor].
Defined.

(** X21: every surrogate channel has the sum, and so the mean, of the
    channel it is made from, whatever the variates drawn: bin 0 of the
    spectrum is copied, and no other bin contributes to the sum of the
    inverse transform. *)
Theorem generate_surrogate_keeps_channel_sums (u : nat → R) (T C : nat)
    (original_data : matrix) (num_sets pos s ic : nat) :
  rect T C original_data → (0 < T)%nat → (s < num_sets)%nat → (ic < C)%nat →
  np_sum (column ((generate_surrogate u original_data num_sets pos).1 !!! s) ic)
  = np_sum (column original_data ic).
Proof.
  intros Hdata HT Hs Hic.
  destruct (generate_surrogate_channels u T C original_data Hdata num_sets pos HT)
    as (X & -> & _ & _ & Hchannels).
  cbn [fst]. rewrite Hchannels by done. apply surrogate_channel_sum.
  intros Hnil. pose proof (length_column original_data ic) as Hlen.
  rewrite Hnil in Hlen. destruct Hdata as [HlT _]. simpl in Hlen. lia.
Qed.

Lemma generate_surrogate_keeps_channel_sums_witness :
  np_sum (column ((generate_surrogate Samples.draws Samples.impulse 1 0).1 !!! 0%nat) 0)
  = np_sum (column Samples.impulse 0).
Proof.
  apply (generate_surrogate_keeps_channel_sums Samples.draws 4 1 Samples.impulse 1 0 0 0);
    first [lia | repeat constructor].
Defined.

Lemma matrix_eq_columns T C (m m' : matrix) :
  rect T C m → rect T C m' → (∀ ic, (ic < C)%nat → column m ic = column m' ic) → m = m'.
Proof.
  intros Hm Hm' Hcols. apply (rect_cells_eq T C); [done|done|].
  intros t ic Ht Hic. 
  destruct (rect_row T C m t Hm Ht) as [Hrow Hlen].
  destruct (rect_row T C m' t Hm' Ht) as [Hrow' Hlen'].
  pose proof (column_lookup m ic t _ Hrow) as Hc.
  pose proof (column_lookup m' ic t _ Hrow') as Hc'.
  rewrite (Hcols ic Hic), Hc' in Hc. injection Hc as Heq.
  unfold cell. rewrite Hrow, Hrow'. simpl.
  rewrite !list_lookup_lookup_total_lt by lia. by f_equal.
Qed.

(** X22: when every variate drawn is 0, every phase is 1 and every
    surrogate set is the original series: the inverse transform undoes the
    transform. *)
Theorem generate_surrogate_with_zero_draws (u : nat → R) (T C : nat)
    (original_data : matrix) (num_sets pos : nat) :
  rect T C original_data → (0 < T)%nat → (∀ k, u k = 0) →
  (generate_surrogate u original_data num_sets pos).1 = replicate num_sets original_data.
Proof.
  intros Hdata HT Hu.
  destruct (generate_surrogate_channels u T C original_data Hdata num_sets pos HT)
    as (X & -> & Hlen & Hshape & Hchannels).
  cbn [fst]. apply list_eq. intros s.
  destruct (decide (s < num_sets)%nat) as [Hs|Hs].
  - rewrite lookup_replicate_2 by done.
    rewrite list_lookup_lookup_total_lt by lia. f_equal.
    apply (matrix_eq_columns T C); [apply rect3_lookup; [done|lia]|done|].
    intros ic Hic. rewrite Hchannels by done.
    by rewrite surrogate_channel_zero_draws.
  - rewrite !lookup_ge_None_2; [done|rewrite length_replicate; lia|lia].
Qed.

Lemma generate_surrogate_with_zero_draws_witness :
  (generate_surrogate (λ _, 0) Samples.impulse 2 0).1 = replicate 2 Samples.impulse.
Proof.
  apply (generate_surrogate_with_zero_draws (λ _, 0) 4 1 Samples.impulse 2 0);
    first [lia | done | repeat constructor].
Defined.

End SurrogateChannelFacts.

(** ** significance_testing: what the mask depends on *)

Module TesterFacts.
Import mGrangerStats2 SignificanceFacts.

Local Open Scope R_scope.

(** X23: of what [ttest_1samp] returns, [significance_testing] reads the
    p-value only.  The t statistic, and with it the side on which the
    observed value lies of the mean of the null distribution, has no effect
    on the network: the p-value is halved whatever its sign. *)
Theorem significance_testing_ignores_the_t_statistic
    (new_mGrangerdDTF : matrix → nat → nat → R → R → py mGrangerdDTF.object)
    (ttest1 ttest2 : list R → R → option R * option R)
    (original_data : matrix) (surrogate_series : tensor) (my_pvalue : R) :
  (∀ a popmean, (ttest1 a popmean).2 = (ttest2 a popmean).2) →
  significance_testing new_mGrangerdDTF ttest1 original_data surrogate_series my_pvalue
  = significance_testing new_mGrangerdDTF ttest2 original_data surrogate_series my_pvalue.
Proof.
  intros Hsame.
  assert (Hp : ∀ dDTF_og su i j,
            p_value_of ttest1 dDTF_og su i j = p_value_of ttest2 dDTF_og su i j).
  { intros dDTF_og su i j. unfold p_value_of.
    destruct (getitem2 dDTF_og i j) as [original_value| |]; py_step; [|done..].
    destruct (forM _ su) as [surrogate_values| |]; py_step; [|done..].
    specialize (Hsame surrogate_values original_value).
    destruct (ttest1 _ _) as [t1 p1], (ttest2 _ _) as [t2 p2]. simpl in Hsame.
    by rewrite Hsame. }
  unfold significance_testing.
  destruct (mGrangerdDTF_of_data new_mGrangerdDTF original_data) as [og| |];
    py_step; [|done..].
  destruct (forM _ surrogate_series) as [su| |]; py_step; [|done..].
  rewrite (forM_ext _ (λ i, forM (λ j, p_value_of ttest2
             (map (map Cabs) (mGrangerdDTF.dDTF_ij og)) su i j)
             (seq 0 (axis2 surrogate_series)))); [done|].
  intros i. apply forM_ext. intros j. apply Hp.
Qed.

Lemma significance_testing_ignores_the_t_statistic_witness :
  significance_testing (Samples.constant_pipeline Samples.self_driven) Samples.ttest_fixed
    Samples.step_series Samples.two_channel_sets 0.05
  = significance_testing (Samples.constant_pipeline Samples.self_driven)
      Samples.ttest_negative Samples.step_series Samples.two_channel_sets 0.05.
Proof.
  apply (significance_testing_ignores_the_t_statistic
           (Samples.constant_pipeline Samples.self_driven)
           Samples.ttest_fixed Samples.ttest_negative).
  intros a popmean. reflexivity.
Defined.

(** X24: raising the significance level never removes a connection: an
    entry of the network that is not zero at the level [alpha] is the same
    entry at every level [alpha' >= alpha]. *)
Theorem network_grows_with_the_level
    (new_mGrangerdDTF : matrix → nat → nat → R → R → py mGrangerdDTF.object)
    (ttest_1samp : list R → R → option R * option R)
    (original_data : matrix) (surrogate_series : tensor) (alpha alpha' : R)
    (og : mGrangerdDTF.object) (runs : list mGrangerdDTF.object) (C : nat) :
  mGrangerdDTF_of_data new_mGrangerdDTF original_data = Ok og →
  Forall2 (λ series run, mGrangerdDTF_of_data new_mGrangerdDTF series = Ok run)
          surrogate_series runs →
  rect C C (mGrangerdDTF.dDTF_ij og) →
  Forall (λ run, rect C C (mGrangerdDTF.dDTF_ij run)) runs →
  axis2 surrogate_series = C →
  alpha <= alpha' →
  ∃ network network',
    significance_testing new_mGrangerdDTF ttest_1samp original_data surrogate_series alpha
    = Ok network
    ∧ significance_testing new_mGrangerdDTF ttest_1samp original_data surrogate_series
        alpha' = Ok network'
    ∧ ∀ i j x, (i < C)%nat → (j < C)%nat →
        cell network i j = Some x → x ≠ 0 → cell network' i j = Some x.
Proof.
  intros Hog Hruns Hog_shape Hruns_shape HC Hle.
  destruct (significance_network new_mGrangerdDTF ttest_1samp original_data
              surrogate_series alpha og runs C Hog Hruns Hog_shape Hruns_shape HC)
    as (network & Hrun & Hcells).
  destruct (significance_network new_mGrangerdDTF ttest_1samp original_data
              surrogate_series alpha' og runs C Hog Hruns Hog_shape Hruns_shape HC)
    as (network' & Hrun' & Hcells').
  exists network, network'. split; [done|]. split; [done|].
  intros i j x Hi Hj Hx Hnz. rewrite (Hcells i j Hi Hj) in Hx. injection Hx as <-.
  rewrite (Hcells' i j Hi Hj). f_equal. unfold times_bool, float_lt in *.
  destruct (one_tailed_p _ _ _) as [p|]; [|exfalso; apply Hnz; lra].
  destruct (decide (p < alpha)) as [Hp|Hp].
  - rewrite !bool_decide_eq_true_2 by lra. done.
  - rewrite (bool_decide_eq_false_2 (p < alpha)) in Hnz by done. exfalso. apply Hnz. lra.
Qed.

Lemma network_grows_with_the_level_witness :
  ∃ network network',
    significance_testing (Samples.constant_pipeline Samples.self_driven)
      Samples.ttest_fixed Samples.step_series Samples.two_channel_sets 0.05 = Ok network
    ∧ significance_testing (Samples.constant_pipeline Samples.self_driven)
        Samples.ttest_fixed Samples.step_series Samples.two_channel_sets 0.1 = Ok network'
    ∧ ∀ i j x, (i < 2)%nat → (j < 2)%nat →
        cell network i j = Some x → x ≠ 0 → cell network' i j = Some x.
Proof.
  apply (network_grows_with_the_level (Samples.constant_pipeline Samples.self_driven)
           Samples.ttest_fixed Samples.step_series Samples.two_channel_sets 0.05 0.1
           (Samples.run_with Samples.self_driven)
           [Samples.run_with Samples.self_driven; Samples.run_with Samples.self_driven]
           2%nat);
    first [lra | repeat constructor].
Defined.

End TesterFacts.

(** ** What a returned object looks like *)

Module ObjectFacts.
Import mGrangerdDTF ComputeEFacts ResidualFacts TransferFacts VarianceFacts
  CoherenceFacts NormalisationFacts PipelineFacts dDTFFacts.

Local Open Scope R_scope.

Tactic Notation "py_step" "in" hyp(H) :=
  cbn [mbind py_bind fmap py_fmap mret py_ret] in H.

(** *** The residuals *)

Lemma length_scalar_fold (A observed : matrix) i e lags :
  length (foldl (λ e lag, map (λ x, x - dot (A !!! (lag - 1)%nat)
                                         (observed !!! (i - lag)%nat)) e) e lags)
  = length e.
Proof.
  revert e. induction lags as [|lag lags IH]; intros e; simpl; [done|].
  by rewrite IH, length_map.
Qed.

Lemma compute_E_2d_shape (C : nat) (data A : matrix) :
  Forall (λ row, length row = C) data →
  Forall (λ row, length row = C) A →
  ∃ errors, compute_E data (Arr2 A) = Ok errors
    ∧ rect (length data - length A) C errors.
Proof.
  intros Hdata HA. unfold compute_E. simpl shape0.
  rewrite index0_Arr2. py_step.
  set (observed := drop (length A) data).
  assert (Hobs : Forall (λ row, length row = C) observed) by by apply Forall_drop.
  assert (Hlen : length observed = (length data - length A)%nat)
    by apply length_drop.
  destruct (rows_loop_any (Row <$> A) observed (length A)
              (scalar_residual A observed)) with
    (n := (length observed - length A)%nat) (a := 0%nat) (errors := zeros_like observed)
    as (errors & Hrun & Hl & Hnew & Hold).
  { intros i Hi. unfold scalar_residual. apply (row_fold_scalar C); [done|done| |lia].
    apply Forall_forall. intros lag Hlag. apply elem_of_seq in Hlag. lia. }
  { lia. }
  { rewrite length_zeros_like. lia. }
  rewrite Nat.add_0_r in Hrun. exists errors. split; [done|].
  rewrite length_zeros_like in Hl. split; [lia|].
  apply Forall_lookup. intros k row Hrow.
  assert (Hk : (k < length observed)%nat) by (rewrite <- Hl; by eapply lookup_lt_Some).
  rewrite Forall_lookup in Hobs.
  destruct (decide (k < length observed - length A)%nat) as [Hcomputed|Hkept].
  - rewrite Hnew in Hrow by lia. injection Hrow as <-.
    unfold scalar_residual. rewrite length_scalar_fold.
    apply (Hobs (length A + k)%nat). apply list_lookup_lookup_total_lt. lia.
  - rewrite Hold in Hrow by lia.
    destruct (lookup_lt_is_Some_2 observed k Hk) as [orow Horow].
    rewrite (zeros_like_lookup _ _ _ Horow) in Hrow. injection Hrow as <-.
    rewrite length_replicate. by eapply Hobs.
Qed.

(** *** Loops that keep a shape *)

Lemma foldM_invariant {S X} (P : S → Prop) (body : S → X → py S) (xs : list X) :
  (∀ s x s', body s x = Ok s' → P s → P s') →
  ∀ s s', foldM body s xs = Ok s' → P s → P s'.
Proof.
  intros Hbody. induction xs as [|x xs IH]; intros s s'; simpl.
  - by intros [= <-].
  - destruct (body s x) as [s1| |] eqn:Hs1; py_step; [|done..].
    intros Hrun Hs. apply (IH s1 s' Hrun). by eapply Hbody.
Qed.

Lemma forM_Forall2 {X Y} (f : X → py Y) (xs : list X) (ys : list Y) :
  forM f xs = Ok ys → Forall2 (λ x y, f x = Ok y) xs ys.
Proof.
  revert ys. induction xs as [|x xs IH]; intros ys; simpl.
  - intros [= <-]. constructor.
  - destruct (f x) as [y| |] eqn:Hy; py_step; [|done..].
    destruct (forM f xs) as [ys'| |]; py_step; [|done..].
    intros [= <-]. constructor; [done|by apply IH].
Qed.

Lemma rect_alter_insert {Z} r c (d : list (list Z)) i j v :
  rect r c d → rect r c (alter (<[j := v]>) i d).
Proof.
  intros [Hlen Hrows]. split; [by rewrite length_alter|].
  apply Forall_lookup. intros i' row Hrow. rewrite Forall_lookup in Hrows.
  destruct (decide (i' = i)) as [->|Hne].
  - rewrite list_lookup_alter_eq in Hrow.
    destruct (d !! i) as [row0|] eqn:Hrow0; [|done]. injection Hrow as <-.
    rewrite length_insert. by eapply Hrows.
  - rewrite list_lookup_alter_ne in Hrow by done. by eapply Hrows.
Qed.

Lemma compute_dDTF_shape {X Y Z} (zero : Z) (add : Z → Z → Z) (mul : X → Y → Z)
    (h_ij : list (list (list X))) (theta_ij : list (list (list Y))) dDTF_ij :
  compute_dDTF zero add mul h_ij theta_ij = Ok dDTF_ij →
  rect (axis1 theta_ij) (axis2 theta_ij) dDTF_ij.
Proof.
  unfold compute_dDTF. intros Hrun.
  eapply (foldM_invariant (rect (axis1 theta_ij) (axis2 theta_ij))); [|exact Hrun|].
  - intros d i d' Hcols. eapply foldM_invariant; [|exact Hcols].
    intros d1 j d1' Hslices. eapply foldM_invariant; [|exact Hslices].
    intros d2 f d2'. unfold accumulate.
    destruct (getitem2 d2 i j) as [acc| |]; py_step; [|done..].
    destruct (getitem3 h_ij f i j) as [h| |]; py_step; [|done..].
    destruct (getitem3 theta_ij f i j) as [th| |]; py_step; [|done..].
    intros [= <-]. apply rect_alter_insert.
  - split; [by rewrite length_replicate|].
    apply Forall_replicate. by rewrite length_replicate.
Qed.

(** *** The partial coherence *)

Lemma rect3_map3 {X Y} (g : X → Y) r c (t : list (list (list X))) :
  rect3 r c t → rect3 r c (map3 g t).
Proof.
  intros Ht. unfold map3. apply Forall_fmap. eapply Forall_impl; [exact Ht|].
  intros m Hm. simpl. by apply rect_map.
Qed.

Lemma length_map3 {X Y} (g : X → Y) (t : list (list (list X))) :
  length (map3 g t) = length t.
Proof. unfold map3. by rewrite length_map. Qed.

Lemma normalize_complex_arr_shape r c (a : ctensor) b :
  normalize_complex_arr a = Ok b → rect3 r c a → length b = length a ∧ rect3 r c b.
Proof.
  unfold normalize_complex_arr.
  destruct (np_min (map re (flat a))) as [real_min| |]; py_step; [|done..].
  destruct (np_min (map im (flat a))) as [imag_min| |]; py_step; [|done..].
  destruct (np_max _) as [abs_max| |]; py_step; [|done..].
  intros [= <-] Ha. rewrite !length_map3. split; [done|].
  by do 2 apply rect3_map3.
Qed.

Lemma table_shape {X} (f : nat → nat → py X) rows cols (m : list (list X)) :
  forM (λ i, forM (λ j, f i j) (seq 0 cols)) (seq 0 rows) = Ok m → rect rows cols m.
Proof.
  intros Hm. split.
  - apply forM_length in Hm. by rewrite length_seq in Hm.
  - apply forM_Forall2 in Hm. apply Forall_lookup. intros i row Hrow.
    destruct (Forall2_lookup_r _ _ _ _ _ Hm Hrow) as (i' & _ & Hi').
    apply forM_length in Hi'. by rewrite length_seq in Hi'.
Qed.

Lemma compute_partial_coherence_shape (S : ctensor) theta :
  compute_partial_coherence S = Ok theta →
  length theta = length S ∧ rect3 (axis1 S) (axis2 S) theta.
Proof.
  unfold compute_partial_coherence.
  destruct (forM _ S) as [cof| |] eqn:Hcof; py_step; [|done..].
  destruct (forM _ cof) as [raw| |] eqn:Hraw; py_step; [|done..].
  destruct (normalize_complex_arr raw) as [b| |] eqn:Hb; py_step; [|done..].
  intros [= <-].
  assert (Hshape : rect3 (axis1 S) (axis2 S) raw).
  { apply forM_Forall2 in Hraw. apply Forall_lookup. intros f m Hm.
    destruct (Forall2_lookup_r _ _ _ _ _ Hraw Hm) as (cof_s & _ & Hslice).
    by apply table_shape in Hslice. }
  destruct (normalize_complex_arr_shape _ _ raw b Hb Hshape) as [Hlen Hshape'].
  split.
  - rewrite length_map3, Hlen. apply forM_length in Hraw, Hcof. lia.
  - by apply rect3_map3.
Qed.

Lemma forM_rows_shape {X Y} (f : X → py Y) r c (m : list (list X)) m' :
  forM (forM f) m = Ok m' → rect r c m → rect r c m'.
Proof.
  intros Hm [Hlen Hrows]. split; [apply forM_length in Hm; lia|].
  apply forM_Forall2 in Hm. apply Forall_lookup. intros i row' Hrow'.
  destruct (Forall2_lookup_r _ _ _ _ _ Hm Hrow') as (row & Hrow & Hf).
  apply forM_length in Hf. rewrite Forall_lookup in Hrows.
  rewrite Hf. by eapply Hrows.
Qed.

Lemma finite3_shape r c (t : list (list (list (option R)))) t' :
  finite3 t = Ok t' → rect3 r c t → length t' = length t ∧ rect3 r c t'.
Proof.
  unfold finite3. intros Ht Hshape. split; [by eapply forM_length|].
  apply forM_Forall2 in Ht. apply Forall_lookup. intros f m' Hm'.
  destruct (Forall2_lookup_r _ _ _ _ _ Ht Hm') as (m & Hm & Hf).
  eapply forM_rows_shape; [exact Hf|].
  unfold rect3 in Hshape. rewrite Forall_lookup in Hshape. by eapply Hshape.
Qed.

Lemma axes_rect3 {X} r c (t : list (list (list X))) :
  rect3 r c t → t ≠ [] → (0 < r)%nat → axis1 t = r ∧ axis2 t = c.
Proof.
  intros Ht Hne Hr. destruct t as [|m t]; [done|].
  apply Forall_cons in Ht as [Hm _]. unfold axis1, axis2. simpl.
  split; [by destruct Hm|by apply (ncols_rect r c)].
Qed.

(** X26: the shapes in a returned object.  For a series of [T] samples
    and [C] channels, [0 < C < T], and a [C x C] coefficient matrix, an
    object that the constructor returns has at least one frequency; its
    residuals have [T - C] rows, because the lag order is read off the
    number of rows of the coefficient matrix; [A_f], [H], [H_h], [S_f] and
    [theta_ij] have one [C x C] slice per frequency; [V] holds the same
    non-negative number for every frequency; [dDTF_ij] and [abs_dDTF] are
    [C x C]. *)
Theorem returned_object_shapes (VAR_fit : matrix → nat → py tensor) (data : matrix)
    (order F : nat) (lo hi : R) (run : object) (T C : nat) :
  execute_sequence VAR_fit data order F lo hi = Ok run →
  rect T C data → rect C C (A_n run) → (0 < C)%nat → (C < T)%nat →
  (0 < F)%nat
  ∧ rect (T - C) C (errors run)
  ∧ (length (A_f run) = F ∧ rect3 C C (A_f run))
  ∧ (length (H run) = F ∧ rect3 C C (H run))
  ∧ (length (H_h run) = F ∧ rect3 C C (H_h run))
  ∧ (∃ v, 0 <= v ∧ V run = replicate F v)
  ∧ (length (S_f run) = F ∧ rect3 C C (S_f run))
  ∧ (length (theta_ij run) = F ∧ rect3 C C (theta_ij run))
  ∧ rect C C (dDTF_ij run)
  ∧ rect C C (abs_dDTF run).
Proof.
  unfold execute_sequence. intros Hrun Hdata.
  destruct (compute_A_n VAR_fit data order) as [A| |]; py_step in Hrun; [|done..].
  destruct (compute_E data (Arr2 A)) as [e| |] eqn:HE; py_step in Hrun; [|done..].
  destruct (compute_A_f A F lo hi) as [Af| |] eqn:HAf; py_step in Hrun; [|done..].
  destruct (compute_H_f Af) as [h| |] eqn:HH; py_step in Hrun; [|done..].
  destruct (compute_H_h h) as [hh| |] eqn:HHh; py_step in Hrun; [|done..].
  destruct (compute_E_f e lo hi F) as [ef| |] eqn:HEf; py_step in Hrun; [|done..].
  destruct (compute_V ef) as [v| |] eqn:HV; py_step in Hrun; [|done..].
  destruct (compute_S_f h hh v) as [s| |] eqn:HS; py_step in Hrun; [|done..].
  destruct (compute_partial_coherence s) as [th| |] eqn:Hth; py_step in Hrun; [|done..].
  destruct (finite3 th) as [thf| |] eqn:Hfin; py_step in Hrun; [|done..].
  destruct (compute_dDTF _ _ _ h thf) as [d| |] eqn:Hd; py_step in Hrun; [|done..].
  injection Hrun as <-. cbn [A_n errors A_f H H_h V S_f theta_ij dDTF_ij abs_dDTF].
  intros HA HC HT. pose proof Hdata as [HlT Hrows]. pose proof HA as [HlA HArows].
  (* the residuals *)
  destruct (compute_E_2d_shape C data A Hrows HArows) as (e' & HE' & He).
  rewrite HE in HE'. injection HE' as <-. rewrite HlT, HlA in He.
  (* the transfer function *)
  destruct (compute_A_f_shape C A F lo hi HA HC) as (Af' & HAf' & HlAf & HsAf).
  rewrite HAf in HAf'. injection HAf' as <-.
  destruct (compute_H_f_shape C Af h HsAf HH) as [HlH HsH].
  rewrite (compute_H_h_slices C) in HHh by done. injection HHh as <-.
  assert (HsHh : rect3 C C ((λ m, map (map Cconj) (transpose m)) <$> h)).
  { apply Forall_fmap. eapply Forall_impl; [exact HsH|]. intros m Hm. simpl.
    by apply rect_conj_transpose. }
  (* the variance *)
  destruct (np_var_nonneg
              (concat (transpose (map (λ column, fft (map RtoC column)) (transpose e)))))
    as (v0 & Hv0 & Hpos).
  { apply (concat_rect_nonempty (T - C) C); [|lia|done].
    apply rect_E_f_slice; [done|lia|done]. }
  rewrite compute_E_f_rows in HEf by (destruct He as [Hle _]; lia).
  injection HEf as <-. unfold compute_V in HV.
  rewrite (forM_replicate (λ slice : cmatrix, np_var (concat slice))
             (transpose (map (λ column, fft (map RtoC column)) (transpose e))) v0 F Hv0)
    in HV.
  injection HV as <-.
  (* the spectral density and the partial coherence *)
  destruct (compute_S_f_shape C h _ s _ HsH HC HS) as [HlS HsS].
  assert (HF : (0 < F)%nat).
  { destruct (decide (F = 0)%nat) as [HF0|]; [|lia]. exfalso.
    rewrite HlH, HlAf, HF0 in HlS. apply nil_length_inv in HlS. by rewrite HlS in Hth. }
  assert (Hs_ne : s ≠ []) by (intros ->; simpl in HlS; lia).
  destruct (axes_rect3 C C s HsS Hs_ne HC) as [Hax1 Hax2].
  destruct (compute_partial_coherence_shape s th Hth) as [Hlth Hsth].
  rewrite Hax1, Hax2 in Hsth.
  destruct (finite3_shape C C th thf Hfin Hsth) as [Hlthf Hsthf].
  assert (Hthf_ne : thf ≠ []) by (intros ->; simpl in Hlthf; lia).
  destruct (axes_rect3 C C thf Hsthf Hthf_ne HC) as [Hax1' Hax2'].
  pose proof (compute_dDTF_shape _ _ _ _ _ _ Hd) as Hsd. rewrite Hax1', Hax2' in Hsd.
  split_and!; try done.
  - lia.
  - by rewrite length_fmap; lia.
  - by exists v0.
  - lia.
  - lia.
  - unfold compute_abs_dDTF. by apply rect_map.
Qed.

(** *** A run that returns *)

(** Equality of two arrays of complex numbers, entry by entry. *)
Ltac cmatrix_eq :=
  repeat (apply (f_equal2 cons);
          [repeat (apply (f_equal2 cons); [cx_eq|]); reflexivity|]);
  reflexivity.

Lemma step_A_f :
  compute_A_f Samples.identity_coefficients 1 0 0 = Ok Samples.unit_transfer.
Proof.
  unfold compute_A_f, Samples.identity_coefficients, fft2. simpl.
  unfold A_f_slice, mul2, exp_term, broadcast. simpl.
  cis_zero. cis_quarters. unfold unit_quarter. simpl.
  f_equal. apply (f_equal2 cons); [cmatrix_eq|reflexivity].
Qed.

Lemma step_H_f : compute_H_f Samples.unit_transfer = Ok Samples.unit_transfer.
Proof.
  unfold compute_H_f, Samples.unit_transfer. cbn [forM].
  by rewrite linalg_inv_identity_2x2.
Qed.

Lemma step_H_h : compute_H_h Samples.unit_transfer = Ok Samples.unit_transfer.
Proof.
  unfold compute_H_h, Samples.unit_transfer. simpl.
  f_equal. apply (f_equal2 cons); [cmatrix_eq|reflexivity].
Qed.

Lemma step_E_f (lo hi : R) :
  compute_E_f Samples.step_residuals lo hi 1 = Ok Samples.step_residuals_f.
Proof.
  unfold compute_E_f, Samples.step_residuals, fft. simpl.
  cis_zero. cis_quarters. unfold unit_quarter. simpl.
  f_equal. apply (f_equal2 cons); [cmatrix_eq|reflexivity].
Qed.

Lemma step_V : compute_V Samples.step_residuals_f = Ok [1].
Proof.
  unfold compute_V, Samples.step_residuals_f, np_var. simpl.
  do 2 f_equal. field.
Qed.

Lemma step_S_f :
  compute_S_f Samples.unit_transfer Samples.unit_transfer [1] = Ok Samples.unit_transfer.
Proof.
  unfold compute_S_f, Samples.unit_transfer. simpl.
  f_equal. apply (f_equal2 cons); [cmatrix_eq|reflexivity].
Qed.

Lemma step_dDTF :
  compute_dDTF C0 Cadd (λ h th, Cscale th h) Samples.unit_transfer [[[1; 0]; [0; 1]]]
  = Ok [[C1; C0]; [C0; C1]].
Proof.
  unfold compute_dDTF, Samples.unit_transfer. simpl.
  f_equal. cmatrix_eq.
Qed.

(** The whole sequence on the step series. *)
Example execute_sequence_step :
  execute_sequence Samples.identity_fit Samples.step_series 1 1 0 0
  = Ok Samples.identity_run.
Proof.
  unfold execute_sequence.
  replace (compute_A_n Samples.identity_fit Samples.step_series 1)
    with (Ok Samples.identity_coefficients) by reflexivity.
  py_step. rewrite step_E. py_step. rewrite step_A_f. py_step.
  rewrite step_H_f. py_step. rewrite step_H_h. py_step.
  rewrite step_E_f. py_step. rewrite step_V. py_step. rewrite step_S_f. py_step.
  rewrite partial_coherence_identity. py_step.
  replace (finite3 [[[Some 1; Some 0]; [Some 0; Some 1]]])
    with (Ok [[[1; 0]; [0; 1]]] : py tensor) by reflexivity.
  py_step. rewrite step_dDTF. py_step. reflexivity.
Qed.

Lemma returned_object_shapes_witness :
  (0 < 1)%nat
  ∧ rect (6 - 2) 2 (errors Samples.identity_run)
  ∧ (length (A_f Samples.identity_run) = 1%nat ∧ rect3 2 2 (A_f Samples.identity_run))
  ∧ (length (H Samples.identity_run) = 1%nat ∧ rect3 2 2 (H Samples.identity_run))
  ∧ (length (H_h Samples.identity_run) = 1%nat ∧ rect3 2 2 (H_h Samples.identity_run))
  ∧ (∃ v, 0 <= v ∧ V Samples.identity_run = replicate 1 v)
  ∧ (length (S_f Samples.identity_run) = 1%nat ∧ rect3 2 2 (S_f Samples.identity_run))
  ∧ (length (theta_ij Samples.identity_run) = 1%nat
     ∧ rect3 2 2 (theta_ij Samples.identity_run))
  ∧ rect 2 2 (dDTF_ij Samples.identity_run)
  ∧ rect 2 2 (abs_dDTF Samples.identity_run).
Proof.
  apply (returned_object_shapes Samples.identity_fit Samples.step_series 1 1 0 0
           Samples.identity_run 6 2 execute_sequence_step);
    first [lia | repeat constructor].
Defined.

End ObjectFacts.

(** ** The diagonal of the partial coherence *)

Module DiagonalFacts.
Import mGrangerdDTF CoherenceFacts NormalisationFacts FourierFacts ObjectFacts.

Local Open Scope R_scope.

Lemma Cdiv_self (z w : C) : Cdiv z z = Ok w → w = C1.
Proof.
  unfold Cdiv. destruct (decide (z = C0)) as [|Hz]; [done|]. intros [= <-].
  by rewrite Cmul_comm, Cmul_Cinv.
Qed.

(** A raw [theta] on the diagonal: the square of a cofactor over itself. *)
Lemma raw_theta_diagonal (cof_s : cmatrix) rows cols (slice : cmatrix) i w :
  forM (λ i, forM (λ j,
          c_ij ← getitem2 cof_s i j;
          c_ii ← getitem2 cof_s i i;
          c_jj ← getitem2 cof_s j j;
          Cdiv (Cmul c_ij c_ij) (Cmul c_ii c_jj)) (seq 0 cols)) (seq 0 rows) = Ok slice →
  cell slice i i = Some w → w = C1.
Proof.
  intros Hslice Hcell. unfold cell in Hcell.
  destruct (slice !! i) as [row|] eqn:Hrow; [|done]. simpl in Hcell.
  apply forM_Forall2 in Hslice.
  destruct (Forall2_lookup_r _ _ _ _ _ Hslice Hrow) as (i' & Hi' & Hrow').
  apply lookup_seq in Hi' as [-> _]. simpl in Hrow'.
  apply forM_Forall2 in Hrow'.
  destruct (Forall2_lookup_r _ _ _ _ _ Hrow' Hcell) as (j & Hj & Hbody).
  apply lookup_seq in Hj as [-> _]. simpl in Hbody.
  destruct (getitem2 cof_s i i) as [c| |]; [|done..].
  cbn [mbind py_bind] in Hbody. by eapply Cdiv_self.
Qed.

Lemma cell_map_Some {A B} (g : A → B) (m : list (list A)) i j y :
  cell (map (map g) m) i j = Some y → ∃ x, cell m i j = Some x ∧ y = g x.
Proof.
  rewrite cell_map. destruct (cell m i j) as [x|]; [|done]. intros [= <-]. eauto.
Qed.

(** X27: in what [compute_partial_coherence] returns, the entries on the
    diagonal are one and the same value, for every channel and every
    frequency: the raw value on the diagonal is the square of a cofactor
    over itself, which is 1, and the normalisation maps equal entries to
    equal entries. *)
Theorem partial_coherence_diagonal_is_constant (S : ctensor)
    (theta_ij : list (list (list (option R)))) :
  compute_partial_coherence S = Ok theta_ij →
  ∃ x, ∀ f m i y, theta_ij !! f = Some m → cell m i i = Some y → y = x.
Proof.
  unfold compute_partial_coherence.
  destruct (forM _ S) as [cof| |]; py_step; [|done..].
  destruct (forM _ cof) as [raw| |] eqn:Hraw; py_step; [|done..].
  unfold normalize_complex_arr.
  destruct (np_min (map re (flat raw))) as [real_min| |]; py_step; [|done..].
  destruct (np_min (map im (flat raw))) as [imag_min| |]; py_step; [|done..].
  destruct (np_max _) as [abs_max| |]; py_step; [|done..].
  intros [= <-].
  exists (option_map Cabs (Cdiv_real (offset_by real_min imag_min C1) abs_max)).
  intros f m i y Hm Hy. unfold map3 in Hm.
  rewrite !list_lookup_fmap in Hm.
  destruct (raw !! f) as [slice|] eqn:Hslice; [|done]. simpl in Hm. injection Hm as <-.
  apply cell_map_Some in Hy as (y1 & Hy & ->).
  apply cell_map_Some in Hy as (y2 & Hy & ->).
  apply cell_map_Some in Hy as (w & Hy & ->).
  apply forM_Forall2 in Hraw.
  destruct (Forall2_lookup_r _ _ _ _ _ Hraw Hslice) as (cof_s & _ & Hbody).
  by rewrite (raw_theta_diagonal _ _ _ _ _ _ Hbody Hy).
Qed.

Lemma partial_coherence_diagonal_is_constant_witness :
  ∃ x, ∀ f m i y,
    [[[Some 1; Some 0]; [Some 0; Some 1]]] !! f = Some m → cell m i i = Some y → y = x.
Proof.
  apply (partial_coherence_diagonal_is_constant Samples.unit_transfer
           [[[Some 1; Some 0]; [Some 0; Some 1]]] partial_coherence_identity).
Defined.

End DiagonalFacts.

(** ** The transfer function is an inverse *)

Module InverseFacts.
Import mGrangerdDTF CoherenceFacts TransferFacts VarianceFacts DegreeFacts FourierFacts.

Local Open Scope R_scope.

(** *** Signs and sums *)

Lemma sign_S (k : nat) : sign (S k) = Copp (sign k).
Proof.
  unfold sign. rewrite Nat.even_succ, <- Nat.negb_even.
  destruct (Nat.even k); unfold Copp, C1; simpl; f_equal; lra.
Qed.

Lemma sign_add (a b : nat) : sign (a + b) = Cmul (sign a) (sign b).
Proof.
  unfold sign. rewrite Nat.even_add.
  destruct (Nat.even a), (Nat.even b); simpl; cx_eq.
Qed.

Lemma Copp_involutive (z : C) : Copp (Copp z) = z.
Proof. destruct z. unfold Copp. simpl. f_equal; lra. Qed.

Lemma Cmul_opp_l (z w : C) : Cmul (Copp z) w = Copp (Cmul z w).
Proof. destruct z, w. unfold Copp, Cmul. simpl. f_equal; lra. Qed.

Lemma Cmul_opp_r (z w : C) : Cmul z (Copp w) = Copp (Cmul z w).
Proof. destruct z, w. unfold Copp, Cmul. simpl. f_equal; lra. Qed.

Lemma Copp_0 : Copp C0 = C0.
Proof. unfold Copp, C0. simpl. f_equal; lra. Qed.

Lemma Copp_self_zero (z : C) : z = Copp z → z = C0.
Proof. destruct z as [a b]. unfold Copp, C0. simpl. intros [= Ha Hb]. f_equal; lra. Qed.

Lemma Cmul_0_l (z : C) : Cmul C0 z = C0.
Proof. destruct z. cx_eq. Qed.

Lemma Cmul_1_l (z : C) : Cmul C1 z = z.
Proof. destruct z. cx_eq. Qed.

Lemma csum_opp {X} (f : X → C) (xs : list X) :
  csum (map (λ x, Copp (f x)) xs) = Copp (csum (map f xs)).
Proof.
  induction xs as [|x xs IH]; simpl; [by rewrite Copp_0|]. rewrite IH.
  destruct (f x), (csum (map f xs)). unfold Copp, Cadd. simpl. f_equal; lra.
Qed.

Lemma csum_mul_r {X} (c : C) (f : X → C) (xs : list X) :
  csum (map (λ x, Cmul (f x) c) xs) = Cmul (csum (map f xs)) c.
Proof.
  rewrite (Cmul_comm _ c), <- csum_mul_l. apply csum_ext. intros x _. apply Cmul_comm.
Qed.

(** *** Deleting columns *)

Lemma delete_delete {X} (l : list X) (i j : nat) :
  (i ≤ j)%nat → delete i (delete (S j) l) = delete j (delete i l).
Proof.
  revert i j. induction l as [|x l IH]; intros i j Hij; [done|].
  destruct i as [|i]; [done|]. destruct j as [|j]; [lia|].
  simpl. f_equal. apply IH. lia.
Qed.

Lemma length_delete_eq {X Y} (a : list X) (b : list Y) (j : nat) :
  length a = length b → length (delete j a) = length (delete j b).
Proof.
  revert b j. induction a as [|x a IH]; intros [|y b] j Hab; try done.
  destruct j as [|j]; simpl in *; [lia|]. f_equal. apply IH. lia.
Qed.

Lemma length_delete_lt {X} (a : list X) (j : nat) :
  (j < length a)%nat → length (delete j a) = (length a - 1)%nat.
Proof. intros Hj. apply length_delete. by apply lookup_lt_is_Some_2. Qed.

Lemma lookup_total_delete_lt {X} `{Inhabited X} (l : list X) (i j : nat) :
  (j < i)%nat → delete i l !!! j = l !!! j.
Proof. intros Hj. rewrite !list_lookup_total_alt. by rewrite list_lookup_delete_lt. Qed.

Lemma lookup_total_delete_ge {X} `{Inhabited X} (l : list X) (i j : nat) :
  (i ≤ j)%nat → delete i l !!! j = l !!! S j.
Proof. intros Hj. rewrite !list_lookup_total_alt. by rewrite list_lookup_delete_ge. Qed.

(** *** The expansion along the first row, as a sum over the column index *)

Lemma det_n_S (n : nat) (row0 : list C) (rest : cmatrix) :
  det_n (S n) (row0 :: rest)
  = csum (map (λ j, Cmul (Cmul (sign j) (row0 !!! j)) (det_n n (map (delete j) rest)))
              (seq 0 (length row0))).
Proof. simpl. by rewrite csum_imap. Qed.


(** A sum over the entries of a row without its column [j], as a sum over
    the entries of the row. *)
Lemma csum_delete_aux (G : nat → C → C) (r : list C) (j k : nat) :
  csum (map (λ l, G l (delete j r !!! l)) (seq 0 (j + k)))
  = csum (map (λ c, if decide (c < j)%nat then G c (r !!! c)
                    else if decide (c = j) then C0 else G (c - 1)%nat (r !!! c))
              (seq 0 (j + S k))).
Proof.
  rewrite !seq_app, !map_app, !csum_app. cbn [seq map]. rewrite csum_cons.
  rewrite decide_False by lia. rewrite decide_True by done. rewrite Cadd_0_l.
  f_equal.
  - apply csum_ext. intros c Hc. apply elem_of_seq in Hc.
    rewrite decide_True by lia. by rewrite lookup_total_delete_lt by lia.
  - rewrite <- fmap_S_seq, <- list_fmap_compose.
    apply csum_ext. intros l Hl. apply elem_of_seq in Hl. simpl.
    rewrite decide_False by lia. rewrite decide_False by lia.
    rewrite lookup_total_delete_ge by lia. by rewrite Nat.sub_0_r.
Qed.

Lemma csum_delete (G : nat → C → C) (r : list C) (j : nat) :
  (j < length r)%nat →
  csum (map (λ l, G l (delete j r !!! l)) (seq 0 (length r - 1)))
  = csum (map (λ c, if decide (c < j)%nat then G c (r !!! c)
                    else if decide (c = j) then C0 else G (c - 1)%nat (r !!! c))
              (seq 0 (length r))).
Proof.
  intros Hj.
  replace (length r - 1)%nat with (j + (length r - 1 - j))%nat by lia.
  replace (length r) with (j + S (length r - 1 - j))%nat at 2 by lia.
  apply csum_delete_aux.
Qed.

(** *** Swapping the first two rows *)

Section TwoRows.

Variables (n : nat) (rest : cmatrix).

(** The minor without the columns [j] and, of what is left, [l]; and the
    coefficient of [r0[j] * r1[c]] in the determinant of [r0 :: r1 :: rest]. *)
Let minor2 (j l : nat) : C := det_n n (map (delete l) (map (delete j) rest)).
Let coefficient (j c : nat) : C :=
  if decide (c < j)%nat then Cmul (Cmul (sign j) (sign c)) (minor2 j c)
  else if decide (c = j) then C0
  else Cmul (Cmul (sign j) (sign (c - 1))) (minor2 j (c - 1)).

Lemma minor2_commute (i j : nat) : (i ≤ j)%nat → minor2 i j = minor2 (S j) i.
Proof.
  intros Hij. unfold minor2. f_equal. rewrite <- !list_fmap_compose.
  apply Forall_fmap_ext_1, Forall_forall. intros row _. simpl.
  symmetry. by apply delete_delete.
Qed.

Lemma coefficient_antisymmetric (j c : nat) : coefficient c j = Copp (coefficient j c).
Proof.
  unfold coefficient.
  destruct (decide (c < j)%nat) as [Hcj|Hcj].
  - rewrite decide_False by lia. rewrite decide_False by lia.
    destruct j as [|j]; [lia|]. replace (S j - 1)%nat with j by lia.
    rewrite (minor2_commute c j) by lia. rewrite sign_S.
    destruct (sign j), (sign c), (minor2 (S j) c). unfold Copp, Cmul. simpl. f_equal; lra.
  - destruct (decide (c = j)) as [->|Hne].
    + rewrite decide_False by lia. rewrite decide_True by done. by rewrite Copp_0.
    + rewrite decide_True by lia.
      destruct c as [|c]; [lia|]. replace (S c - 1)%nat with c by lia.
      rewrite (minor2_commute j c) by lia. rewrite sign_S.
      destruct (sign j), (sign c), (minor2 (S c) j). unfold Copp, Cmul. simpl. f_equal; lra.
Qed.

Lemma det_two_rows (r0 r1 : list C) :
  length r1 = length r0 →
  det_n (S (S n)) (r0 :: r1 :: rest)
  = csum (map (λ j, csum (map (λ c, Cmul (coefficient j c) (Cmul (r0 !!! j) (r1 !!! c)))
                              (seq 0 (length r0))))
              (seq 0 (length r0))).
Proof.
  intros Hlen. rewrite det_n_S. apply csum_ext. intros j Hj. apply elem_of_seq in Hj.
  cbn [map]. rewrite det_n_S. rewrite length_delete_lt by lia.
  rewrite (csum_delete
             (λ l x, Cmul (Cmul (sign l) x) (det_n n (map (delete l) (map (delete j) rest))))
             r1 j) by lia.
  rewrite <- csum_mul_l. rewrite Hlen. apply csum_ext. intros c Hc.
  unfold coefficient, minor2.
  destruct (decide (c < j)%nat); [|destruct (decide (c = j))].
  - destruct (sign j), (sign c), (det_n n _), (r0 !!! j), (r1 !!! c).
    unfold Cmul. simpl. f_equal; ring.
  - by rewrite Cmul_0_r, Cmul_0_l.
  - destruct (sign j), (sign (c - 1)), (det_n n _), (r0 !!! j), (r1 !!! c).
    unfold Cmul. simpl. f_equal; ring.
Qed.

Lemma det_swap_first_rows (r0 r1 : list C) :
  length r1 = length r0 →
  det_n (S (S n)) (r1 :: r0 :: rest) = Copp (det_n (S (S n)) (r0 :: r1 :: rest)).
Proof.
  intros Hlen. rewrite (det_two_rows r0 r1 Hlen), (det_two_rows r1 r0) by done.
  rewrite Hlen.
  rewrite (csum_swap (λ j c, Cmul (coefficient j c) (Cmul (r1 !!! j) (r0 !!! c)))).
  rewrite <- csum_opp. apply csum_ext. intros j _.
  rewrite <- csum_opp. apply csum_ext. intros c _.
  rewrite coefficient_antisymmetric, Cmul_opp_l. f_equal. f_equal. apply Cmul_comm.
Qed.

End TwoRows.

(** *** Swapping two neighbouring rows, moving a row, two equal rows *)

Lemma det_swap_rows (k : nat) (pre : cmatrix) (r0 r1 : list C) (rest : cmatrix) :
  length r1 = length r0 → (length pre + 2 ≤ k)%nat →
  det_n k (pre ++ r1 :: r0 :: rest) = Copp (det_n k (pre ++ r0 :: r1 :: rest)).
Proof.
  revert pre r0 r1 rest. induction k as [|k IH]; intros pre r0 r1 rest Hlen Hk; [lia|].
  destruct pre as [|p pre].
  - destruct k as [|k]; simpl in Hk; [lia|]. by apply det_swap_first_rows.
  - simpl in Hk.
    rewrite <- !app_comm_cons, !det_n_S. rewrite <- csum_opp.
    apply csum_ext. intros j _. rewrite <- Cmul_opp_r. f_equal.
    rewrite !map_app. cbn [map]. apply IH; [|rewrite length_map; lia].
    by apply length_delete_eq.
Qed.

Lemma det_move_row (k : nat) (pre mid : cmatrix) (r : list C) (rest : cmatrix) :
  Forall (λ q, length q = length r) mid → (length pre + length mid + 1 ≤ k)%nat →
  det_n k (pre ++ mid ++ r :: rest)
  = Cmul (sign (length mid)) (det_n k (pre ++ r :: mid ++ rest)).
Proof.
  revert rest. induction mid as [|q mid IH] using rev_ind; intros rest Hmid Hk.
  - simpl. by rewrite Cmul_1_l.
  - apply Forall_app in Hmid as [Hmid Hq]. apply Forall_cons in Hq as [Hq _].
    rewrite length_app in Hk. simpl in Hk.
    rewrite <- !(assoc_L (++) mid [q]). cbn [app].
    rewrite (assoc_L (++) pre mid (q :: r :: rest)).
    rewrite det_swap_rows by (rewrite ?length_app; done || lia).
    rewrite <- (assoc_L (++) pre mid (r :: q :: rest)).
    rewrite IH by (done || lia).
    rewrite length_app. simpl. rewrite Nat.add_1_r, sign_S.
    by rewrite Cmul_opp_l.
Qed.

(** The expansion along any row. *)
Lemma det_expand_row (n : nat) (pre : cmatrix) (r : list C) (rest : cmatrix) :
  Forall (λ q, length q = length r) pre → (length pre ≤ n)%nat →
  det_n (S n) (pre ++ r :: rest)
  = csum (map (λ j, Cmul (r !!! j)
                         (Cmul (sign (length pre + j))
                               (det_n n (map (delete j) (pre ++ rest)))))
              (seq 0 (length r))).
Proof.
  intros Hpre Hn.
  pose proof (det_move_row (S n) [] pre r rest Hpre) as Hmove. cbn [app] in Hmove.
  rewrite Hmove by (simpl; lia). rewrite det_n_S, <- csum_mul_l. apply csum_ext. intros j _.
  rewrite sign_add.
  destruct (sign (length pre)), (sign j), (r !!! j), (det_n n _).
  unfold Cmul. simpl. f_equal; ring.
Qed.

Lemma det_equal_rows (k : nat) (pre mid : cmatrix) (r : list C) (rest : cmatrix) :
  Forall (λ q, length q = length r) mid → (length pre + length mid + 2 ≤ k)%nat →
  det_n k (pre ++ r :: mid ++ r :: rest) = C0.
Proof.
  intros Hmid Hk.
  replace (pre ++ r :: mid ++ r :: rest) with ((pre ++ [r]) ++ mid ++ r :: rest)
    by by rewrite <- (assoc_L (++)).
  rewrite det_move_row by (rewrite ?length_app; simpl; done || lia).
  rewrite <- (assoc_L (++)). cbn [app].
  rewrite (Copp_self_zero (det_n k (pre ++ r :: r :: mid ++ rest))).
  - apply Cmul_0_r.
  - apply det_swap_rows; [done|lia].
Qed.


(** *** The cofactors of a row against a row *)

Lemma square_row {X} `{Inhabited X} (m : list (list X)) (i : nat) :
  square m → (i < length m)%nat → m !! i = Some (m !!! i) ∧ length (m !!! i) = length m.
Proof.
  intros Hsq Hi. assert (Hrow : m !! i = Some (m !!! i))
    by by apply list_lookup_lookup_total_lt.
  split; [done|]. unfold square in Hsq. rewrite Forall_lookup in Hsq. by eapply Hsq.
Qed.

Lemma square_rows_of {X} (m part : list (list X)) (r : list X) :
  square m → length r = length m → part ⊆ m → Forall (λ q, length q = length r) part.
Proof.
  intros Hsq Hr Hsub. apply Forall_forall. intros q Hq. rewrite Hr.
  unfold square in Hsq. rewrite Forall_forall in Hsq. apply Hsq. by apply Hsub.
Qed.

Lemma cofactor_sum (n : nat) (m : cmatrix) (i k : nat) :
  square m → length m = S n → (i < S n)%nat → (k < S n)%nat →
  csum (map (λ j, Cmul (item2 m k j) (cofactor m i j)) (seq 0 (S n)))
  = det_n (S n) (take i m ++ m !!! k :: drop (S i) m).
Proof.
  intros Hsq Hn Hi Hk.
  destruct (square_row m k Hsq) as [Hrow Hlen]; [lia|].
  rewrite det_expand_row.
  - rewrite Hlen, Hn. apply csum_ext. intros j _. unfold item2, cofactor, det. f_equal.
    rewrite length_take_le by lia. f_equal.
    rewrite delete_take_drop. f_equal.
    rewrite length_map, length_app, length_take_le, length_drop by lia. lia.
  - apply (square_rows_of m); [done|done|]. apply subseteq_take.
  - rewrite length_take_le by lia. lia.
Qed.

(** Against its own row the cofactors of a row sum to the determinant,
    against another row to zero. *)
Lemma cofactor_sum_own (n : nat) (m : cmatrix) (i : nat) :
  square m → length m = S n → (i < S n)%nat →
  csum (map (λ j, Cmul (item2 m i j) (cofactor m i j)) (seq 0 (S n))) = det m.
Proof.
  intros Hsq Hn Hi. rewrite cofactor_sum by done.
  destruct (square_row m i Hsq) as [Hrow _]; [lia|].
  rewrite take_drop_middle by done. unfold det. by rewrite Hn.
Qed.

Lemma cofactor_sum_other (n : nat) (m : cmatrix) (i k : nat) :
  square m → length m = S n → (i < S n)%nat → (k < S n)%nat → k ≠ i →
  csum (map (λ j, Cmul (item2 m k j) (cofactor m i j)) (seq 0 (S n))) = C0.
Proof.
  intros Hsq Hn Hi Hk Hne. rewrite cofactor_sum by done.
  destruct (square_row m k Hsq) as [Hrow Hlen]; [lia|].
  destruct (decide (k < i)%nat) as [Hlt|Hge].
  - assert (Hpre : take i m !! k = Some (m !!! k)) by by rewrite lookup_take_lt.
    rewrite <- (take_drop_middle (take i m) k (m !!! k) Hpre).
    rewrite <- (assoc_L (++)). cbn [app].
    apply det_equal_rows.
    + apply (square_rows_of m); [done|done|].
      etrans; [apply subseteq_drop|apply subseteq_take].
    + rewrite length_take, length_drop, !length_take. lia.
  - assert (Hpost : drop (S i) m !! (k - S i)%nat = Some (m !!! k)).
    { rewrite lookup_drop. rewrite <- Hrow. f_equal. lia. }
    rewrite <- (take_drop_middle (drop (S i) m) (k - S i) (m !!! k) Hpost).
    apply det_equal_rows.
    + apply (square_rows_of m); [done|done|].
      etrans; [apply subseteq_take|apply subseteq_drop].
    + rewrite !length_take, length_drop. lia.
Qed.


(** *** The inverse *)

Lemma rect_matmul (a b : cmatrix) : rect (length a) (ncols b) (matmul a b).
Proof.
  unfold matmul. split; [by rewrite length_map|].
  apply Forall_fmap, Forall_forall. intros row _. simpl.
  by rewrite length_map, length_seq.
Qed.

Lemma cell_matmul (a b : cmatrix) (i j : nat) :
  (i < length a)%nat → (j < ncols b)%nat →
  cell (matmul a b) i j
  = Some (csum (imap (λ k x, Cmul x (item2 b k j)) (a !!! i))).
Proof.
  intros Hi Hj. unfold cell, matmul. rewrite list_lookup_fmap.
  rewrite (list_lookup_lookup_total_lt a i) by done. simpl.
  rewrite list_lookup_fmap, lookup_seq_lt by done. done.
Qed.

(** What [np.linalg.inv] returns is an inverse: the product of the array
    and the result is the unit matrix. *)
Lemma linalg_inv_right_inverse (m inv : cmatrix) :
  linalg_inv m = Ok inv → matmul m inv = identity (length m).
Proof.
  unfold linalg_inv. destruct (decide (square m)) as [Hsq|]; [|done].
  destruct (decide (det m = C0)) as [|Hdet]; [done|]. intros [= <-].
  destruct (length m) as [|n] eqn:Hn.
  { apply nil_length_inv in Hn. by subst m. }
  set (inv := map (λ i, map (λ j, Cmul (cofactor m j i) (Cinv (det m))) (seq 0 (S n)))
                  (seq 0 (S n))).
  assert (Hinv : rect (S n) (S n) inv)
    by apply (rect_table (λ i j, Cmul (cofactor m j i) (Cinv (det m)))).
  assert (Hcols : ncols inv = S n) by (apply (ncols_rect (S n)); [done|lia]).
  apply (rect_cells_eq (S n) (S n)).
  - pose proof (rect_matmul m inv) as Hrect. by rewrite Hn, Hcols in Hrect.
  - apply (rect_table eye).
  - intros i j Hi Hj. rewrite cell_matmul by lia.
    rewrite (cell_item2 (S n) (S n) (identity (S n))) by (done || apply (rect_table eye)).
    unfold identity. rewrite item2_table by done. f_equal.
    destruct (square_row m i Hsq) as [_ Hlen]; [lia|].
    rewrite csum_imap, Hlen, Hn.
    rewrite (csum_ext _ (λ k, Cmul (Cmul (item2 m i k) (cofactor m j k)) (Cinv (det m)))).
    2:{ intros k Hk. apply elem_of_seq in Hk. unfold inv.
        rewrite item2_table by lia. apply Cmul_assoc. }
    rewrite (csum_mul_r (Cinv (det m))
               (λ k, Cmul (item2 m i k) (cofactor m j k))).
    unfold eye. destruct (decide (i = j)) as [->|Hne].
    + rewrite cofactor_sum_own by done. rewrite Cmul_comm. by apply Cmul_Cinv.
    + rewrite cofactor_sum_other by done. apply Cmul_0_l.
Qed.

(** *** The expansion along the first column *)

Lemma rect_delete_row {X} r c (m : list (list X)) (i : nat) :
  rect r c m → (i < r)%nat → rect (r - 1) c (delete i m).
Proof.
  intros [Hlen Hrows] Hi. split.
  - rewrite length_delete_lt by lia. lia.
  - apply Forall_forall. intros row Hrow. rewrite Forall_forall in Hrows.
    apply Hrows. by apply (list_elem_of_delete_inv _ i).
Qed.

Lemma rect_delete_column {X} r c (m : list (list X)) (j : nat) :
  rect r c m → (j < c)%nat → rect r (c - 1) (map (delete j) m).
Proof.
  intros [Hlen Hrows] Hj. split; [by rewrite length_map|].
  apply Forall_fmap. eapply Forall_impl; [exact Hrows|]. intros row Hrow. simpl in *.
  rewrite length_delete_lt by lia. lia.
Qed.

Lemma csum_seq_S (g : nat → C) (n : nat) :
  csum (map g (seq 0 (S n))) = Cadd (g 0%nat) (csum (map (λ k, g (S k)) (seq 0 n))).
Proof.
  cbn [seq map]. rewrite csum_cons. f_equal.
  by rewrite <- fmap_S_seq, <- list_fmap_compose.
Qed.

Lemma det_first_column (n : nat) : ∀ m : cmatrix,
  rect (S n) (S n) m →
  det_n (S n) m
  = csum (map (λ i, Cmul (Cmul (sign i) (item2 m i 0))
                         (det_n n (map (delete 0%nat) (delete i m))))
              (seq 0 (S n))).
Proof.
  induction n as [|n IH]; intros m Hm.
  - destruct Hm as [Hlen Hrows]. destruct m as [|[|a [|b r0]] [|r1 m]]; try done.
    all: apply Forall_cons in Hrows as [Hrow _]; done.
  - destruct (rect_cons _ _ m Hm) as (r0 & rest & -> & Hr0); [lia|].
    assert (Hrest : rect (S n) (S (S n)) rest).
    { destruct Hm as [Hlen Hrows]. apply Forall_cons in Hrows as [_ Hrows].
      split; [simpl in Hlen; lia|done]. }
    rewrite det_n_S, Hr0. rewrite csum_seq_S. rewrite (csum_seq_S _ (S n)).
    f_equal.
    rewrite (csum_ext _ (λ c, csum (map (λ i,
       Cmul (Copp (Cmul (Cmul (sign c) (sign i)) (Cmul (r0 !!! S c) (item2 rest i 0))))
            (det_n n (map (delete c) (map (delete 0%nat) (delete i rest)))))
       (seq 0 (S n))))).
    2:{ intros c Hc. apply elem_of_seq in Hc.
        rewrite (IH (map (delete (S c)) rest)).
        2:{ pose proof (rect_delete_column _ _ rest (S c) Hrest) as Hminor.
            replace (S (S n) - 1)%nat with (S n) in Hminor by lia. apply Hminor. lia. }
        rewrite <- csum_mul_l. apply csum_ext. intros i Hi. apply elem_of_seq in Hi.
        replace (item2 (map (delete (S c)) rest) i 0) with (item2 rest i 0).
        2:{ unfold item2.
            destruct (rect_row _ _ rest i Hrest) as [Hrow Hlen]; [lia|].
            rewrite (list_lookup_total_correct (map (delete (S c)) rest) i
                       (delete (S c) (rest !!! i)))
              by (by rewrite list_lookup_fmap, Hrow).
            by rewrite lookup_total_delete_lt by lia. }
        replace (map (delete 0%nat) (delete i (map (delete (S c)) rest)))
          with (map (delete c) (map (delete 0%nat) (delete i rest))).
        2:{ rewrite <- list_fmap_delete. rewrite <- !list_fmap_compose.
            apply Forall_fmap_ext_1, Forall_forall. intros row _. simpl.
            symmetry. apply delete_delete. lia. }
        rewrite sign_S.
        destruct (sign c), (sign i), (r0 !!! S c), (item2 rest i 0), (det_n n _).
        unfold Cmul, Copp. simpl. f_equal; ring. }
    rewrite csum_swap. apply csum_ext. intros i Hi. apply elem_of_seq in Hi.
    change (delete (S i) (r0 :: rest)) with (r0 :: delete i rest).
    cbn [map]. rewrite det_n_S. rewrite length_delete_lt by lia. rewrite Hr0.
    replace (S (S n) - 1)%nat with (S n) by lia.
    rewrite <- csum_mul_l. apply csum_ext. intros c Hc. apply elem_of_seq in Hc.
    replace (item2 (r0 :: rest) (S i) 0) with (item2 rest i 0) by done.
    rewrite lookup_total_delete_ge by lia.
    rewrite sign_S.
    destruct (sign c), (sign i), (r0 !!! S c), (item2 rest i 0), (det_n n _).
    unfold Cmul, Copp. simpl. f_equal; ring.
Qed.


(** *** The determinant of the transposed array *)

Lemma item2_minor {X} `{Inhabited X} r c (m : list (list X)) (i j a b : nat) :
  rect r c m → (i < r)%nat → (a < r - 1)%nat →
  item2 (map (delete j) (delete i m)) a b
  = item2 m (if decide (a < i)%nat then a else S a)
            (if decide (b < j)%nat then b else S b).
Proof.
  intros Hm Hi Ha. unfold item2.
  assert (Hrow : delete i m !! a = Some (m !!! (if decide (a < i)%nat then a else S a))).
  { destruct (decide (a < i)%nat).
    - rewrite list_lookup_delete_lt by done. apply list_lookup_lookup_total_lt.
      destruct Hm. lia.
    - rewrite list_lookup_delete_ge by lia. apply list_lookup_lookup_total_lt.
      destruct Hm. lia. }
  rewrite (list_lookup_total_correct (map (delete j) (delete i m)) a
             (delete j (m !!! (if decide (a < i)%nat then a else S a))))
    by (by rewrite list_lookup_fmap, Hrow).
  destruct (decide (b < j)%nat).
  - by rewrite lookup_total_delete_lt.
  - rewrite lookup_total_delete_ge by lia. done.
Qed.

Lemma rect_minor {X} n (m : list (list X)) (i j : nat) :
  rect (S n) (S n) m → (i < S n)%nat → (j < S n)%nat →
  rect n n (map (delete j) (delete i m)).
Proof.
  intros Hm Hi Hj.
  pose proof (rect_delete_row _ _ m i Hm Hi) as Hrows.
  pose proof (rect_delete_column _ _ _ j Hrows Hj) as Hminor.
  by replace (S n - 1)%nat with n in Hminor by lia.
Qed.

Lemma transpose_minor (n : nat) (m : cmatrix) (i j : nat) :
  rect (S n) (S n) m → (i < S n)%nat → (j < S n)%nat →
  map (delete j) (delete i (transpose m)) = transpose (map (delete i) (delete j m)).
Proof.
  intros Hm Hi Hj.
  assert (Ht : rect (S n) (S n) (transpose m)) by (apply rect_transpose; [done|lia]).
  pose proof (rect_minor n _ i j Ht Hi Hj) as Hleft.
  pose proof (rect_minor n _ j i Hm Hj Hi) as Hright.
  destruct n as [|n].
  { destruct Hleft as [Hl _], Hright as [Hr _].
    apply nil_length_inv in Hl, Hr. by rewrite Hl, Hr. }
  assert (Hrt : rect (S n) (S n) (transpose (map (delete i) (delete j m))))
    by (apply rect_transpose; [done|lia]).
  apply (rect_cells_eq (S n) (S n)); [done|done|].
  intros a b Ha Hb.
  rewrite !(cell_item2 (S n) (S n)) by done.
  f_equal.
  rewrite (item2_minor (S (S n)) (S (S n))) by (done || lia).
  rewrite (item2_transpose (S n) (S n) (map (delete i) (delete j m)) a b) by done.
  rewrite (item2_minor (S (S n)) (S (S n)) m) by (done || lia).
  apply (item2_transpose (S (S n)) (S (S n))); [done|..];
    destruct (decide _); lia.
Qed.

Lemma det_transpose (n : nat) : ∀ m : cmatrix,
  rect n n m → det_n n (transpose m) = det_n n m.
Proof.
  induction n as [|n IH]; intros m Hm; [done|].
  rewrite (det_first_column n m Hm).
  assert (Ht : rect (S n) (S n) (transpose m)) by (apply rect_transpose; [done|lia]).
  destruct (rect_cons _ _ _ Ht) as (t0 & trest & Heq & Ht0); [lia|].
  assert (Hrest : trest = delete 0%nat (transpose m)) by by rewrite Heq.
  assert (Hfirst : ∀ j, t0 !!! j = item2 (transpose m) 0 j) by by rewrite Heq.
  rewrite Heq, det_n_S, Ht0. apply csum_ext. intros j Hj. apply elem_of_seq in Hj.
  rewrite Hfirst, Hrest.
  rewrite (item2_transpose (S n) (S n)) by (done || lia).
  rewrite (transpose_minor n) by (done || lia).
  rewrite IH by (apply rect_minor; done || lia). done.
Qed.


Lemma square_rect {X} (m : list (list X)) : square m ↔ rect (length m) (length m) m.
Proof. unfold square, rect. split; [by split|by intros [_ ?]]. Qed.

Lemma cofactor_transpose (n : nat) (m : cmatrix) (i j : nat) :
  rect (S n) (S n) m → (i < S n)%nat → (j < S n)%nat →
  cofactor (transpose m) i j = cofactor m j i.
Proof.
  intros Hm Hi Hj. unfold cofactor, det.
  pose proof (rect_minor n m j i Hm Hj Hi) as [Hlen Hrows].
  rewrite (transpose_minor n) by done.
  assert (Hlen' : length (transpose (map (delete i) (delete j m))) = n).
  { destruct n as [|n]; [by apply nil_length_inv in Hlen as ->|].
    by destruct (rect_transpose (S n) (S n) (map (delete i) (delete j m))); [|lia|]. }
  rewrite Hlen', Hlen, det_transpose by done.
  by rewrite (Nat.add_comm i j).
Qed.

(** The product in the other order. *)
Lemma linalg_inv_left_inverse (m inv : cmatrix) :
  linalg_inv m = Ok inv → matmul inv m = identity (length m).
Proof.
  unfold linalg_inv. destruct (decide (square m)) as [Hsq|]; [|done].
  destruct (decide (det m = C0)) as [|Hdet]; [done|]. intros [= <-].
  destruct (length m) as [|n] eqn:Hn.
  { apply nil_length_inv in Hn. by subst m. }
  set (inv := map (λ i, map (λ j, Cmul (cofactor m j i) (Cinv (det m))) (seq 0 (S n)))
                  (seq 0 (S n))).
  assert (Hm : rect (S n) (S n) m) by (rewrite <- Hn; by apply square_rect).
  assert (Hinv : rect (S n) (S n) inv)
    by apply (rect_table (λ i j, Cmul (cofactor m j i) (Cinv (det m)))).
  assert (Hcols : ncols m = S n) by (apply (ncols_rect (S n)); [done|lia]).
  assert (Ht : rect (S n) (S n) (transpose m)) by (apply rect_transpose; [done|lia]).
  assert (Htsq : square (transpose m)).
  { apply square_rect. destruct Ht as [Hl Hr]. rewrite Hl. by split. }
  assert (Htlen : length (transpose m) = S n) by by destruct Ht.
  assert (Htdet : det (transpose m) = det m).
  { unfold det. rewrite Htlen, Hn. by apply det_transpose. }
  apply (rect_cells_eq (S n) (S n)).
  - pose proof (rect_matmul inv m) as Hrect. destruct Hinv as [Hl _].
    by rewrite Hl, Hcols in Hrect.
  - apply (rect_table eye).
  - intros i k Hi Hk. destruct Hinv as [Hl Hr].
    rewrite cell_matmul by lia.
    rewrite (cell_item2 (S n) (S n) (identity (S n))) by (done || apply (rect_table eye)).
    unfold identity. rewrite item2_table by done. f_equal.
    assert (Hrow : length (inv !!! i) = S n).
    { unfold inv. rewrite (lookup_total_table _ (S n) i) by done.
      by rewrite length_map, length_seq. }
    rewrite csum_imap, Hrow.
    rewrite (csum_ext _ (λ j, Cmul (Cmul (item2 (transpose m) k j)
                                         (cofactor (transpose m) i j))
                                   (Cinv (det m)))).
    2:{ intros j Hj. apply elem_of_seq in Hj.
        change ((inv !!! i) !!! j) with (item2 inv i j). unfold inv.
        rewrite item2_table by lia.
        rewrite (item2_transpose (S n) (S n)) by (done || lia).
        rewrite (cofactor_transpose n) by (done || lia).
        destruct (cofactor m j i), (Cinv (det m)), (item2 m j k).
        unfold Cmul. simpl. f_equal; ring. }
    rewrite (csum_mul_r (Cinv (det m))
               (λ j, Cmul (item2 (transpose m) k j) (cofactor (transpose m) i j))).
    unfold eye. destruct (decide (i = k)) as [->|Hne].
    + rewrite cofactor_sum_own by done. rewrite Htdet, Cmul_comm. by apply Cmul_Cinv.
    + rewrite cofactor_sum_other by (done || lia). apply Cmul_0_l.
Qed.

(** X5: the transfer function is the inverse of [A(f)]: whenever
    [compute_H_f] returns, it returns one slice per slice of [A(f)], and the
    matrix products of each [A(f)] and its [H(f)], in both orders, are the
    unit matrix. *)
Theorem compute_H_f_inverts (slices H : ctensor) :
  compute_H_f slices = Ok H →
  Forall2 (λ A_f H_f, matmul A_f H_f = identity (length A_f)
                      ∧ matmul H_f A_f = identity (length A_f)) slices H.
Proof.
  revert H. unfold compute_H_f.
  induction slices as [|A_f slices IH]; intros H HH; cbn [forM] in HH.
  - injection HH as <-. constructor.
  - destruct (linalg_inv A_f) as [H_f| |] eqn:Hinv; cbn [mbind py_bind] in HH; [|done..].
    destruct (forM linalg_inv slices) as [H'| |]; cbn [mbind py_bind] in HH; [|done..].
    injection HH as <-. constructor; [|by apply IH].
    split; [by apply linalg_inv_right_inverse|by apply linalg_inv_left_inverse].
Qed.

Lemma compute_H_f_shear :
  compute_H_f Samples.shear_A_f = Ok Samples.shear_inverse.
Proof.
  assert (Hdet : det [[C1; C1]; [C0; C1]] = C1).
  { unfold det. simpl. unfold sign. simpl. cx_eq. }
  unfold compute_H_f, Samples.shear_A_f. cbn [forM].
  unfold linalg_inv. rewrite decide_True by (by repeat constructor).
  rewrite Hdet, decide_False.
  2:{ intros Heq. apply (f_equal re) in Heq. simpl in Heq. lra. }
  simpl. unfold cofactor, det, sign. simpl.
  unfold Samples.shear_inverse, Cmul, Cadd, Cinv, RtoC, C0, C1. simpl.
  do 2 f_equal.
  repeat (apply (f_equal2 cons);
          [repeat (apply (f_equal2 cons); [f_equal; field|]); reflexivity|]).
  reflexivity.
Qed.

Lemma compute_H_f_inverts_witness :
  Forall2 (λ A_f H_f, matmul A_f H_f = identity (length A_f)
                      ∧ matmul H_f A_f = identity (length A_f))
          Samples.shear_A_f Samples.shear_inverse.
Proof. apply (compute_H_f_inverts _ _ compute_H_f_shear). Defined.

End InverseFacts.
